(** * A tic-tac-toe session server: the game sessions and their coordinator

    Shallow embedding of [server/tictactoe_game.py] (the class
    [TicTacToeGame]) and of [server/server_websocket.py] (the registry
    [CLIENTS], the directory [GAMES] / [AVAILABLE_GAMES], the lock
    [STATE_LOCK] and the handlers), followed by the properties of the
    specification that were checked against them. *)

From Stdlib Require Import ZArith NArith Lia Ascii String.
From stdpp Require Import gmap strings list fin_maps.

Local Open Scope Z_scope.

(** ** Python values

    The values [json.loads] hands to the handlers: [None], booleans,
    integers, strings, lists, dictionaries with string keys, and floats,
    which is what a JSON number with a fraction or an exponent and the
    literals [NaN], [Infinity] and [-Infinity] are read as. *)
Module Py.

(** A float: not a number, an infinity, or the finite value
    [m * 2 ^ e]. *)
Inductive pyfloat :=
| FNan
| FInf (negative : bool)
| FFinite (m e : Z).

#[warnings="-register-all"]
Inductive pyval :=
| PNone
| PBool (b : bool)
| PInt (z : Z)
| PStr (s : string)
| PList (l : list pyval)
| PDict (d : list (string * pyval))
| PFloat (f : pyfloat).

(** [bool(v)]: what [if v] and [not v] test.  A float is false when it
    is zero; [nan] and the infinities are true. *)
Definition truthy (v : pyval) : bool :=
  match v with
  | PNone => false
  | PBool b => b
  | PInt z => negb (z =? 0)
  | PStr s => negb (String.eqb s "")
  | PList l => match l with [] => false | _ => true end
  | PDict d => match d with [] => false | _ => true end
  | PFloat (FFinite m _) => negb (m =? 0)
  | PFloat _ => true
  end.

(** [isinstance(v, str)] *)
Definition is_str (v : pyval) : bool :=
  match v with PStr _ => true | _ => false end.

(** [d.get(k, default)] on a dict given by its items; [d.get(k)] is
    [get k PNone d]. *)
Fixpoint get (k : string) (default : pyval) (d : list (string * pyval)) : pyval :=
  match d with
  | [] => default
  | (k', v) :: rest => if String.eqb k' k then v else get k default rest
  end.

(** The exceptions the modelled code can raise. *)
Inductive exn :=
| TypeError | AttributeError | KeyError | ValueError | OverflowError.

(** [m.get(k)] on a dict whose keys are all strings, with an arbitrary
    value as the key: lists and dicts are unhashable, and no other
    value equals a string. *)
Definition dict_get {V} (m : gmap string V) (k : pyval) : exn + option V :=
  match k with
  | PStr s => inr (m !! s)
  | PList _ | PDict _ => inl TypeError
  | _ => inr None
  end.

End Py.

(** ** [tictactoe_game.py] *)
Module TicTacToeGame.
Import Py.

(** The two marks, ['X'] and ['O']. *)
Inductive piece := X | O.

(** A board cell: [None] is the empty string [''], [Some p] the mark. *)
Definition cell := option piece.
Definition row := (cell * cell * cell)%type.
(** [self.board]: three rows of three cells.  The constructor builds it
    with this shape and the class only ever assigns single cells. *)
Definition board := (row * row * row)%type.

(** ['waiting'], ['active'], ['finished'] *)
Inductive status_t := waiting | active | finished.

#[global] Instance piece_eq_dec : EqDecision piece.
Proof. solve_decision. Defined.
#[global] Instance status_eq_dec : EqDecision status_t.
Proof. solve_decision. Defined.

(** [t[i]] for an index among 0, 1, 2 (every index the class uses is a
    constant, comes from [range(3)] or has passed the bounds check). *)
Definition nth3 {A} (t : A * A * A) (i : Z) : A :=
  let '(a, b, c) := t in
  if i =? 0 then a else if i =? 1 then b else c.

(** [t[i] = v] *)
Definition set3 {A} (t : A * A * A) (i : Z) (v : A) : A * A * A :=
  let '(a, b, c) := t in
  if i =? 0 then (v, b, c) else if i =? 1 then (a, v, c) else (a, b, v).

(** [board[y][x]] *)
Definition at_ (b : board) (y x : Z) : cell := nth3 (nth3 b y) x.

(** [board[y][x] = v] *)
Definition put (b : board) (y x : Z) (v : cell) : board :=
  set3 b y (set3 (nth3 b y) x v).

Definition empty_row : row := (None, None, None).
Definition empty_board : board := (empty_row, empty_row, empty_row).

(** An entry of [self.players]. *)
Record player := { uuid : string; name : pyval }.

Record game := {
  game_id : string;
  board_ : board;
  players_X : option player;
  players_O : option player;
  turn : piece;
  status : status_t;
  winner : option piece
}.

(** Assignments to single attributes of a session. *)
Definition set_board (b : board) (g : game) : game :=
  {| game_id := game_id g; board_ := b; players_X := players_X g;
     players_O := players_O g; turn := turn g; status := status g;
     winner := winner g |}.
Definition set_players_O (p : option player) (g : game) : game :=
  {| game_id := game_id g; board_ := board_ g; players_X := players_X g;
     players_O := p; turn := turn g; status := status g;
     winner := winner g |}.
Definition set_turn (t : piece) (g : game) : game :=
  {| game_id := game_id g; board_ := board_ g; players_X := players_X g;
     players_O := players_O g; turn := t; status := status g;
     winner := winner g |}.
Definition set_status (s : status_t) (g : game) : game :=
  {| game_id := game_id g; board_ := board_ g; players_X := players_X g;
     players_O := players_O g; turn := turn g; status := s;
     winner := winner g |}.
Definition set_winner (w : option piece) (g : game) : game :=
  {| game_id := game_id g; board_ := board_ g; players_X := players_X g;
     players_O := players_O g; turn := turn g; status := status g;
     winner := w |}.

(** [__init__] *)
Definition init (gid player1_uuid : string) (player1_name : pyval) : game :=
  {| game_id := gid;
     board_ := empty_board;
     players_X := Some {| uuid := player1_uuid; name := player1_name |};
     players_O := None;
     turn := X;
     status := waiting;
     winner := None |}.

(** [add_player2]: the new session and the returned flag. *)
Definition add_player2 (g : game) (player2_uuid : string) (player2_name : pyval)
  : bool * game :=
  match players_O g with
  | None =>
      (true,
       set_status active
         (set_players_O (Some {| uuid := player2_uuid; name := player2_name |}) g))
  | Some _ => (false, g)
  end.

(** [get_state] returns the fields of the session; the record itself
    stands for that dictionary. *)
Definition get_state (g : game) : game := g.

(** [get_player_piece] *)
Definition get_player_piece (g : game) (player_uuid : string) : option piece :=
  let is_player (slot : option player) :=
    match slot with
    | Some p => String.eqb (uuid p) player_uuid
    | None => false
    end in
  if is_player (players_X g) then Some X
  else if is_player (players_O g) then Some O
  else None.

(** [a == b == c != ''] *)
Definition same3 (a b c : cell) : bool :=
  bool_decide (a = b) && bool_decide (b = c) && bool_decide (c ≠ None).

(** [for i in range(3): if row i is a line: return board[i][0]] *)
Fixpoint check_rows (b : board) (range : list Z) : option piece :=
  match range with
  | [] => None
  | i :: rest =>
      if same3 (at_ b i 0) (at_ b i 1) (at_ b i 2) then at_ b i 0
      else check_rows b rest
  end.

(** [for j in range(3): if column j is a line: return board[0][j]] *)
Fixpoint check_cols (b : board) (range : list Z) : option piece :=
  match range with
  | [] => None
  | j :: rest =>
      if same3 (at_ b 0 j) (at_ b 1 j) (at_ b 2 j) then at_ b 0 j
      else check_cols b rest
  end.

(** [check_winner]: the mark of the first full line, rows, then columns,
    then the two diagonals; [None] when there is none. *)
Definition check_winner (b : board) : option piece :=
  match check_rows b [0; 1; 2] with
  | Some w => Some w
  | None =>
      match check_cols b [0; 1; 2] with
      | Some w => Some w
      | None =>
          if same3 (at_ b 0 0) (at_ b 1 1) (at_ b 2 2) then at_ b 0 0
          else if same3 (at_ b 0 2) (at_ b 1 1) (at_ b 2 0) then at_ b 0 2
          else None
      end
  end.

(** [all(self.board[i][j] != '' for i in range(3) for j in range(3))] *)
Definition all_filled (b : board) : bool :=
  forallb (fun i => forallb (fun j => bool_decide (at_ b i j ≠ None)) [0; 1; 2])
          [0; 1; 2].

(** The dictionary [make_move] returns: a rejection with its reason, or
    the fields of a success. *)
Inductive move_result :=
| Rejected (reason : string)
| Moved (board : board) (next_turn : option piece) (game_over : bool)
        (winner : option piece) (is_tie : bool).

Definition success (r : move_result) : bool :=
  match r with Rejected _ => false | Moved _ _ _ _ _ => true end.

(** ['O' if self.turn == 'X' else 'X'] *)
Definition other (p : piece) : piece :=
  match p with X => O | O => X end.

(** [make_move]: the returned dictionary and the session afterwards. *)
Definition make_move (g : game) (player_uuid : string) (y x : Z)
  : move_result * game :=
  if negb (bool_decide (status g = active)) then
    (Rejected "Game is not active", g)
  else
    match get_player_piece g player_uuid with
    | None => (Rejected "Player not in game", g)
    | Some player_piece =>
        if negb (bool_decide (player_piece = turn g)) then
          (Rejected "Not your turn", g)
        else if negb ((0 <=? y) && (y <? 3) && ((0 <=? x) && (x <? 3))) then
          (Rejected "Invalid position", g)
        else if negb (bool_decide (at_ (board_ g) y x = None)) then
          (Rejected "Position already occupied", g)
        else
          let b' := put (board_ g) y x (Some player_piece) in
          match check_winner b' with
          | Some w =>
              (Moved b' None true (Some w) false,
               set_status finished (set_winner (Some w) (set_board b' g)))
          | None =>
              if all_filled b' then
                (Moved b' None true None true,
                 set_status finished (set_board b' g))
              else
                let t' := other (turn g) in
                (Moved b' (Some t') false None false,
                 set_turn t' (set_board b' g))
          end
    end.

(** *** The win and draw rules as the specification words them

    A mark wins if it occupies all three cells of a row, a column or a
    diagonal; lines are looked at rows first, then columns, then the two
    diagonals; a draw is a full board without such a line. *)

Definition rule_lines : list (list (Z * Z)) :=
  [ [(0, 0); (0, 1); (0, 2)]; [(1, 0); (1, 1); (1, 2)]; [(2, 0); (2, 1); (2, 2)];
    [(0, 0); (1, 0); (2, 0)]; [(0, 1); (1, 1); (2, 1)]; [(0, 2); (1, 2); (2, 2)];
    [(0, 0); (1, 1); (2, 2)]; [(0, 2); (1, 1); (2, 0)] ].

Definition occupies (b : board) (m : piece) (line : list (Z * Z)) : bool :=
  forallb (fun '(i, j) => bool_decide (at_ b i j = Some m)) line.

Definition line_owner (b : board) (line : list (Z * Z)) : option piece :=
  if occupies b X line then Some X
  else if occupies b O line then Some O
  else None.

Fixpoint first_owner (b : board) (lines : list (list (Z * Z))) : option piece :=
  match lines with
  | [] => None
  | l :: rest =>
      match line_owner b l with
      | Some m => Some m
      | None => first_owner b rest
      end
  end.

Definition rule_winner (b : board) : option piece := first_owner b rule_lines.

Definition rule_full (b : board) : bool :=
  forallb (fun '(i, j) => bool_decide (at_ b i j ≠ None))
    [(0, 0); (0, 1); (0, 2); (1, 0); (1, 1); (1, 2); (2, 0); (2, 1); (2, 2)].

Definition rule_draw (b : board) : bool :=
  rule_full b && forallb (fun l => bool_decide (line_owner b l = None)) rule_lines.

(** *** Sessions the class can produce *)

Inductive reachable : game -> Prop :=
| reach_init gid u n : reachable (init gid u n)
| reach_add_player2 g u n : reachable g -> reachable (add_player2 g u n).2
| reach_make_move g u y x : reachable g -> reachable (make_move g u y x).2.

(** A call of one of the two mutating methods. *)
Inductive call :=
| AddPlayer2 (player2_uuid : string) (player2_name : pyval)
| MakeMove (player_uuid : string) (y x : Z).

Definition run_call (g : game) (c : call) : game :=
  match c with
  | AddPlayer2 u n => (add_player2 g u n).2
  | MakeMove u y x => (make_move g u y x).2
  end.

Definition run_calls (g : game) (cs : list call) : game :=
  foldl run_call g cs.

End TicTacToeGame.

(** ** Session identifiers: [str(uuid.uuid4())[:8]] *)
Module Uuid.
Local Open Scope N_scope.

Definition hex_digit (d : N) : ascii :=
  match d with
  | 0 => "0" | 1 => "1" | 2 => "2" | 3 => "3" | 4 => "4" | 5 => "5"
  | 6 => "6" | 7 => "7" | 8 => "8" | 9 => "9" | 10 => "a" | 11 => "b"
  | 12 => "c" | 13 => "d" | 14 => "e" | _ => "f"
  end%char.

(** ['%0<digits>x' % n], for [n] below [16 ^ digits]. *)
Fixpoint hex (digits : nat) (n : N) : string :=
  match digits with
  | O => ""
  | S k => hex k (n / 16) +:+ String (hex_digit (n mod 16)) ""
  end.

(** [uuid.uuid4()]: the 16 bytes of [os.urandom(16)], read as a
    big-endian number [r], with the variant and version bits set as
    [UUID(bytes=..., version=4)] sets them. *)
Definition uuid4 (r : N) : N :=
  let i := r mod 2 ^ 128 in
  let i := N.ldiff i (N.shiftl 0xc000 48) in
  let i := N.lor i (N.shiftl 0x8000 48) in
  let i := N.ldiff i (N.shiftl 0xf000 64) in
  N.lor i (N.shiftl 4 76).

(** [str(u)]: the 32 hex digits in groups of 8-4-4-4-12. *)
Definition str (u : N) : string :=
  let h := hex 32 u in
  substring 0 8 h +:+ "-" +:+ substring 8 4 h +:+ "-" +:+ substring 12 4 h
    +:+ "-" +:+ substring 16 4 h +:+ "-" +:+ substring 20 12 h.

(** [str(sys_uuid.uuid4())[:8]] *)
Definition new_game_id (r : N) : string := substring 0 8 (str (uuid4 r)).

End Uuid.

(** ** [server_websocket.py] *)
Module Server.
Import Py TicTacToeGame.

(** A connection handle (a [websocket] object, compared by identity). *)
Definition conn := nat.

(** A value of [CLIENTS]. *)
Record client_info := {
  client_name : pyval;
  websocket : conn;
  current_game : option string;
  client_status : string
}.

(** A value of [AVAILABLE_GAMES], and an entry of the list sent to the
    lobby. *)
Record open_game := {
  open_game_id : string;
  player1_name : pyval;
  player1_uuid : string
}.

(** A message text: a literal, or the f-string [f"{pre}{v}{post}"]. *)
Inductive text :=
| Lit (s : string)
| Fmt (pre : string) (v : pyval) (post : string).

(** The dictionaries handed to [send_message], by their ["action"]. *)
Inductive message :=
| error (msg : text)
| registered (uuid : string) (name : pyval)
| rejoin_game (game_id : string) (game_state : game) (player_piece : option piece)
| available_games_update (games : list open_game)
| game_created (game_id : string) (game_state : game) (player_piece : option piece)
| game_start (game_id : string) (game_state : game)
| game_error (game_id : pyval) (msg : text)
| move_error (game_id : string) (msg : text) (board : option board)
| game_update (game_id : string) (board : board) (next_turn_piece : option piece)
| game_over (game_id : string) (board : board) (winner_piece : option piece)
            (is_tie : bool)
| opponent_disconnected (game_id : string) (msg : text).

(** What a handler does that others can observe: taking and releasing
    [STATE_LOCK], a frame sent on a connection, a connection closed. *)
Inductive event :=
| Acquire
| Release
| Send (ws : conn) (m : message)
| Close (ws : conn).

(** The shared state of the process: the three dictionaries, whether
    [STATE_LOCK] is held, the events so far (oldest first), and the
    values [os.urandom(16)] yields, with the number already drawn. *)
Record world := {
  CLIENTS : gmap string client_info;
  GAMES : gmap string game;
  AVAILABLE_GAMES : gmap string open_game;
  locked : bool;
  trace : list event;
  urandom : nat -> N;
  draws : nat
}.

Definition set_CLIENTS (c : gmap string client_info) (w : world) : world :=
  {| CLIENTS := c; GAMES := GAMES w; AVAILABLE_GAMES := AVAILABLE_GAMES w;
     locked := locked w; trace := trace w; urandom := urandom w; draws := draws w |}.
Definition set_GAMES (g : gmap string game) (w : world) : world :=
  {| CLIENTS := CLIENTS w; GAMES := g; AVAILABLE_GAMES := AVAILABLE_GAMES w;
     locked := locked w; trace := trace w; urandom := urandom w; draws := draws w |}.
Definition set_AVAILABLE_GAMES (a : gmap string open_game) (w : world) : world :=
  {| CLIENTS := CLIENTS w; GAMES := GAMES w; AVAILABLE_GAMES := a;
     locked := locked w; trace := trace w; urandom := urandom w; draws := draws w |}.
Definition set_locked (l : bool) (w : world) : world :=
  {| CLIENTS := CLIENTS w; GAMES := GAMES w; AVAILABLE_GAMES := AVAILABLE_GAMES w;
     locked := l; trace := trace w; urandom := urandom w; draws := draws w |}.
Definition log (evs : list event) (w : world) : world :=
  {| CLIENTS := CLIENTS w; GAMES := GAMES w; AVAILABLE_GAMES := AVAILABLE_GAMES w;
     locked := locked w; trace := trace w ++ evs; urandom := urandom w;
     draws := draws w |}.
Definition set_draws (d : nat) (w : world) : world :=
  {| CLIENTS := CLIENTS w; GAMES := GAMES w; AVAILABLE_GAMES := AVAILABLE_GAMES w;
     locked := locked w; trace := trace w; urandom := urandom w; draws := d |}.

(** The server before any connection. *)
Definition start (rnd : nat -> N) : world :=
  {| CLIENTS := ∅; GAMES := ∅; AVAILABLE_GAMES := ∅; locked := false;
     trace := []; urandom := rnd; draws := 0 |}.

(** *** Handlers as state transformers

    A coroutine either returns, raises, or never resumes because it waits
    for [STATE_LOCK] while the lock is held: [asyncio.Lock] is not
    reentrant, and no coroutine that resumes keeps the lock over a point
    where others run, so a held lock met by [acquire] stays held. *)
Inductive outcome (A : Type) :=
| Done (a : A) (w : world)
| Raised (e : exn) (w : world)
| Blocked (w : world).
Arguments Done {A}.
Arguments Raised {A}.
Arguments Blocked {A}.

Definition M (A : Type) : Type := world -> outcome A.

Definition ret {A} (a : A) : M A := fun w => Done a w.

Definition bind {A B} (m : M A) (k : A -> M B) : M B := fun w =>
  match m w with
  | Done a w' => k a w'
  | Raised e w' => Raised e w'
  | Blocked w' => Blocked w'
  end.

Declare Scope coro_scope.
Delimit Scope coro_scope with coro.
Notation "'let*' x := m 'in' k" := (bind m (fun x => k))
  (at level 10, x pattern, m at level 100, k at level 200) : coro_scope.
Notation "m ;; k" := (bind m (fun _ => k))
  (at level 100, k at level 200, right associativity) : coro_scope.
Local Open Scope coro_scope.

Definition raise {A} (e : exn) : M A := fun w => Raised e w.
Definition read {A} (f : world -> A) : M A := fun w => Done (f w) w.
Definition update (f : world -> world) : M unit := fun w => Done tt (f w).
Definition emit (e : event) : M unit := update (log [e]).

(** The world a coroutine leaves behind, however it ended. *)
Definition world_of {A} (o : outcome A) : world :=
  match o with Done _ w | Raised _ w | Blocked w => w end.

(** Whether the coroutine came to an end (returned or raised). *)
Definition finished_run {A} (o : outcome A) : bool :=
  match o with Blocked _ => false | _ => true end.

(** [async with STATE_LOCK: body].  Leaving the block, by falling off its
    end, by [return] or by an exception, releases the lock. *)
Definition with_lock {A} (body : M A) : M A := fun w =>
  if locked w then Blocked w
  else
    match body (set_locked true (log [Acquire] w)) with
    | Done a w' => Done a (set_locked false (log [Release] w'))
    | Raised e w' => Raised e (set_locked false (log [Release] w'))
    | Blocked w' => Blocked w'
    end.

(** [for x in xs: body(x)] *)
Fixpoint for_each {A} (xs : list A) (body : A -> M unit) : M unit :=
  match xs with
  | [] => ret tt
  | x :: rest => body x;; for_each rest body
  end.

(** [send_message].  The frame is handed to the connection; a failed
    delivery is caught there and changes nothing here. *)
Definition send_message (ws : conn) (m : message) : M unit := emit (Send ws m).

(** [send_message_to_client].  Every stored [websocket] is a connection
    object, which is truthy. *)
Definition send_message_to_client (client_uuid : string) (m : message) : M unit :=
  let* found := with_lock (read (fun w => websocket <$> CLIENTS w !! client_uuid)) in
  match found with
  | None => ret tt
  | Some ws => send_message ws m
  end.

(** The players of a session with a truthy ['uuid'], ['X'] first. *)
Definition player_uuids (g : game) : list string :=
  let one (slot : option player) :=
    match slot with
    | Some p => if truthy (PStr (uuid p)) then [uuid p] else []
    | None => []
    end in
  one (players_X g) ++ one (players_O g).

(** [broadcast_game_message] *)
Definition broadcast_game_message (game_id : string) (m : message) : M unit :=
  let* players_to_notify :=
    with_lock (read (fun w => player_uuids <$> GAMES w !! game_id)) in
  match players_to_notify with
  | None => ret tt
  | Some uuids => for_each uuids (fun u => send_message_to_client u m)
  end.

(** The list built from [AVAILABLE_GAMES.items()].  The entries come in
    the order in which the map enumerates them. *)
Definition open_games (a : gmap string open_game) : list open_game :=
  (fun '(gid, info) =>
     {| open_game_id := gid; player1_name := player1_name info;
        player1_uuid := player1_uuid info |}) <$> map_to_list a.

(** [get_available_games_list] *)
Definition get_available_games_list : M (list open_game) :=
  with_lock (read (fun w => open_games (AVAILABLE_GAMES w))).

(** The clients [broadcast_available_games] selects: those whose
    ['current_game'] is [None]. *)
Definition lobby_clients (c : gmap string client_info) : list string :=
  omap (fun '(client_uuid, info) =>
          match current_game info with
          | None => Some client_uuid
          | Some _ => None
          end) (map_to_list c).

(** [broadcast_available_games] *)
Definition broadcast_available_games : M unit :=
  let* games_list := get_available_games_list in
  let* clients_in_lobby := with_lock (read (fun w => lobby_clients (CLIENTS w))) in
  for_each clients_in_lobby
    (fun u => send_message_to_client u (available_games_update games_list)).

(** [CLIENTS[client_uuid]["current_game"] = v], guarded by
    [client_uuid in CLIENTS] where the source guards it and applied to a
    present key where it does not. *)
Definition set_current_game (client_uuid : string) (v : option string)
    (c : gmap string client_info) : gmap string client_info :=
  match c !! client_uuid with
  | Some info =>
      <[client_uuid := {| client_name := client_name info;
                          websocket := websocket info;
                          current_game := v;
                          client_status := client_status info |}]> c
  | None => c
  end.

(** Truth value of a ['current_game'] entry. *)
Definition in_a_game (cur : option string) : bool :=
  match cur with
  | Some gid => truthy (PStr gid)
  | None => false
  end.

(** [handle_register].  A [client_uuid] that is not a string fails
    [isinstance(client_uuid, str)]. *)
Definition handle_register (ws : conn) (client_uuid name : pyval) : M bool :=
  let invalid :=
    send_message ws (error (Lit "Invalid register request: missing UUID or name."));;
    ret false in
  match client_uuid with
  | PStr u =>
      if negb (truthy client_uuid) || negb (truthy name) then invalid
      else
        with_lock (update (fun w =>
          match CLIENTS w !! u with
          | Some info =>
              set_CLIENTS
                (<[u := {| client_name := name; websocket := ws;
                           current_game := current_game info;
                           client_status := "connected" |}]> (CLIENTS w)) w
          | None =>
              set_CLIENTS
                (<[u := {| client_name := name; websocket := ws;
                           current_game := None;
                           client_status := "connected" |}]> (CLIENTS w)) w
          end));;
        send_message ws (registered u name);;
        let* current_game_id :=
          with_lock (fun w =>
            match CLIENTS w !! u with
            | Some info => Done (current_game info) w
            | None => Raised KeyError w
            end) in
        let* rejoin :=
          read (fun w =>
            match current_game_id with
            | Some gid =>
                if truthy (PStr gid) then
                  (fun game => (gid, game)) <$> GAMES w !! gid
                else None
            | None => None
            end) in
        match rejoin with
        | Some (gid, game) =>
            send_message ws
              (rejoin_game gid (get_state game) (get_player_piece game u));;
            ret true
        | None =>
            with_lock (update (fun w =>
              set_CLIENTS (set_current_game u None (CLIENTS w)) w));;
            let* games := get_available_games_list in
            send_message ws (available_games_update games);;
            ret true
        end
  | _ => invalid
  end.

(** [sys_uuid.uuid4()] takes the next 16 random bytes. *)
Definition draw : M N := fun w =>
  Done (urandom w (draws w)) (set_draws (S (draws w)) w).

(** [handle_create_game] *)
Definition handle_create_game (player1_uuid : string) : M unit :=
  let* created :=
    with_lock (
      let* client_info := read (fun w => CLIENTS w !! player1_uuid) in
      match client_info with
      | None => ret None
      | Some info =>
          if in_a_game (current_game info) then
            send_message_to_client player1_uuid
              (error (Lit "You are already in a game."));;
            ret None
          else
            let player1_name := client_name info in
            let* r := draw in
            let game_id := Uuid.new_game_id r in
            let game := init game_id player1_uuid player1_name in
            update (fun w => set_GAMES (<[game_id := game]> (GAMES w)) w);;
            update (fun w =>
              set_AVAILABLE_GAMES
                (<[game_id := {| open_game_id := game_id;
                                 player1_name := player1_name;
                                 player1_uuid := player1_uuid |}]>
                   (AVAILABLE_GAMES w)) w);;
            update (fun w =>
              set_CLIENTS (set_current_game player1_uuid (Some game_id) (CLIENTS w)) w);;
            ret (Some (game_id, game))
      end) in
  match created with
  | None => ret tt
  | Some (game_id, game) =>
      send_message_to_client player1_uuid
        (game_created game_id (get_state game) (get_player_piece game player1_uuid));;
      broadcast_available_games
  end.

(** A dictionary lookup with an arbitrary value as the key, inside a
    coroutine. *)
Definition lookup_key {V} (m : world -> gmap string V) (k : pyval) : M (option V) :=
  fun w =>
    match dict_get (m w) k with
    | inl e => Raised e w
    | inr v => Done v w
    end.

(** [handle_join_game].  The [game_id] is whatever the message carried
    under ["game_id"], known to be truthy. *)
Definition handle_join_game (player2_uuid : string) (game_id : pyval) : M unit :=
  let* joined :=
    with_lock (
      let* client_info := read (fun w => CLIENTS w !! player2_uuid) in
      match client_info with
      | None => ret None
      | Some info =>
          if in_a_game (current_game info) then
            send_message_to_client player2_uuid
              (error (Lit "You are already in a game."));;
            ret None
          else
            let not_found :=
              send_message_to_client player2_uuid
                (game_error game_id (Lit "Game not found or is full."));;
              let* games := get_available_games_list in
              send_message_to_client player2_uuid (available_games_update games);;
              ret None in
            let* game := lookup_key GAMES game_id in
            match game, game_id with
            | Some g, PStr gid =>
                let* advertised := read (fun w => AVAILABLE_GAMES w !! gid) in
                match advertised with
                | None => not_found
                | Some _ =>
                    let player2_name := client_name info in
                    match add_player2 g player2_uuid player2_name with
                    | (true, g') =>
                        update (fun w => set_GAMES (<[gid := g']> (GAMES w)) w);;
                        update (fun w =>
                          set_CLIENTS
                            (set_current_game player2_uuid (Some gid) (CLIENTS w)) w);;
                        update (fun w =>
                          set_AVAILABLE_GAMES (delete gid (AVAILABLE_GAMES w)) w);;
                        ret (Some (gid, get_state g'))
                    | (false, _) =>
                        send_message_to_client player2_uuid
                          (error (Lit "Failed to join game. Game might be full."));;
                        let* games := get_available_games_list in
                        send_message_to_client player2_uuid
                          (available_games_update games);;
                        ret None
                    end
                end
            | _, _ => not_found
            end
      end) in
  match joined with
  | None => ret tt
  | Some (gid, game_state) =>
      broadcast_game_message gid (game_start gid game_state);;
      broadcast_available_games
  end.

(** [cleanup_game] *)
Definition cleanup_game (game_id : string) : M unit :=
  let* found :=
    with_lock (
      let* game := read (fun w => GAMES w !! game_id) in
      match game with
      | None => ret false
      | Some g =>
          for_each (player_uuids g) (fun player_uuid =>
            update (fun w =>
              set_CLIENTS (set_current_game player_uuid None (CLIENTS w)) w));;
          update (fun w => set_GAMES (delete game_id (GAMES w)) w);;
          update (fun w => set_AVAILABLE_GAMES (delete game_id (AVAILABLE_GAMES w)) w);;
          ret true
      end) in
  if found then broadcast_available_games else ret tt.

(** The other participant [cleanup_client] looks for: the first slot,
    ['X'] before ['O'], that is filled by someone else. *)
Definition opponent_of (g : game) (client_uuid : string) : option string :=
  let other_one (slot : option player) :=
    match slot with
    | Some p => if negb (String.eqb (uuid p) client_uuid) then Some (uuid p) else None
    | None => None
    end in
  match other_one (players_X g) with
  | Some o => Some o
  | None => other_one (players_O g)
  end.

(** The name [cleanup_client] reads back from the session: that of the
    first slot filled by the leaving client, ["Opponent"] otherwise. *)
Definition leaving_name (g : option game) (client_uuid : string) : pyval :=
  let mine (slot : option player) :=
    match slot with
    | Some p => if String.eqb (uuid p) client_uuid then Some (name p) else None
    | None => None
    end in
  match g with
  | None => PStr "Opponent"
  | Some g =>
      match mine (players_X g) with
      | Some n => n
      | None =>
          match mine (players_O g) with
          | Some n => n
          | None => PStr "Opponent"
          end
      end
  end.

(** [game_id in GAMES] for a ['current_game'] entry. *)
Definition live_game (cur : option string) (w : world) : option (string * game) :=
  match cur with
  | Some gid => (fun g => (gid, g)) <$> GAMES w !! gid
  | None => None
  end.

(** The first [async with STATE_LOCK] block of [cleanup_client].  It
    returns [None] where the source returns from the function, and
    otherwise the values of [game_id] and [opponent_uuid] the rest of
    the function goes on with. *)
Definition cleanup_client_locked (client_uuid : string)
  : M (option (option string * option string)) :=
  let* client_info := read (fun w => CLIENTS w !! client_uuid) in
  match client_info with
  | None => ret None
  | Some info =>
      let game_id := current_game info in
      let* game := read (live_game game_id) in
      let* opponent_uuid :=
        match game with
        | Some (gid, g) =>
            update (fun w =>
              set_GAMES (<[gid := set_status finished g]> (GAMES w)) w);;
            ret (opponent_of g client_uuid)
        | None => ret None
        end in
      update (fun w => set_CLIENTS (delete client_uuid (CLIENTS w)) w);;
      ret (Some (game_id, opponent_uuid))
  end.

(** [cleanup_client] *)
Definition cleanup_client (client_uuid : string) : M unit :=
  let* removed := with_lock (cleanup_client_locked client_uuid) in
  match removed with
  | None => ret tt
  | Some (game_id, opponent_uuid) =>
      let* game := read (live_game game_id) in
      match game with
      | Some (gid, _) =>
          match opponent_uuid with
          | Some o =>
              if truthy (PStr o) then
                let* leaving_player_name :=
                  with_lock (read (fun w => leaving_name (GAMES w !! gid) client_uuid)) in
                send_message_to_client o
                  (opponent_disconnected gid
                     (Fmt "" leaving_player_name " disconnected. Game ended."))
              else ret tt
          | None => ret tt
          end;;
          cleanup_game gid
      | None => broadcast_available_games
      end
  end.

(** [try: body except Exception: pass] *)
Definition catch {A} (body : M A) : M (option A) := fun w =>
  match body w with
  | Done a w' => Done (Some a) w'
  | Raised _ w' => Done None w'
  | Blocked w' => Blocked w'
  end.

Section Routing.

(** Python's [int] on a string: the number it denotes, [None] where
    [int] raises [ValueError]. *)
Variable int_of_str : string -> option Z.

(** [int(v)]: the number it returns or the exception it raises.  A
    finite float is cut off towards zero; [int(nan)] raises [ValueError]
    and [int(inf)] raises [OverflowError]. *)
Definition int_of (v : pyval) : exn + Z :=
  match v with
  | PInt z => inr z
  | PBool b => inr (Z.b2z b)
  | PStr s =>
      match int_of_str s with
      | Some z => inr z
      | None => inl ValueError
      end
  | PFloat FNan => inl ValueError
  | PFloat (FInf _) => inl OverflowError
  | PFloat (FFinite m e) =>
      inr (if 0 <=? e then m * 2 ^ e else Z.quot m (2 ^ (- e)))
  | PNone | PList _ | PDict _ => inl TypeError
  end.

(** [int(v)] where it returns, [None] where it raises. *)
Definition py_int (v : pyval) : option Z :=
  match int_of v with
  | inr z => Some z
  | inl _ => None
  end.

(** [y = int(y); x = int(x)]: both numbers, or the exception of the
    first conversion that raises. *)
Definition int_both (y x : pyval) : exn + Z * Z :=
  match int_of y with
  | inl e => inl e
  | inr yi =>
      match int_of x with
      | inl e => inl e
      | inr xi => inr (yi, xi)
      end
  end.

(** [handle_make_move].  [make_move] changes the session object that
    [GAMES] holds under [game_id].  The [except] clause around the two
    conversions catches [ValueError] and [TypeError]; any other
    exception leaves the handler. *)
Definition handle_make_move (client_uuid game_id : string) (y x : pyval) : M unit :=
  let* found :=
    with_lock (
      let* game := read (fun w => GAMES w !! game_id) in
      match game with
      | None =>
          send_message_to_client client_uuid
            (game_error (PStr game_id) (Lit "Game not found."));;
          ret None
      | Some g => ret (Some g)
      end) in
  match found with
  | None => ret tt
  | Some g =>
      match int_both y x with
      | inr (y, x) =>
          let '(result, g') := make_move g client_uuid y x in
          update (fun w => set_GAMES (<[game_id := g']> (GAMES w)) w);;
          match result with
          | Moved board next_turn true winner is_tie =>
              broadcast_game_message game_id (game_over game_id board winner is_tie);;
              cleanup_game game_id
          | Moved board next_turn false _ _ =>
              broadcast_game_message game_id (game_update game_id board next_turn)
          | Rejected reason =>
              send_message_to_client client_uuid
                (move_error game_id (Lit reason) (Some (board_ g')))
          end
      | inl ValueError | inl TypeError =>
          send_message_to_client client_uuid
            (move_error game_id (Lit "Invalid coordinates.") None)
      | inl e => raise e
      end
  end.

(** [action == name] *)
Definition is_action (action : pyval) (name : string) : bool :=
  match action with
  | PStr a => String.eqb a name
  | _ => false
  end.

(** [process_message].  The frame is what [json.loads] made of it,
    [None] where it raised [JSONDecodeError]; a frame that is not an
    object has no [get]. *)
Definition process_message (ws : conn) (frame : option pyval)
    (client_uuid : option string) : M unit :=
  match frame with
  | None => send_message ws (error (Lit "Invalid JSON received."))
  | Some (PDict message) =>
      let action := get "action" PNone message in
      let received_uuid := get "uuid" PNone message in
      if negb (is_action action "register")
         && (negb (truthy received_uuid) || negb (is_str received_uuid)) then
        send_message ws (error (Fmt "Action '" action "' requires a valid UUID."))
      else
        let effective_client_uuid :=
          if truthy received_uuid then received_uuid
          else match client_uuid with Some u => PStr u | None => PNone end in
        if negb (truthy effective_client_uuid) then
          send_message ws (error (Lit "Could not identify client."))
        else
          let* client_info := with_lock (lookup_key CLIENTS effective_client_uuid) in
          if is_action action "register" then
            handle_register ws effective_client_uuid
              (get "name" (PStr "Anonymous") message);;
            ret tt
          else
            let not_registered :=
              send_message ws
                (error (Lit "Client not fully registered or using an old connection.")) in
            match client_info, effective_client_uuid with
            | Some info, PStr u =>
                if negb (Nat.eqb (websocket info) ws) then not_registered
                else
                  match current_game info with
                  | None =>
                      if is_action action "create_game" then handle_create_game u
                      else if is_action action "join_game" then
                        let game_id := get "game_id" PNone message in
                        if truthy game_id then handle_join_game u game_id
                        else
                          send_message_to_client u
                            (error (Lit "Join game request missing game_id."))
                      else if is_action action "list_games" then
                        let* games := get_available_games_list in
                        send_message_to_client u (available_games_update games)
                      else
                        send_message_to_client u
                          (error (Fmt "Unknown action '" action "' in lobby state."))
                  | Some current_game_id =>
                      let* game := read (fun w => GAMES w !! current_game_id) in
                      match game with
                      | Some _ =>
                          if is_action action "make_move" then
                            handle_make_move u current_game_id
                              (get "y" PNone message) (get "x" PNone message)
                          else
                            send_message_to_client u
                              (error (Lit "Unknown game action."))
                      | None =>
                          with_lock (update (fun w =>
                            set_CLIENTS (set_current_game u None (CLIENTS w)) w));;
                          send_message_to_client u
                            (error (Lit "Was in invalid game state, returning to lobby."));;
                          let* games := get_available_games_list in
                          send_message_to_client u (available_games_update games)
                      end
                  end
            | _, _ => not_registered
            end
  | Some _ => raise AttributeError
  end.

(** The [finally] clause of [handle_client]: [client_uuid] is [None]
    until the opening frame has named the client. *)
Definition finally_clause (client_uuid : option string) : M unit :=
  match client_uuid with
  | Some u => if truthy (PStr u) then cleanup_client u else ret tt
  | None => ret tt
  end.

(** [handle_client], in the three steps other connections can come
    between.  First the opening frame: the result is the [client_uuid]
    the connection goes on with, [None] when the handler has ended (its
    [finally] clause included). *)
Definition first_message (ws : conn) (frame : option pyval) : M (option string) :=
  match frame with
  | None =>
      send_message ws (error (Lit "Invalid JSON received."));;
      emit (Close ws);;
      finally_clause None;;
      ret None
  | Some (PDict message) =>
      match get "uuid" PNone message with
      | PStr u =>
          if is_action (get "action" PNone message) "register" && truthy (PStr u) then
            let* ok :=
              catch (handle_register ws (PStr u)
                       (get "name" (PStr "Anonymous") message)) in
            match ok with
            | Some true => ret (Some u)
            | Some false => emit (Close ws);; finally_clause (Some u);; ret None
            | None => finally_clause (Some u);; ret None
            end
          else
            send_message ws
              (error (Lit "First message must be a valid register request."));;
            emit (Close ws);;
            finally_clause None;;
            ret None
      | _ =>
          send_message ws
            (error (Lit "First message must be a valid register request."));;
          emit (Close ws);;
          finally_clause None;;
          ret None
      end
  | Some _ => finally_clause None;; ret None
  end.

(** Then one more frame of the [async for] loop: [true] when the loop
    goes on, [false] when an exception ended it and the [finally] clause
    has run. *)
Definition next_message (ws : conn) (client_uuid : string) (frame : option pyval)
  : M bool :=
  let* r := catch (process_message ws frame (Some client_uuid)) in
  match r with
  | Some _ => ret true
  | None => finally_clause (Some client_uuid);; ret false
  end.

(** At last the connection is lost, and the [finally] clause runs. *)
Definition disconnect (client_uuid : string) : M unit :=
  finally_clause (Some client_uuid).

(** [handle_client] on a connection that delivers [frames] and is then
    lost. *)
Fixpoint message_loop (ws : conn) (client_uuid : string) (frames : list (option pyval))
  : M unit :=
  match frames with
  | [] => disconnect client_uuid
  | f :: rest =>
      let* go_on := next_message ws client_uuid f in
      if go_on then message_loop ws client_uuid rest else ret tt
  end.

Definition handle_client (ws : conn) (frames : list (option pyval)) : M unit :=
  match frames with
  | [] => ret tt
  | first :: rest =>
      let* client_uuid := first_message ws first in
      match client_uuid with
      | Some u => message_loop ws u rest
      | None => ret tt
      end
  end.

(** What the event loop can run next. *)
Inductive op :=
| Connect (ws : conn) (frame : option pyval)
| Frame (ws : conn) (client_uuid : string) (frame : option pyval)
| Disconnect (client_uuid : string)
| PeriodicBroadcast.

Definition run_op (o : op) : M unit :=
  match o with
  | Connect ws frame => first_message ws frame;; ret tt
  | Frame ws u frame => next_message ws u frame;; ret tt
  | Disconnect u => disconnect u
  | PeriodicBroadcast => catch broadcast_available_games;; ret tt
  end.

(** The world after a sequence of such steps. *)
Definition run_ops (os : list op) (w : world) : world :=
  foldl (fun w o => world_of (run_op o w)) w os.

End Routing.

End Server.

(** ** The move validation as the specification orders it *)
Module Validation.
Import Py TicTacToeGame.

(** The typed rejections of the specification. *)
Inductive rejection :=
| NotActiveError
| NotAPlayerError
| OutOfTurnError
| OutOfBoundsError
| CellOccupiedError.

(** The reason [make_move] gives for each of them. *)
Definition reason_of (e : rejection) : string :=
  match e with
  | NotActiveError => "Game is not active"
  | NotAPlayerError => "Player not in game"
  | OutOfTurnError => "Not your turn"
  | OutOfBoundsError => "Invalid position"
  | CellOccupiedError => "Position already occupied"
  end.

(** The five validations in the order of the specification, each with
    the rejection its failure stands for. *)
Definition validations (g : game) (client_id : string) (row col : Z)
  : list (bool * rejection) :=
  [ (bool_decide (status g = active), NotActiveError);
    (bool_decide (is_Some (get_player_piece g client_id)), NotAPlayerError);
    (bool_decide (get_player_piece g client_id = Some (turn g)), OutOfTurnError);
    (bool_decide (0 <= row < 3 ∧ 0 <= col < 3), OutOfBoundsError);
    (bool_decide (at_ (board_ g) row col = None), CellOccupiedError) ].

(** The first validation that fails, if any. *)
Fixpoint first_failure (checks : list (bool * rejection)) : option rejection :=
  match checks with
  | [] => None
  | (ok, e) :: rest => if ok then first_failure rest else Some e
  end.

End Validation.

(** ** Sessions used as concrete inputs *)
Module Scenarios.
Import Py TicTacToeGame.

(** Two players, four moves played, ['X'] about to complete the top row. *)
Definition top_row_game : game :=
  run_calls (init "g" "a" (PStr "A"))
    [AddPlayer2 "b" (PStr "B"); MakeMove "a" 0 0; MakeMove "b" 1 1;
     MakeMove "a" 0 1; MakeMove "b" 2 2].

(** The same session after ['X'] has completed the top row. *)
Definition won_game : game :=
  run_calls (init "g" "a" (PStr "A"))
    [AddPlayer2 "b" (PStr "B"); MakeMove "a" 0 0; MakeMove "b" 1 1;
     MakeMove "a" 0 1; MakeMove "b" 2 2; MakeMove "a" 0 2].

(** Frames as [json.loads] returns them. *)
Definition register_frame (u n : string) : option pyval :=
  Some (PDict [("action", PStr "register"); ("uuid", PStr u); ("name", PStr n)]).

Definition action_frame (a u : string) : option pyval :=
  Some (PDict [("action", PStr a); ("uuid", PStr u)]).

Definition join_frame (u gid : string) : option pyval :=
  Some (PDict [("action", PStr "join_game"); ("uuid", PStr u);
               ("game_id", PStr gid)]).

(** A register request without a name. *)
Definition nameless_register : list (string * pyval) :=
  [("action", PStr "register"); ("uuid", PStr "u1")].

(** No string is read as a number. *)
Definition no_int : string -> option Z := fun _ => None.

(** Random bytes whose first four are zero at every draw: the session
    identifier drawn is ["00000000"] each time. *)
Definition zero_prefix : nat -> N := fun n => N.of_nat n.

(** Random bytes with the first four different at every draw. *)
Definition fresh_prefix : nat -> N := fun n => (N.of_nat n * 2 ^ 96)%N.

(** ["a"] opens a session; ["b"] opens one that draws the same
    identifier and then disconnects. *)
Definition collision_ops : list Server.op :=
  [Server.Connect 1%nat (register_frame "a" "A");
   Server.Frame 1%nat "a" (action_frame "create_game" "a");
   Server.Connect 2%nat (register_frame "b" "B");
   Server.Frame 2%nat "b" (action_frame "create_game" "b");
   Server.Disconnect "b"].

Definition after_collision : Server.world :=
  Server.run_ops no_int collision_ops (Server.start zero_prefix).

(** ["a"] and ["b"] are registered and in the lobby. *)
Definition lobby_ops : list Server.op :=
  [Server.Connect 1%nat (register_frame "a" "A");
   Server.Connect 2%nat (register_frame "b" "B")].

Definition two_in_lobby : Server.world :=
  Server.run_ops no_int lobby_ops (Server.start fresh_prefix).

(** ["a"] has opened a session and ["b"] has joined it. *)
Definition playing_ops : list Server.op :=
  lobby_ops ++
  [Server.Frame 1%nat "a" (action_frame "create_game" "a");
   Server.Frame 2%nat "b" (join_frame "b" "00000000")].

Definition two_playing : Server.world :=
  Server.run_ops no_int playing_ops (Server.start fresh_prefix).

(** Connection 1 opens as ["a"] and then registers a second
    identifier, ["u1"], with a later frame; ["b"] opens a session on
    connection 2 and ["u1"] joins it from connection 1. *)
Definition second_identity_ops : list Server.op :=
  [Server.Connect 1%nat (register_frame "a" "A");
   Server.Frame 1%nat "a" (register_frame "u1" "U");
   Server.Connect 2%nat (register_frame "b" "B");
   Server.Frame 2%nat "b" (action_frame "create_game" "b");
   Server.Frame 1%nat "a" (join_frame "u1" "00000000")].

Definition second_identity_playing : Server.world :=
  Server.run_ops no_int second_identity_ops (Server.start fresh_prefix).

End Scenarios.

(** ** What the handlers leave behind, in closed form *)
Module Observations.
Import Py TicTacToeGame Server.

(** The events of [send_message_to_client]. *)
Definition ev_send_to (c : gmap string client_info) (u : string) (m : message)
  : list event :=
  Acquire :: Release ::
    match c !! u with
    | Some info => [Send (websocket info) m]
    | None => []
    end.

Definition ev_send_all (c : gmap string client_info) (us : list string) (m : message)
  : list event :=
  us ≫= (fun u => ev_send_to c u m).

Definition ev_broadcast_available (c : gmap string client_info)
    (a : gmap string open_game) : list event :=
  [Acquire; Release; Acquire; Release]
    ++ ev_send_all c (lobby_clients c) (available_games_update (open_games a)).

Definition ev_broadcast_game (c : gmap string client_info) (g : option game)
    (m : message) : list event :=
  Acquire :: Release ::
    match g with
    | Some g => ev_send_all c (player_uuids g) m
    | None => []
    end.

(** *** [handle_register] *)

Definition invalid_register (client_uuid name : pyval) : bool :=
  negb (truthy client_uuid) || negb (is_str client_uuid) || negb (truthy name).

Definition invalid_register_reply : message :=
  error (Lit "Invalid register request: missing UUID or name.").

(** The record a valid registration leaves under the identifier. *)
Definition registered_info (w : world) (ws : conn) (u : string) (name : pyval)
  : client_info :=
  {| client_name := name;
     websocket := ws;
     current_game :=
       match CLIENTS w !! u with
       | Some info =>
           match current_game info with
           | Some gid =>
               if truthy (PStr gid) then
                 match GAMES w !! gid with
                 | Some _ => Some gid
                 | None => None
                 end
               else None
           | None => None
           end
       | None => None
       end;
     client_status := "connected" |}.

(** *** [cleanup_game] and [cleanup_client] *)

(** The registry after the loop of [cleanup_game] over the players. *)
Definition reset_players (us : list string) (c : gmap string client_info)
  : gmap string client_info :=
  foldl (fun c u => set_current_game u None c) c us.

(** The shared state after [cleanup_game] has found the session. *)
Definition game_removed (gid : string) (g : game) (w : world) : world :=
  set_AVAILABLE_GAMES (delete gid (AVAILABLE_GAMES w))
    (set_GAMES (delete gid (GAMES w))
       (set_CLIENTS (reset_players (player_uuids g) (CLIENTS w)) w)).

(** The shared state after the first block of [cleanup_client], for a
    client bound to the live session [g]. *)
Definition marked_finished (u gid : string) (g : game) (w : world) : world :=
  set_CLIENTS (delete u (CLIENTS w))
    (set_GAMES (<[gid := set_status finished g]> (GAMES w)) w).

(** The notification [cleanup_client] sends to the other participant. *)
Definition opponent_left (gid : string) (leaving_player_name : pyval) : message :=
  opponent_disconnected gid (Fmt "" leaving_player_name " disconnected. Game ended.").

(** *** The session identifier [gid] is not advertised, and no later draw
    of random bytes yields it. *)
Definition not_advertised (gid : string) (w : world) : Prop :=
  AVAILABLE_GAMES w !! gid = None /\
  forall n, (draws w <= n)%nat -> Uuid.new_game_id (urandom w n) <> gid.

(** *** Invariants of the shared state

    A coroutine preserves [I] when the world it leaves behind, however
    it ends, satisfies [I] if the world it started in did. *)
Definition preserves {A} (I : world -> Prop) (m : M A) : Prop :=
  forall w, I w -> I (world_of (m w)).

(** [I] does not look at the lock or at the events. *)
Definition blind (I : world -> Prop) : Prop :=
  forall w l t,
    I w <->
    I {| CLIENTS := CLIENTS w; GAMES := GAMES w;
         AVAILABLE_GAMES := AVAILABLE_GAMES w; locked := l; trace := t;
         urandom := urandom w; draws := draws w |}.

End Observations.

(** ** How many session identifiers there are *)
Module IdSpace.
Local Open Scope N_scope.

(** The first four of the sixteen random bytes, as a number. *)
Definition top32 (r : N) : N := (r mod 2 ^ 128) / 2 ^ 96.

(** The identifiers take at least [2 ^ bits] different values: there is
    a family of that many draws whose identifiers are pairwise
    different. *)
Definition distinct_ids (bits : N) : Prop :=
  exists draw_of : N -> N,
    forall i j, i < 2 ^ bits -> j < 2 ^ bits ->
      Uuid.new_game_id (draw_of i) = Uuid.new_game_id (draw_of j) -> i = j.

End IdSpace.

(** ** Measures of a session *)
Module SessionMeasures.
Import Py TicTacToeGame.

(** The coordinates of the nine cells, row by row. *)
Definition coordinates : list (Z * Z) :=
  [(0, 0); (0, 1); (0, 2); (1, 0); (1, 1); (1, 2); (2, 0); (2, 1); (2, 2)].

(** How many cells satisfy [P]. *)
Definition count (P : cell -> bool) (b : board) : nat :=
  foldr (fun '(i, j) n => ((if P (at_ b i j) then 1 else 0) + n)%nat) 0%nat
    coordinates.

(** How many cells hold the mark [m]. *)
Definition marks (m : piece) (b : board) : nat :=
  count (fun c => bool_decide (c = Some m)) b.

(** How many cells are not empty. *)
Definition filled (b : board) : nat :=
  count (fun c => bool_decide (c ≠ None)) b.

(** How many of the calls [cs], made one after the other from [g], are
    moves that [make_move] accepts. *)
Fixpoint moves_accepted (g : game) (cs : list call) : nat :=
  match cs with
  | [] => 0%nat
  | c :: rest =>
      (match c with
       | MakeMove u y x => if success (make_move g u y x).1 then 1 else 0
       | AddPlayer2 _ _ => 0
       end + moves_accepted (run_call g c) rest)%nat
  end.

(** How many of the calls [cs] are joins that [add_player2] accepts. *)
Fixpoint joins_accepted (g : game) (cs : list call) : nat :=
  match cs with
  | [] => 0%nat
  | c :: rest =>
      (match c with
       | AddPlayer2 u n => if (add_player2 g u n).1 then 1 else 0
       | MakeMove _ _ _ => 0
       end + joins_accepted (run_call g c) rest)%nat
  end.

(** What holds of every session the class produces, by status. *)
Definition consistent (g : game) : Prop :=
  players_X g <> None /\
  (status g = waiting ->
     players_O g = None /\ board_ g = empty_board /\ turn g = X /\
     winner g = None) /\
  (status g <> waiting -> players_O g <> None) /\
  (status g = active ->
     check_winner (board_ g) = None /\ all_filled (board_ g) = false /\
     winner g = None /\
     marks X (board_ g)
     = (marks O (board_ g) + match turn g with X => 0 | O => 1 end)%nat) /\
  (status g = finished ->
     winner g = check_winner (board_ g) /\
     (winner g = None -> all_filled (board_ g) = true) /\
     (marks O (board_ g) <= marks X (board_ g) <= marks O (board_ g) + 1)%nat).

End SessionMeasures.

(** ** The lock, seen from outside a handler *)
Module LockDiscipline.
Import Py TicTacToeGame Server.

(** A coroutine that comes to an end leaves [STATE_LOCK] as it found
    it; one that does not leaves it held. *)
Definition keeps_lock {A} (m : M A) : Prop :=
  forall w,
    match m w with
    | Done _ w' | Raised _ w' => locked w' = locked w
    | Blocked w' => locked w' = true
    end.

(** Started with the lock free, the coroutine comes to an end. *)
Definition ends {A} (m : M A) : Prop :=
  forall w, locked w = false -> finished_run (m w) = true.

(** Code that neither waits nor touches the lock, as the body of an
    [async with STATE_LOCK] block should be. *)
Definition plain {A} (m : M A) : Prop :=
  forall w, finished_run (m w) = true /\ locked (world_of (m w)) = locked w.

(** Started with the lock held, the coroutine waits for it at once. *)
Definition waits {A} (m : M A) : Prop :=
  forall w, locked w = true -> m w = Blocked w.

(** Started with the lock held, the coroutine changes nothing: the
    world it leaves differs from the one it found by events only. *)
Definition frozen {A} (m : M A) : Prop :=
  forall w, locked w = true -> exists evs, world_of (m w) = log evs w.

(** Whether every one of the steps [os], run one after the other from
    [w], comes to an end. *)
Fixpoint all_end (int_of_str : string -> option Z) (os : list op) (w : world)
  : bool :=
  match os with
  | [] => true
  | o :: rest =>
      finished_run (run_op int_of_str o w)
      && all_end int_of_str rest (world_of (run_op int_of_str o w))
  end.

(** The replies that are sent by [send_message_to_client] from inside
    an [async with STATE_LOCK] block and from nowhere else: the two
    refusals of [handle_create_game] and [handle_join_game] and every
    [game_error]. *)
Definition sent_under_lock (m : message) : bool :=
  match m with
  | error (Lit s) =>
      String.eqb s "You are already in a game."
      || String.eqb s "Failed to join game. Game might be full."
  | game_error _ _ => true
  | _ => false
  end.

(** An event other than the sending of such a reply. *)
Definition quiet_event (ev : event) : Prop :=
  match ev with
  | Send _ m => sent_under_lock m = false
  | _ => True
  end.

(** No such reply has been sent so far. *)
Definition never_sent (w : world) : Prop := Forall quiet_event (trace w).

(** The coroutine sends no such reply, whatever the state of the lock,
    or at least when started with the lock held. *)
Definition silent {A} (m : M A) : Prop :=
  forall w, never_sent w -> never_sent (world_of (m w)).

Definition muted {A} (m : M A) : Prop :=
  forall w, locked w = true -> never_sent w -> never_sent (world_of (m w)).

End LockDiscipline.

(** ** What opening, joining and moving leave behind, in closed form *)
Module Outcomes.
Import Py TicTacToeGame Server Observations.

(** A record of the registry with its ['current_game'] replaced. *)
Definition with_game (v : option string) (info : client_info) : client_info :=
  {| client_name := client_name info; websocket := websocket info;
     current_game := v; client_status := client_status info |}.

(** The identifier [handle_create_game] draws next. *)
Definition next_game_id (w : world) : string :=
  Uuid.new_game_id (urandom w (draws w)).

(** The shared state after [handle_create_game] for the lobby client
    [u] whose record is [info]. *)
Definition game_opened (u : string) (info : client_info) (w : world) : world :=
  let gid := next_game_id w in
  set_CLIENTS (set_current_game u (Some gid) (CLIENTS w))
    (set_AVAILABLE_GAMES
       (<[gid := {| open_game_id := gid; player1_name := client_name info;
                    player1_uuid := u |}]> (AVAILABLE_GAMES w))
       (set_GAMES (<[gid := init gid u (client_name info)]> (GAMES w))
          (set_draws (S (draws w)) w))).

(** The shared state after [handle_join_game] has seated [u] in the
    session [gid], now [g']. *)
Definition game_joined (u gid : string) (g' : game) (w : world) : world :=
  set_AVAILABLE_GAMES (delete gid (AVAILABLE_GAMES w))
    (set_CLIENTS (set_current_game u (Some gid) (CLIENTS w))
       (set_GAMES (<[gid := g']> (GAMES w)) w)).

(** An advertised session can be joined, and the entry names it and its
    creator. *)
Definition advertised_joinable (w : world) : Prop :=
  forall gid e, AVAILABLE_GAMES w !! gid = Some e ->
    exists g,
      GAMES w !! gid = Some g /\ players_O g = None /\ status g = waiting /\
      game_id g = gid /\ open_game_id e = gid /\
      players_X g = Some {| uuid := player1_uuid e; name := player1_name e |}.

End Outcomes.

(** ** The shape of a session identifier *)
Module IdShape.

(** The characters [str] of a UUID is made of, dashes apart. *)
Definition hex_digits : list ascii :=
  ["0"; "1"; "2"; "3"; "4"; "5"; "6"; "7"; "8"; "9";
   "a"; "b"; "c"; "d"; "e"; "f"]%char.

(** Every character of [s] is a lower-case hexadecimal digit. *)
Definition all_hex (s : string) : Prop :=
  Forall (fun c => c ∈ hex_digits) (list_ascii_of_string s).

End IdShape.

(** * Properties of the game session *)
Module SessionProps.
Import Py TicTacToeGame Validation Scenarios.


Lemma make_move_rejected g u y x e :
  first_failure (validations g u y x) = Some e ->
  make_move g u y x = (Rejected (reason_of e), g).
Proof.
  unfold validations, make_move. cbn [first_failure].
  destruct (bool_decide (status g = active)); cbn [negb];
    [|intros [= <-]; reflexivity].
  destruct (get_player_piece g u) as [p|]; cycle 1.
  { rewrite bool_decide_eq_false_2 by (intros [? ?]; discriminate).
    intros [= <-]; reflexivity. }
  rewrite bool_decide_eq_true_2 by eauto.
  rewrite (bool_decide_ext (Some p = Some (turn g)) (p = turn g)) by (split; congruence).
  destruct (bool_decide (p = turn g)); cbn [negb]; [|intros [= <-]; reflexivity].
  rewrite (bool_decide_ext (0 <= y < 3 ∧ 0 <= x < 3)
             (((0 <=? y) && (y <? 3) && ((0 <=? x) && (x <? 3))) = true)).
  2:{ rewrite !andb_true_iff, !Z.leb_le, !Z.ltb_lt. tauto. }
  destruct ((0 <=? y) && (y <? 3) && ((0 <=? x) && (x <? 3))); cbn [negb].
  2:{ rewrite bool_decide_eq_false_2 by discriminate. intros [= <-]; reflexivity. }
  rewrite bool_decide_eq_true_2 by reflexivity.
  destruct (bool_decide (at_ (board_ g) y x = None)); cbn [negb];
    [discriminate|intros [= <-]; reflexivity].
Qed.

Lemma make_move_accepted g u y x :
  first_failure (validations g u y x) = None ->
  success (make_move g u y x).1 = true /\
  board_ (make_move g u y x).2 = put (board_ g) y x (Some (turn g)).
Proof.
  unfold validations, make_move. cbn [first_failure].
  destruct (bool_decide (status g = active)); cbn [negb]; [|discriminate].
  destruct (get_player_piece g u) as [p|]; cycle 1.
  { rewrite bool_decide_eq_false_2 by (intros [? ?]; discriminate). discriminate. }
  rewrite bool_decide_eq_true_2 by eauto.
  rewrite (bool_decide_ext (Some p = Some (turn g)) (p = turn g)) by (split; congruence).
  destruct (bool_decide_reflect (p = turn g)) as [->|]; cbn [negb]; [|discriminate].
  rewrite (bool_decide_ext (0 <= y < 3 ∧ 0 <= x < 3)
             (((0 <=? y) && (y <? 3) && ((0 <=? x) && (x <? 3))) = true)).
  2:{ rewrite !andb_true_iff, !Z.leb_le, !Z.ltb_lt. tauto. }
  destruct ((0 <=? y) && (y <? 3) && ((0 <=? x) && (x <? 3))); cbn [negb].
  2:{ rewrite bool_decide_eq_false_2 by discriminate. discriminate. }
  rewrite bool_decide_eq_true_2 by reflexivity.
  destruct (bool_decide (at_ (board_ g) y x = None)); cbn [negb]; [|discriminate].
  intros _. cbv zeta.
  destruct (check_winner _); [split; reflexivity|].
  destruct (all_filled _); split; reflexivity.
Qed.




Lemma line_owner_same3 (b : board) i1 j1 i2 j2 i3 j3 :
  line_owner b [(i1, j1); (i2, j2); (i3, j3)]
  = if same3 (at_ b i1 j1) (at_ b i2 j2) (at_ b i3 j3) then at_ b i1 j1 else None.
Proof.
  unfold line_owner, occupies, same3. cbn [forallb].
  destruct (at_ b i1 j1) as [[|]|], (at_ b i2 j2) as [[|]|],
    (at_ b i3 j3) as [[|]|]; reflexivity.
Qed.

Lemma same3_mark a b c : same3 a b c = true -> exists m, a = Some m.
Proof.
  destruct a as [m|]; [eauto|].
  destruct b, c; discriminate.
Qed.

Ltac split_line :=
  match goal with
  | |- context [same3 ?a ?b ?c] =>
      let E := fresh "E" in
      destruct (same3 a b c) eqn:E;
      [apply same3_mark in E as [? E]; rewrite E|]
  end.

Lemma check_winner_rule b : check_winner b = rule_winner b.
Proof.
  unfold rule_winner, rule_lines, check_winner. cbn [first_owner check_rows check_cols].
  rewrite !line_owner_same3.
  repeat split_line; reflexivity.
Qed.

Lemma all_filled_rule b : all_filled b = rule_full b.
Proof.
  unfold all_filled, rule_full. cbn [forallb].
  rewrite !andb_true_r, !andb_assoc. reflexivity.
Qed.

Lemma first_owner_Some b ls m :
  first_owner b ls = Some m ->
  exists l, l ∈ ls /\ occupies b m l = true.
Proof.
  induction ls as [|l ls IH]; cbn; [discriminate|].
  destruct (line_owner b l) as [m'|] eqn:E.
  - intros [= ->]. exists l. split; [left|].
    unfold line_owner in E.
    destruct (occupies b X l) eqn:EX; [by inversion E; subst|].
    destruct (occupies b O l) eqn:EO; [by inversion E; subst|discriminate].
  - intros H. destruct (IH H) as (l' & ? & ?). exists l'. split; [by right|done].
Qed.

Lemma first_owner_None b ls :
  first_owner b ls = None <->
  forall l m, l ∈ ls -> occupies b m l = false.
Proof.
  induction ls as [|l ls IH]; cbn.
  - split; [|done]. intros _ l m H. by apply elem_of_nil in H.
  - unfold line_owner at 1.
    destruct (occupies b X l) eqn:EX.
    { split; [discriminate|]. intros H. rewrite (H l X) in EX; [done|left]. }
    destruct (occupies b O l) eqn:EO.
    { split; [discriminate|]. intros H. rewrite (H l O) in EO; [done|left]. }
    rewrite IH. split.
    + intros H l' m [->|Hin]%elem_of_cons; [by destruct m|by apply H].
    + intros H l' m Hin. apply H. by right.
Qed.

Lemma no_owner_forallb b ls :
  forallb (fun l => bool_decide (line_owner b l = None)) ls = true <->
  first_owner b ls = None.
Proof.
  induction ls as [|l ls IH]; cbn; [done|].
  rewrite andb_true_iff, bool_decide_eq_true, IH.
  destruct (line_owner b l); [split; [intros [? _]|]; done|tauto].
Qed.

(** Claim C2.  The verdict of a successful move is the one of the rules
    applied to the board the move leaves: the winner is the mark of the
    first line, rows, then columns, then the diagonals, that one mark
    occupies entirely, which is what [check_winner] computes on every
    board; a winner is declared only for a mark that occupies a line, no
    winner exactly when no mark occupies any line, and a draw exactly
    when all nine cells are filled and no mark occupies a line. *)
Theorem verdict_follows_rules g client_id row col b next go w tie g' :
  make_move g client_id row col = (Moved b next go w tie, g') ->
  b = board_ g' /\
  check_winner b = rule_winner b /\
  w = rule_winner b /\
  tie = rule_draw b /\
  go = (bool_decide (is_Some w) || tie) /\
  (forall m, w = Some m -> exists l, l ∈ rule_lines /\ occupies b m l = true) /\
  (w = None <-> forall l m, l ∈ rule_lines -> occupies b m l = false) /\
  (tie = true <->
     rule_full b = true /\ forall l m, l ∈ rule_lines -> occupies b m l = false).
Proof.
  intros H.
  assert (b = board_ g' /\ w = check_winner b /\
          tie = (rule_full b && bool_decide (check_winner b = None)) /\
          go = (bool_decide (is_Some w) || tie)) as (Hb & Hw & Ht & Hg).
  { revert H. unfold make_move.
    repeat (match goal with |- context [if ?c then _ else _] => destruct c end;
            [discriminate|]).
    all: try discriminate.
    destruct (get_player_piece g client_id) as [p|]; [|discriminate].
    repeat (match goal with |- context [if ?c then _ else _] => destruct c end;
            [discriminate|]).
    cbv zeta. rewrite all_filled_rule.
    destruct (check_winner _) as [w'|] eqn:Ew.
    - intros [= <- <- <- <- <- <-].
      rewrite Ew, andb_false_r. repeat split; done.
    - destruct (rule_full _) eqn:Ef; intros [= <- <- <- <- <- <-];
        rewrite Ew, Ef; done. }
  rewrite check_winner_rule in Hw, Ht.
  split; [done|]. split; [apply check_winner_rule|]. split; [done|].
  assert (Hd : tie = rule_draw b).
  { rewrite Ht. unfold rule_draw. f_equal.
    apply eq_true_iff_eq. rewrite bool_decide_eq_true, no_owner_forallb. done. }
  split; [done|]. split; [done|].
  split; [intros m Hm; apply first_owner_Some; unfold rule_winner in Hw; congruence|].
  split.
  - rewrite Hw. apply first_owner_None.
  - rewrite Ht, andb_true_iff, bool_decide_eq_true.
    unfold rule_winner. rewrite first_owner_None. done.
Qed.



(** What a successful move does to the session. *)
Lemma make_move_Moved g u y x b next go w tie g' :
  make_move g u y x = (Moved b next go w tie, g') ->
  status g = active /\ get_player_piece g u = Some (turn g) /\
  players_X g' = players_X g /\ players_O g' = players_O g /\
  game_id g' = game_id g /\
  (go = false -> turn g' = other (turn g) /\ next = Some (other (turn g)) /\
                 status g' = active) /\
  (go = true -> turn g' = turn g /\ next = None /\ status g' = finished).
Proof.
  unfold make_move.
  destruct (bool_decide_reflect (status g = active)) as [Hs|]; [|discriminate].
  cbn [negb].
  destruct (get_player_piece g u) as [p|]; [|discriminate].
  destruct (bool_decide_reflect (p = turn g)) as [->|]; [|discriminate].
  cbn [negb].
  repeat (match goal with |- context [if ?c then _ else _] => destruct c end;
          [discriminate|]).
  cbv zeta.
  destruct (check_winner _); [|destruct (all_filled _)];
    intros [= <- <- <- <- <- <-]; repeat split; try done.
Qed.

Lemma make_move_not_active g u y x :
  status g <> active -> make_move g u y x = (Rejected "Game is not active", g).
Proof.
  intros H. unfold make_move. by rewrite bool_decide_eq_false_2.
Qed.

Lemma make_move_success_active g u y x :
  success (make_move g u y x).1 = true -> status g = active.
Proof.
  destruct (decide (status g = active)) as [|H]; [done|].
  by rewrite make_move_not_active.
Qed.


Lemma reachable_run_calls cs : forall g, reachable g -> reachable (run_calls g cs).
Proof.
  induction cs as [|c cs IH]; intros g Hg; [done|].
  apply IH. destruct c; constructor; done.
Qed.

(** Claim C3 as stated fails: in a session the class has produced, the
    move of ['X'] that completes the top row succeeds and leaves the turn
    indicator on ['X']. *)
Lemma winning_move_keeps_turn :
  ~ (forall g client_id row col,
       reachable g ->
       success (make_move g client_id row col).1 = true ->
       turn (make_move g client_id row col).2 = other (turn g)).
Proof.
  intros H.
  assert (Hr : reachable top_row_game)
    by (unfold top_row_game; apply reachable_run_calls, reach_init).
  specialize (H top_row_game "a" 0 2 Hr).
  vm_compute in H. specialize (H eq_refl). discriminate.
Qed.

(** Claim C3, amended.  A successful move is made by the mark whose turn
    it is.  If it does not end the game, the turn indicator passes to
    the other mark; if it ends the game, the indicator stays, the
    session is finished and every later move is rejected.  So the next
    successful move, if there is one, is made by the other mark: no mark
    moves twice in a row. *)
Theorem turn_alternates_until_game_over g client_id row col b next go w tie g' :
  make_move g client_id row col = (Moved b next go w tie, g') ->
  get_player_piece g client_id = Some (turn g) /\
  (go = false ->
     turn g' = other (turn g) /\ next = Some (other (turn g)) /\ status g' = active) /\
  (go = true ->
     turn g' = turn g /\ next = None /\ status g' = finished /\
     forall c r c', make_move g' c r c' = (Rejected "Game is not active", g')) /\
  (forall c2 r2 c2',
     success (make_move g' c2 r2 c2').1 = true ->
     get_player_piece g' c2 = Some (other (turn g)) /\
     get_player_piece g' c2 <> get_player_piece g client_id).
Proof.
  intros H. apply make_move_Moved in H as (Hs & Hp & _ & _ & _ & Hf & Ht).
  split; [done|]. split; [done|]. split.
  - intros Hgo. destruct (Ht Hgo) as (? & ? & Hfin). repeat split; try done.
    intros. apply make_move_not_active. by rewrite Hfin.
  - intros c2 r2 c2' Hok.
    pose proof (make_move_success_active _ _ _ _ Hok) as Hact.
    destruct go.
    { destruct (Ht eq_refl) as (_ & _ & Hfin). congruence. }
    destruct (Hf eq_refl) as (Hturn & _ & _).
    destruct (make_move g' c2 r2 c2') as [r g2] eqn:E.
    destruct r; [discriminate|].
    apply make_move_Moved in E as (_ & Hp2 & _).
    rewrite Hp2, Hturn, Hp. split; [done|]. by destruct (turn g).
Qed.


Lemma top_row_move :
  make_move top_row_game "a" 0 2
  = (Moved (Some X, Some X, Some X, (None, Some O, None), (None, None, Some O))
       None true (Some X) false, won_game).
Proof. vm_compute. reflexivity. Qed.

(** The amended claim at the move that wins the top row. *)
Lemma turn_alternates_witness :
  get_player_piece top_row_game "a" = Some (turn top_row_game) /\
  turn won_game = turn top_row_game.
Proof.
  pose proof (turn_alternates_until_game_over _ _ _ _ _ _ _ _ _ _ top_row_move)
    as (Hp & _ & Hover & _).
  split; [exact Hp|]. apply (Hover eq_refl).
Defined.

(** Once a session has left ['waiting'], its second slot is filled. *)
Lemma reachable_started g :
  reachable g -> status g <> waiting -> players_O g <> None.
Proof.
  induction 1 as [gid u n|g u n Hg IH|g u y x Hg IH]; cbn.
  - done.
  - unfold add_player2. destruct (players_O g) eqn:E; cbn; [|done].
    intros. by rewrite E.
  - destruct (make_move g u y x) as [r g'] eqn:E. cbn.
    destruct r as [reason|b nt go w tie].
    + assert (g' = g) as ->; [|done].
      revert E. unfold make_move.
      repeat (match goal with
              | |- context [if ?c then _ else _] => destruct c
              | |- context [match ?c with Some _ => _ | None => _ end] => destruct c
              end; try discriminate; try congruence).
    + apply make_move_Moved in E as (Hs & _ & _ & HO & _).
      intros _. rewrite HO. apply IH. by rewrite Hs.
Qed.

Lemma run_call_finished g c :
  status g = finished -> players_O g <> None -> run_call g c = g.
Proof.
  intros Hs HO. destruct c as [u n|u y x]; cbn.
  - unfold add_player2. by destruct (players_O g).
  - rewrite make_move_not_active; [done|]. by rewrite Hs.
Qed.

(** Claim C4.  Once a session the class has produced is finished, no
    call of [add_player2] or [make_move] changes it: its status stays
    ['finished'], and every [make_move] is rejected because the game is
    not active. *)
Theorem finished_is_final g cs :
  reachable g -> status g = finished ->
  run_calls g cs = g /\
  status (run_calls g cs) = finished /\
  forall client_id row col,
    make_move (run_calls g cs) client_id row col
    = (Rejected "Game is not active", run_calls g cs).
Proof.
  intros Hr Hs.
  assert (HO : players_O g <> None) by (apply reachable_started; [done|by rewrite Hs]).
  assert (E : run_calls g cs = g).
  { induction cs as [|c cs IH]; [done|].
    unfold run_calls. cbn. rewrite run_call_finished; done. }
  rewrite E. split; [done|]. split; [done|].
  intros. apply make_move_not_active. by rewrite Hs.
Qed.

(** The claim at the session won by ['X'], followed by a join and two
    moves. *)
Lemma finished_is_final_witness :
  status won_game = finished /\
  status (run_calls won_game
            [AddPlayer2 "c" (PStr "C"); MakeMove "b" 1 0; MakeMove "a" 2 0]) = finished.
Proof.
  split; [vm_compute; reflexivity|].
  apply (finished_is_final won_game).
  - unfold won_game. apply reachable_run_calls, reach_init.
  - vm_compute. reflexivity.
Defined.


(** The verdict of the move that wins the top row. *)
Lemma verdict_follows_rules_witness :
  check_winner (board_ won_game) = rule_winner (board_ won_game) /\
  Some X = rule_winner (board_ won_game) /\
  false = rule_draw (board_ won_game).
Proof.
  pose proof (verdict_follows_rules _ _ _ _ _ _ _ _ _ _ top_row_move)
    as (Hb & Hc & Hw & Ht & _).
  rewrite <- Hb. auto.
Defined.

End SessionProps.

(** * Properties of the coordinator *)
Module ServerProps.
Import Py TicTacToeGame Server Observations.
Local Open Scope coro_scope.

Lemma log_log e1 e2 w : log e2 (log e1 w) = log (e1 ++ e2) w.
Proof. destruct w. unfold log. cbn. by rewrite app_assoc. Qed.

Lemma log_nil w : log [] w = w.
Proof. destruct w. unfold log. cbn. by rewrite app_nil_r. Qed.

Ltac unmonad :=
  repeat (progress (
    unfold send_message, emit, bind, ret, read, update, raise, draw, with_lock,
      set_locked, set_CLIENTS, set_GAMES, set_AVAILABLE_GAMES, set_draws, log in *;
    cbn in *)).

Ltac same_world :=
  rewrite <- ?app_assoc; cbn; rewrite ?app_nil_r; reflexivity.


Lemma send_message_to_client_run u m w :
  locked w = false ->
  send_message_to_client u m w = Done tt (log (ev_send_to (CLIENTS w) u m) w).
Proof.
  destruct w as [C G A l t rnd d]. cbn. intros ->.
  unfold send_message_to_client, ev_send_to. unmonad.
  destruct (C !! u); unmonad; same_world.
Qed.

Lemma send_message_to_client_blocked u m w :
  locked w = true -> send_message_to_client u m w = Blocked w.
Proof.
  intros H. unfold send_message_to_client, bind, with_lock. by rewrite H.
Qed.


Lemma for_each_send_run us m w :
  locked w = false ->
  for_each us (fun u => send_message_to_client u m) w
  = Done tt (log (ev_send_all (CLIENTS w) us m) w).
Proof.
  revert w. induction us as [|u us IH]; intros w Hl; cbn.
  - unfold ret. by rewrite log_nil.
  - unfold bind. rewrite send_message_to_client_run by done.
    rewrite IH by (by destruct w). rewrite log_log. by destruct w.
Qed.

Lemma get_available_games_list_run w :
  locked w = false ->
  get_available_games_list w
  = Done (open_games (AVAILABLE_GAMES w)) (log [Acquire; Release] w).
Proof.
  destruct w as [C G A l t rnd d]. cbn. intros ->.
  unfold get_available_games_list. unmonad. same_world.
Qed.


Lemma broadcast_available_games_run w :
  locked w = false ->
  broadcast_available_games w
  = Done tt (log (ev_broadcast_available (CLIENTS w) (AVAILABLE_GAMES w)) w).
Proof.
  intros Hl. unfold broadcast_available_games, bind.
  rewrite get_available_games_list_run by done.
  destruct w as [C G A l t rnd d]. cbn in Hl. subst l. unmonad.
  rewrite for_each_send_run by done. cbn.
  unfold ev_broadcast_available, log. cbn. same_world.
Qed.


Lemma broadcast_game_message_run gid m w :
  locked w = false ->
  broadcast_game_message gid m w
  = Done tt (log (ev_broadcast_game (CLIENTS w) (GAMES w !! gid) m) w).
Proof.
  destruct w as [C G A l t rnd d]. cbn. intros ->.
  unfold broadcast_game_message, ev_broadcast_game. unmonad.
  destruct (G !! gid); cbn.
  - rewrite for_each_send_run by done. unfold log. cbn. same_world.
  - unfold ret. same_world.
Qed.




Lemma handle_register_invalid ws cu name w :
  invalid_register cu name = true ->
  handle_register ws cu name w = Done false (log [Send ws invalid_register_reply] w).
Proof.
  unfold invalid_register, handle_register. intros H.
  destruct cu as [| | |u| | |]; try (unmonad; reflexivity).
  cbn [is_str negb] in H. rewrite orb_false_r in H. rewrite H.
  unmonad. reflexivity.
Qed.


Lemma handle_register_valid ws u name w :
  locked w = false ->
  truthy (PStr u) = true -> truthy name = true ->
  exists evs,
    handle_register ws (PStr u) name w
    = Done true (log evs (set_CLIENTS (<[u := registered_info w ws u name]> (CLIENTS w)) w))
    /\ Send ws (registered u name) ∈ evs.
Proof.
  destruct w as [C G A l t rnd d]. cbn. intros -> Hu Hn.
  unfold handle_register, registered_info. rewrite Hu, Hn. cbn [negb orb].
  unmonad.
  destruct (C !! u) as [info|] eqn:E; cbn.
  - rewrite lookup_insert_eq. cbn.
    destruct (current_game info) as [gid|] eqn:Eg; cbn.
    + destruct (negb (gid =? "")%string) eqn:Et; cbn.
      * destruct (G !! gid) as [g|] eqn:EG; cbn.
        -- eexists. split; [rewrite <- ?app_assoc; cbn; reflexivity|]. set_solver.
        -- unfold set_current_game. rewrite lookup_insert_eq. cbn.
           rewrite insert_insert_eq.
           unfold get_available_games_list. unmonad.
           eexists. split; [rewrite <- ?app_assoc; cbn; reflexivity|]. set_solver.
      * unfold set_current_game. rewrite lookup_insert_eq. cbn.
        rewrite insert_insert_eq.
        unfold get_available_games_list. unmonad.
        eexists. split; [rewrite <- ?app_assoc; cbn; reflexivity|]. set_solver.
    + unfold set_current_game. rewrite lookup_insert_eq. cbn.
      rewrite insert_insert_eq.
      unfold get_available_games_list. unmonad.
      eexists. split; [rewrite <- ?app_assoc; cbn; reflexivity|]. set_solver.
  - rewrite lookup_insert_eq. cbn.
    unfold set_current_game. rewrite lookup_insert_eq. cbn.
    rewrite insert_insert_eq.
    unfold get_available_games_list. unmonad.
    eexists. split; [rewrite <- ?app_assoc; cbn; reflexivity|]. set_solver.
Qed.



Lemma invalid_register_false cu name :
  invalid_register cu name = false ->
  exists u, cu = PStr u /\ u <> "" /\ truthy (PStr u) = true /\ truthy name = true.
Proof.
  unfold invalid_register. rewrite !orb_false_iff, !negb_false_iff.
  intros [[Hu Hs] Hn]. destruct cu as [| | |u| | |]; try discriminate.
  exists u. repeat split; try done. intros ->. discriminate.
Qed.

Lemma process_message_register int ws message cuid u w :
  locked w = false ->
  is_action (get "action" PNone message) "register" = true ->
  get "uuid" PNone message = PStr u -> u <> "" ->
  process_message int ws (Some (PDict message)) cuid w
  = (handle_register ws (PStr u) (get "name" (PStr "Anonymous") message);; ret tt)
      (log [Acquire; Release] w).
Proof.
  destruct w as [C G A l t rnd d]. cbn. intros -> Ha Hu Hne.
  unfold process_message. rewrite Ha, Hu.
  apply String.eqb_neq in Hne. cbn. rewrite !Hne. cbn.
  unfold bind at 1. unfold with_lock, lookup_key. cbn.
  unfold set_locked, log. cbn. rewrite ?Hne. cbn.
  rewrite <- app_assoc. reflexivity.
Qed.

Lemma get_absent k default message :
  (forall v, (k, v) ∉ message) -> get k default message = default.
Proof.
  induction message as [|[k' v] rest IH]; intros H; cbn; [done|].
  destruct (String.eqb_spec k' k) as [->|].
  - exfalso. apply (H v). left.
  - apply IH. intros v' Hin. apply (H v'). by right.
Qed.

(** Claim C8 as stated fails: on the connection of ["a"], a register
    request for ["u1"] that carries no name is not rejected; it creates
    the record of ["u1"]. *)
Lemma nameless_register_accepted :
  ~ (forall int ws message cuid w,
       locked w = false ->
       is_action (get "action" PNone message) "register" = true ->
       truthy (get "uuid" PNone message) = false
         \/ is_str (get "uuid" PNone message) = false
         \/ truthy (get "name" PNone message) = false ->
       CLIENTS (world_of (process_message int ws (Some (PDict message)) cuid w))
       = CLIENTS w).
Proof.
  intros H.
  specialize (H Scenarios.no_int 1%nat Scenarios.nameless_register (Some "a")
                Scenarios.two_in_lobby eq_refl eq_refl
                (or_intror (or_intror eq_refl))).
  apply (f_equal (fun c => client_name <$> c !! "u1")) in H.
  vm_compute in H. discriminate.
Qed.

(** Claim C8, amended.  [handle_register] rejects a registration exactly
    when the identifier it is given is not a non-empty string or the
    name it is given is falsy: it then sends the error reply, returns
    [False] and leaves every record as it was.  Otherwise it succeeds
    and stores the record under the identifier.  The router hands it
    [message.get('name', 'Anonymous')]: a request that omits the name is
    registered under the name ['Anonymous']. *)
Theorem register_validation ws client_uuid name w :
  (invalid_register client_uuid name = true ->
     handle_register ws client_uuid name w
     = Done false (log [Send ws invalid_register_reply] w)) /\
  (invalid_register client_uuid name = false -> locked w = false ->
     exists u evs,
       client_uuid = PStr u /\ u <> "" /\ truthy name = true /\
       handle_register ws client_uuid name w
       = Done true
           (log evs (set_CLIENTS
                       (<[u := registered_info w ws u name]> (CLIENTS w)) w))) /\
  (forall int message cuid u,
     locked w = false ->
     is_action (get "action" PNone message) "register" = true ->
     get "uuid" PNone message = PStr u -> u <> "" ->
     process_message int ws (Some (PDict message)) cuid w
     = (handle_register ws (PStr u) (get "name" (PStr "Anonymous") message);;
        ret tt) (log [Acquire; Release] w)) /\
  (forall message,
     (forall v, ("name", v) ∉ message) ->
     get "name" (PStr "Anonymous") message = PStr "Anonymous").
Proof.
  split; [apply handle_register_invalid|].
  split.
  - intros Hv Hl. apply invalid_register_false in Hv as (u & -> & Hne & Hu & Hn).
    destruct (handle_register_valid ws u name w Hl Hu Hn) as (evs & E & _).
    eauto 10.
  - split.
    + intros. by apply process_message_register.
    + intros. by apply get_absent.
Qed.

(** The amended claim at a request with an empty name and at one
    without a name. *)
Lemma register_validation_witness :
  handle_register 1%nat (PStr "u1") (PStr "") (start Scenarios.zero_prefix)
  = Done false (log [Send 1%nat invalid_register_reply] (start Scenarios.zero_prefix))
  /\ get "name" (PStr "Anonymous") Scenarios.nameless_register = PStr "Anonymous".
Proof.
  destruct (register_validation 1%nat (PStr "u1") (PStr "") (start Scenarios.zero_prefix))
    as (Hrej & _ & _ & _).
  destruct (register_validation 1%nat PNone PNone (start Scenarios.zero_prefix))
    as (_ & _ & _ & Hname).
  split; [apply Hrej; reflexivity|].
  apply Hname. intros v Hin. vm_compute in Hin.
  repeat (apply elem_of_cons in Hin as [Hin|Hin]; [discriminate|]).
  by apply elem_of_nil in Hin.
Defined.

(** *** Registering again *)

(** Whether a ['current_game'] entry names a session that [GAMES] holds. *)
Lemma registered_info_live w ws u name info gid :
  CLIENTS w !! u = Some info -> current_game info = Some gid ->
  gid <> "" -> is_Some (GAMES w !! gid) ->
  current_game (registered_info w ws u name) = Some gid.
Proof.
  intros E Eg Hne [g Hg]. unfold registered_info. cbn. rewrite E, Eg, Hg.
  destruct (String.eqb_spec gid ""); done.
Qed.

Lemma registered_info_stale w ws u name info gid :
  CLIENTS w !! u = Some info -> current_game info = Some gid ->
  GAMES w !! gid = None ->
  current_game (registered_info w ws u name) = None.
Proof.
  intros E Eg Hg. unfold registered_info. cbn. rewrite E, Eg, Hg.
  by destruct (negb _).
Qed.

Lemma registered_info_lobby w ws u name info :
  CLIENTS w !! u = Some info -> current_game info = None ->
  current_game (registered_info w ws u name) = None.
Proof. intros E Eg. unfold registered_info. cbn. by rewrite E, Eg. Qed.

(** Claim C5 as stated fails: after the steps of [collision_ops], which
    the server can run, ["a"] is registered and bound to a session;
    registering ["a"] again from another connection clears the binding. *)
Lemma reregister_clears_stale_session :
  ~ (forall int ops rnd ws u name info info',
       let w := run_ops int ops (start rnd) in
       locked w = false ->
       CLIENTS w !! u = Some info ->
       ws <> websocket info ->
       CLIENTS (world_of (handle_register ws (PStr u) name w)) !! u = Some info' ->
       websocket info' = ws /\ current_game info' = current_game info).
Proof.
  intros H.
  specialize (H Scenarios.no_int Scenarios.collision_ops Scenarios.zero_prefix
                3%nat "a" (PStr "A")
                {| client_name := PStr "A"; websocket := 1%nat;
                   current_game := Some "00000000"; client_status := "connected" |}
                {| client_name := PStr "A"; websocket := 3%nat;
                   current_game := None; client_status := "connected" |}).
  cbv zeta in H.
  destruct H as [_ H]; try (vm_compute; reflexivity); try done.
Qed.

(** Claim C5, amended.  Registering an identifier that is already
    registered, from another connection, stores the new connection (and
    the new name) in its record, and messages for the identifier go to
    the new connection from then on.  The session membership is kept
    when it is empty or names a session [GAMES] still holds; when it
    names a session that is gone it is cleared.  No other record, and
    nothing in [GAMES] or [AVAILABLE_GAMES], changes. *)
Theorem reregister_rebinds ws u name info w :
  locked w = false ->
  CLIENTS w !! u = Some info ->
  u <> "" -> truthy name = true ->
  exists w' info',
    handle_register ws (PStr u) name w = Done true w' /\
    CLIENTS w' !! u = Some info' /\
    websocket info' = ws /\ client_name info' = name /\
    (forall m, send_message_to_client u m w'
               = Done tt (log [Acquire; Release; Send ws m] w')) /\
    (current_game info = None -> current_game info' = None) /\
    (forall gid, current_game info = Some gid -> gid <> "" ->
                 is_Some (GAMES w !! gid) -> current_game info' = Some gid) /\
    (forall gid, current_game info = Some gid -> GAMES w !! gid = None ->
                 current_game info' = None) /\
    (forall v, v <> u -> CLIENTS w' !! v = CLIENTS w !! v) /\
    GAMES w' = GAMES w /\ AVAILABLE_GAMES w' = AVAILABLE_GAMES w.
Proof.
  intros Hl E Hne Hn.
  assert (Hu : truthy (PStr u) = true).
  { cbn. destruct (String.eqb_spec u ""); done. }
  destruct (handle_register_valid ws u name w Hl Hu Hn) as (evs & Hrun & _).
  eexists _, (registered_info w ws u name). split; [exact Hrun|].
  assert (Hlook : CLIENTS (log evs (set_CLIENTS
            (<[u:=registered_info w ws u name]> (CLIENTS w)) w)) !! u
          = Some (registered_info w ws u name)).
  { cbn. apply lookup_insert_eq. }
  split; [exact Hlook|]. split; [done|]. split; [done|].
  split.
  { intros m. rewrite send_message_to_client_run by (by destruct w).
    unfold ev_send_to. rewrite Hlook. reflexivity. }
  split; [by apply registered_info_lobby|].
  split; [intros; by eapply registered_info_live|].
  split; [intros; by eapply registered_info_stale|].
  split; [intros v Hv; cbn; by apply lookup_insert_ne|].
  by destruct w.
Qed.

(** The amended claim in the world where ["a"] and ["b"] play: ["a"]
    registers again from connection 3. *)
Lemma reregister_rebinds_witness :
  exists w' info',
    handle_register 3%nat (PStr "a") (PStr "A") Scenarios.two_playing = Done true w' /\
    CLIENTS w' !! "a" = Some info' /\ websocket info' = 3%nat.
Proof.
  destruct (reregister_rebinds 3%nat "a" (PStr "A")
              {| client_name := PStr "A"; websocket := 1%nat;
                 current_game := Some "00000000"; client_status := "connected" |}
              Scenarios.two_playing)
    as (w' & info' & H1 & H2 & H3 & _).
  - vm_compute. reflexivity.
  - vm_compute. reflexivity.
  - discriminate.
  - reflexivity.
  - exists w', info'. auto.
Defined.

(** *** [cleanup_game] and [cleanup_client] *)

#[local] Arguments broadcast_available_games : simpl never.
#[local] Arguments broadcast_game_message : simpl never.
#[local] Arguments send_message_to_client : simpl never.
#[local] Arguments get_available_games_list : simpl never.
#[local] Arguments cleanup_game : simpl never.
#[local] Arguments player_uuids : simpl never.
#[local] Arguments lobby_clients : simpl never.
#[local] Arguments open_games : simpl never.
#[local] Arguments reset_players : simpl never.
#[local] Arguments set_current_game : simpl never.

Lemma reset_players_run us w :
  for_each us (fun player_uuid =>
    update (fun w => set_CLIENTS (set_current_game player_uuid None (CLIENTS w)) w)) w
  = Done tt (set_CLIENTS (reset_players us (CLIENTS w)) w).
Proof.
  revert w. induction us as [|u us IH]; intros w; cbn [for_each].
  - by destruct w.
  - unfold bind, update. rewrite IH. by destruct w.
Qed.

Lemma set_current_game_lookup_None u v c k :
  c !! k = None -> set_current_game u v c !! k = None.
Proof.
  intros H. unfold set_current_game. destruct (c !! u) eqn:E; [|done].
  rewrite lookup_insert_ne; [done|]. intros ->. congruence.
Qed.

Lemma reset_players_lookup_None us c k :
  c !! k = None -> reset_players us c !! k = None.
Proof.
  revert c. induction us as [|u us IH]; intros c H; unfold reset_players; cbn;
    [done|].
  apply IH. by apply set_current_game_lookup_None.
Qed.

Lemma cleanup_game_run gid w :
  locked w = false ->
  cleanup_game gid w =
    match GAMES w !! gid with
    | None => Done tt (log [Acquire; Release] w)
    | Some g =>
        let w1 := game_removed gid g w in
        Done tt (log ([Acquire; Release]
                        ++ ev_broadcast_available (CLIENTS w1) (AVAILABLE_GAMES w1)) w1)
    end.
Proof.
  intros Hl. unfold cleanup_game, bind at 1, with_lock. rewrite Hl.
  unfold bind at 1, read. cbn [GAMES set_locked log].
  destruct (GAMES w !! gid) as [g|] eqn:E.
  - unfold bind at 1. rewrite reset_players_run.
    unfold bind, update, ret. cbn.
    rewrite broadcast_available_games_run by done.
    destruct w. cbn in *. subst. unfold game_removed, log, set_locked. cbn.
    rewrite <- !app_assoc. reflexivity.
  - unfold ret. destruct w. cbn in *. subst. unfold log, set_locked. cbn.
    rewrite <- !app_assoc. reflexivity.
Qed.

Lemma cleanup_client_locked_run u info w :
  locked w = false ->
  CLIENTS w !! u = Some info ->
  with_lock (cleanup_client_locked u) w =
    match live_game (current_game info) w with
    | Some (gid, g) =>
        Done (Some (current_game info, opponent_of g u))
          (log [Acquire; Release] (marked_finished u gid g w))
    | None =>
        Done (Some (current_game info, None))
          (log [Acquire; Release] (set_CLIENTS (delete u (CLIENTS w)) w))
    end.
Proof.
  destruct w as [C G A l t rnd d]. cbn. intros -> E.
  unfold with_lock, cleanup_client_locked. cbn.
  unfold bind at 1, read. cbn. rewrite E.
  unfold bind at 1. unfold live_game. cbn.
  destruct (current_game info) as [gid|]; cbn.
  - destruct (G !! gid) as [g|]; cbn; unmonad; unfold marked_finished;
      unmonad; rewrite <- ?app_assoc; reflexivity.
  - unmonad. rewrite <- ?app_assoc. reflexivity.
Qed.

Lemma with_lock_read {A} (f : world -> A) w :
  locked w = false ->
  with_lock (read f) w
  = Done (f (set_locked true (log [Acquire] w))) (log [Acquire; Release] w).
Proof.
  destruct w. cbn. intros ->. unfold with_lock, read, set_locked, log. cbn.
  rewrite <- app_assoc. reflexivity.
Qed.

Lemma game_removed_log gid g e w :
  game_removed gid g (log e w) = log e (game_removed gid g w).
Proof. reflexivity. Qed.

Lemma cleanup_game_found gid g w :
  locked w = false -> GAMES w !! gid = Some g ->
  cleanup_game gid w
  = Done tt (log ([Acquire; Release]
                    ++ ev_broadcast_available (CLIENTS (game_removed gid g w))
                         (AVAILABLE_GAMES (game_removed gid g w)))
               (game_removed gid g w)).
Proof. intros Hl E. rewrite cleanup_game_run by done. by rewrite E. Qed.

Lemma opponent_of_ne g u o : opponent_of g u = Some o -> o <> u.
Proof.
  unfold opponent_of.
  destruct (players_X g) as [p|], (players_O g) as [q|]; cbn;
    repeat match goal with
           | |- context [String.eqb ?a ?b] => destruct (String.eqb_spec a b); cbn
           end; congruence.
Qed.

(** The world [cleanup_client] ends in. *)
Lemma cleanup_client_run u info w :
  locked w = false ->
  CLIENTS w !! u = Some info ->
  exists evs,
    cleanup_client u w =
      Done tt
        (log evs
           match live_game (current_game info) w with
           | Some (gid, g) =>
               game_removed gid (set_status finished g) (marked_finished u gid g w)
           | None => set_CLIENTS (delete u (CLIENTS w)) w
           end) /\
    forall gid g o oinfo,
      live_game (current_game info) w = Some (gid, g) ->
      opponent_of g u = Some o -> o <> "" -> CLIENTS w !! o = Some oinfo ->
      Send (websocket oinfo) (opponent_left gid (leaving_name (Some g) u)) ∈ evs.
Proof.
  intros Hl E. unfold cleanup_client, bind at 1.
  rewrite (cleanup_client_locked_run u info w Hl E).
  destruct (live_game (current_game info) w) as [[gid g]|] eqn:Elive.
  - assert (Hgid : current_game info = Some gid /\ GAMES w !! gid = Some g).
    { unfold live_game in Elive. destruct (current_game info) as [k|]; [|done].
      destruct (GAMES w !! k) eqn:?; cbn in Elive; [|done].
      by inversion Elive; subst. }
    destruct Hgid as [Hcur HG].
    set (w1 := marked_finished u gid g w).
    assert (Hl1 : locked w1 = false) by exact Hl.
    assert (HG1 : GAMES w1 !! gid = Some (set_status finished g))
      by apply lookup_insert_eq.
    assert (Hlive1 : forall e, live_game (current_game info) (log e w1)
                               = Some (gid, set_status finished g)).
    { intros e. unfold live_game. rewrite Hcur.
      change (GAMES (log e w1)) with (GAMES w1). by rewrite HG1. }
    unfold bind at 1. unfold read at 1. rewrite Hlive1.
    unfold bind at 1.
    destruct (opponent_of g u) as [o|] eqn:Eo.
    + destruct (truthy (PStr o)) eqn:Et.
      * unfold bind at 1. rewrite with_lock_read by exact Hl1.
        rewrite send_message_to_client_run by exact Hl1.
        rewrite (cleanup_game_found gid (set_status finished g))
          by first [exact Hl1 | exact HG1].
        rewrite !game_removed_log, !log_log.
        eexists. split; [reflexivity|].
        intros gid' g' o' oinfo [= <- <-] Ho' Hne Ho.
        rewrite Eo in Ho'. injection Ho' as <-.
        rewrite !elem_of_app.
        match goal with
        | |- context [?x ∈ ev_send_to ?c ?o ?m] =>
            assert (x ∈ ev_send_to c o m) as Hin; [|tauto]
        end.
        unfold ev_send_to.
        match goal with
        | |- context [CLIENTS ?x !! o] =>
            change (CLIENTS x) with (delete u (CLIENTS w))
        end.
        rewrite lookup_delete_ne by (apply not_eq_sym, (opponent_of_ne g); done).
        rewrite Ho.
        match goal with
        | |- context [GAMES ?x !! gid] => change (GAMES x) with (GAMES w1)
        end.
        rewrite HG1. unfold opponent_left.
        change (leaving_name (Some (set_status finished g)) u)
          with (leaving_name (Some g) u).
        set_solver.
      * unfold ret.
        rewrite (cleanup_game_found gid (set_status finished g))
          by first [exact Hl1 | exact HG1].
        rewrite !game_removed_log, !log_log.
        eexists. split; [reflexivity|].
        intros gid' g' o' oinfo [= <- <-] Ho' Hne Ho.
        rewrite Eo in Ho'. injection Ho' as <-.
        cbn in Et. apply negb_false_iff, String.eqb_eq in Et. done.
    + unfold ret.
      rewrite (cleanup_game_found gid (set_status finished g))
        by first [exact Hl1 | exact HG1].
      rewrite !game_removed_log, !log_log.
      eexists. split; [reflexivity|].
      intros gid' g' o' oinfo [= <- <-] Ho'. congruence.
  - unfold bind at 1, read.
    assert (Hl' : live_game (current_game info)
                    (log [Acquire; Release] (set_CLIENTS (delete u (CLIENTS w)) w))
                  = None) by exact Elive.
    rewrite Hl'.
    rewrite broadcast_available_games_run by exact Hl.
    eexists. split.
    { rewrite log_log. reflexivity. }
    discriminate.
Qed.

Lemma live_game_Some cur w gid g :
  live_game cur w = Some (gid, g) <-> cur = Some gid /\ GAMES w !! gid = Some g.
Proof.
  unfold live_game. destruct cur as [k|]; [|split; [done|intros [? _]; done]].
  destruct (GAMES w !! k) as [g'|] eqn:E; cbn.
  - split; [intros [= <- <-]; done|]. intros [[= <-] H]. congruence.
  - split; [done|]. intros [[= <-] H]. congruence.
Qed.

Lemma live_game_None cur w :
  live_game cur w = None <-> forall gid, cur = Some gid -> GAMES w !! gid = None.
Proof.
  unfold live_game. destruct cur as [k|]; [|split; [intros _ ? [=]|done]].
  destruct (GAMES w !! k) as [g'|] eqn:E; cbn.
  - split; [done|]. intros H. specialize (H k eq_refl). congruence.
  - split; [|done]. intros _ gid [= <-]. done.
Qed.

Lemma disconnect_cleanup u w : u <> "" -> disconnect u w = cleanup_client u w.
Proof.
  intros Hne. unfold disconnect, finally_clause. cbn.
  apply String.eqb_neq in Hne. by rewrite Hne.
Qed.

(** With the lock free, [cleanup_client] for a registered client,
    which is what the [finally] clause of [handle_client] runs for the
    identifier the connection opened with (a non-empty string), returns
    and leaves no record of that client in [CLIENTS], whether or not the
    client is bound to a session.  A session the client is bound to is
    absent from [GAMES] afterwards; if it was stored, the first block of
    [cleanup_client] left it under its identifier with the status
    [finished] and everything else as it was, and it is removed from
    [AVAILABLE_GAMES] too. *)
Theorem disconnect_removes_client u info w :
  locked w = false ->
  CLIENTS w !! u = Some info ->
  u <> "" ->
  exists w',
    cleanup_client u w = Done tt w' /\
    disconnect u w = Done tt w' /\
    locked w' = false /\
    CLIENTS w' !! u = None /\
    (forall gid, current_game info = Some gid -> GAMES w' !! gid = None) /\
    (forall gid g,
       current_game info = Some gid -> GAMES w !! gid = Some g ->
       (exists w1 g1,
          with_lock (cleanup_client_locked u) w
          = Done (Some (Some gid, opponent_of g u)) w1 /\
          GAMES w1 !! gid = Some g1 /\
          status g1 = finished /\
          board_ g1 = board_ g /\ turn g1 = turn g /\ winner g1 = winner g /\
          players_X g1 = players_X g /\ players_O g1 = players_O g) /\
       AVAILABLE_GAMES w' !! gid = None).
Proof.
  intros Hl E Hne.
  destruct (cleanup_client_run u info w Hl E) as (evs & Hrun & _).
  eexists. split; [exact Hrun|].
  split; [by rewrite (disconnect_cleanup u w Hne)|].
  pose proof (cleanup_client_locked_run u info w Hl E) as Hlocked.
  destruct (live_game (current_game info) w) as [[gid g]|] eqn:Elive.
  - apply live_game_Some in Elive as [Hcur HG].
    split; [exact Hl|]. split.
    { cbn. apply reset_players_lookup_None, lookup_delete_eq. }
    split.
    { intros gid' Hc. rewrite Hcur in Hc. injection Hc as <-.
      cbn. apply lookup_delete_eq. }
    intros gid' g' Hc HG'. rewrite Hcur in Hc. injection Hc as <-.
    rewrite HG in HG'. injection HG' as <-.
    split.
    + eexists _, (set_status finished g).
      split; [rewrite Hcur in Hlocked; exact Hlocked|].
      split; [cbn; apply lookup_insert_eq|]. done.
    + cbn. apply lookup_delete_eq.
  - rewrite live_game_None in Elive.
    split; [exact Hl|]. split; [cbn; apply lookup_delete_eq|].
    split; [intros gid Hc; cbn; by apply Elive|].
    intros gid g Hc HG. rewrite (Elive gid Hc) in HG. discriminate.
Qed.

(** ["a"] and ["b"] play and ["a"] disconnects. *)
Lemma disconnect_removes_client_witness :
  exists w',
    disconnect "a" Scenarios.two_playing = Done tt w' /\
    CLIENTS w' !! "a" = None /\ GAMES w' !! "00000000" = None.
Proof.
  destruct (disconnect_removes_client "a"
              {| client_name := PStr "A"; websocket := 1%nat;
                 current_game := Some "00000000"; client_status := "connected" |}
              Scenarios.two_playing)
    as (w' & _ & Hd & _ & Hc & Hg & _).
  - vm_compute. reflexivity.
  - vm_compute. reflexivity.
  - discriminate.
  - exists w'. split; [exact Hd|]. split; [exact Hc|]. apply Hg. reflexivity.
Defined.

(** *** Preservation of invariants *)

Section Preservation.
Variable I : world -> Prop.
Hypothesis I_blind : blind I.

Lemma blind_log e w : I w <-> I (log e w).
Proof. apply I_blind. Qed.

Lemma blind_set_locked l w : I w <-> I (set_locked l w).
Proof. apply I_blind. Qed.

Lemma preserves_ret {A} (a : A) : preserves I (ret a).
Proof. intros w H. exact H. Qed.

Lemma preserves_read {A} (f : world -> A) : preserves I (read f).
Proof. intros w H. exact H. Qed.

Lemma preserves_raise {A} e : preserves I (@raise A e).
Proof. intros w H. exact H. Qed.

Lemma preserves_lookup_key {V} (m : world -> gmap string V) k :
  preserves I (lookup_key m k).
Proof. intros w H. unfold lookup_key. by destruct (dict_get (m w) k). Qed.

Lemma preserves_bind {A B} (m : M A) (k : A -> M B) :
  preserves I m -> (forall a, preserves I (k a)) -> preserves I (bind m k).
Proof.
  intros Hm Hk w H. unfold bind. specialize (Hm w H).
  destruct (m w) as [a w'|e w'|w']; cbn in *; [by apply Hk|done|done].
Qed.

Lemma preserves_update f :
  (forall w, I w -> I (f w)) -> preserves I (update f).
Proof. intros Hf w H. by apply Hf. Qed.

Lemma preserves_emit e : preserves I (emit e).
Proof. apply preserves_update. intros w H. by apply blind_log. Qed.

Lemma preserves_send_message ws m : preserves I (send_message ws m).
Proof. apply preserves_emit. Qed.

Lemma preserves_with_lock {A} (body : M A) :
  preserves I body -> preserves I (with_lock body).
Proof.
  intros Hb w H. unfold with_lock. destruct (locked w); [exact H|].
  assert (H' : I (set_locked true (log [Acquire] w)))
    by (by apply blind_set_locked, blind_log).
  specialize (Hb _ H').
  destruct (body _) as [a w'|e w'|w']; cbn in *; [| |done];
    by apply blind_set_locked, blind_log.
Qed.

Lemma preserves_catch {A} (body : M A) :
  preserves I body -> preserves I (catch body).
Proof.
  intros Hb w H. unfold catch. specialize (Hb w H).
  by destruct (body w).
Qed.

Lemma preserves_for_each {A} (xs : list A) (body : A -> M unit) :
  (forall x, preserves I (body x)) -> preserves I (for_each xs body).
Proof.
  intros Hb. induction xs as [|x xs IH]; cbn [for_each].
  - apply preserves_ret.
  - apply preserves_bind; [apply Hb|intros _; exact IH].
Qed.

Lemma preserves_send_message_to_client u m :
  preserves I (send_message_to_client u m).
Proof.
  unfold send_message_to_client. apply preserves_bind.
  - apply preserves_with_lock, preserves_read.
  - intros [ws|]; [apply preserves_send_message|apply preserves_ret].
Qed.

Lemma preserves_get_available_games_list : preserves I get_available_games_list.
Proof. apply preserves_with_lock, preserves_read. Qed.

Lemma preserves_broadcast_available_games : preserves I broadcast_available_games.
Proof.
  unfold broadcast_available_games.
  apply preserves_bind; [apply preserves_get_available_games_list|intros games].
  apply preserves_bind; [apply preserves_with_lock, preserves_read|intros us].
  apply preserves_for_each. intros u. apply preserves_send_message_to_client.
Qed.

Lemma preserves_broadcast_game_message gid m :
  preserves I (broadcast_game_message gid m).
Proof.
  unfold broadcast_game_message.
  apply preserves_bind; [apply preserves_with_lock, preserves_read|].
  intros [us|]; [|apply preserves_ret].
  apply preserves_for_each. intros u. apply preserves_send_message_to_client.
Qed.
End Preservation.

(** *** A session identifier that is gone stays out of the advertised
    sessions *)

Lemma not_advertised_blind gid : blind (not_advertised gid).
Proof. intros w l t. reflexivity. Qed.

Create HintDb pres.
#[local] Hint Resolve not_advertised_blind : pres.

(** Steps through a coroutine, one construct at a time. *)
Ltac pres_step :=
  first
    [ apply preserves_ret
    | apply preserves_read
    | apply preserves_raise
    | apply preserves_lookup_key
    | apply preserves_send_message; solve [auto with pres]
    | apply preserves_emit; solve [auto with pres]
    | apply preserves_send_message_to_client; solve [auto with pres]
    | apply preserves_get_available_games_list; solve [auto with pres]
    | apply preserves_broadcast_available_games; solve [auto with pres]
    | apply preserves_broadcast_game_message; solve [auto with pres]
    | solve [auto with pres]
    | apply preserves_with_lock; [solve [auto with pres]|]
    | apply preserves_catch
    | apply preserves_for_each; intros ?
    | apply preserves_bind; [|intros ?]
    | match goal with
      | |- preserves _ (match ?x with _ => _ end) => destruct x
      end
    | apply preserves_update; [solve [auto with pres]|];
      intros ? ?; repeat case_match; solve [auto with pres]
    | intros ? ?; cbn; repeat case_match; assumption ].

Ltac pres := repeat pres_step.

Section NotAdvertised.
Variable gid : string.
Local Abbreviation I := (not_advertised gid).

Lemma na_set_CLIENTS c w : I w -> I (set_CLIENTS c w).
Proof. intros H. exact H. Qed.

Lemma na_set_GAMES g w : I w -> I (set_GAMES g w).
Proof. intros H. exact H. Qed.

Lemma na_delete k w :
  I w -> I (set_AVAILABLE_GAMES (delete k (AVAILABLE_GAMES w)) w).
Proof.
  intros [H1 H2]. split; [|exact H2]. cbn.
  apply lookup_delete_None. by right.
Qed.

Lemma preserves_update_CLIENTS (f : world -> gmap string client_info) :
  preserves I (update (fun w => set_CLIENTS (f w) w)).
Proof. apply preserves_update. intros w. apply na_set_CLIENTS. Qed.

Lemma preserves_update_GAMES (f : world -> gmap string game) :
  preserves I (update (fun w => set_GAMES (f w) w)).
Proof. apply preserves_update. intros w. apply na_set_GAMES. Qed.

Lemma preserves_update_delete k :
  preserves I (update (fun w =>
    set_AVAILABLE_GAMES (delete k (AVAILABLE_GAMES w)) w)).
Proof. apply preserves_update. intros w. apply na_delete. Qed.

Hint Resolve preserves_update_CLIENTS preserves_update_GAMES
  preserves_update_delete na_set_CLIENTS na_set_GAMES na_delete : pres.

Lemma preserves_handle_register ws cu name :
  preserves I (handle_register ws cu name).
Proof. unfold handle_register. pres. Qed.

Lemma preserves_cleanup_game k : preserves I (cleanup_game k).
Proof. unfold cleanup_game. pres. Qed.

Lemma preserves_cleanup_client u : preserves I (cleanup_client u).
Proof.
  unfold cleanup_client, cleanup_client_locked. pres;
    apply preserves_cleanup_game.
Qed.

Lemma preserves_handle_join_game u k : preserves I (handle_join_game u k).
Proof. unfold handle_join_game. pres. Qed.

(** A new session is advertised under the identifier just drawn. *)
Lemma preserves_handle_create_game u : preserves I (handle_create_game u).
Proof.
  unfold handle_create_game.
  apply preserves_bind; [|intros [[k g]|]; pres].
  apply preserves_with_lock; [auto with pres|].
  apply preserves_bind; [pres|]. intros [info|]; [|pres].
  destruct (in_a_game (current_game info)); [pres|].
  intros w [H1 H2]. unfold bind, draw, update, ret. cbn.
  unfold set_CLIENTS, set_AVAILABLE_GAMES, set_GAMES, set_draws. split; cbn.
  - rewrite lookup_insert_ne; [exact H1|]. apply H2. lia.
  - intros n Hn. apply H2. lia.
Qed.

Hint Resolve preserves_handle_register preserves_cleanup_game
  preserves_cleanup_client preserves_handle_join_game
  preserves_handle_create_game : pres.

Variable int_of_str : string -> option Z.

Lemma preserves_handle_make_move u k y x :
  preserves I (handle_make_move int_of_str u k y x).
Proof.
  unfold handle_make_move. pres.
Qed.

Hint Resolve preserves_handle_make_move : pres.

Lemma preserves_process_message ws frame cuid :
  preserves I (process_message int_of_str ws frame cuid).
Proof. unfold process_message. pres. Qed.

Lemma preserves_finally_clause cuid : preserves I (finally_clause cuid).
Proof. unfold finally_clause. pres. Qed.

Hint Resolve preserves_finally_clause : pres.

Lemma preserves_first_message ws frame : preserves I (first_message ws frame).
Proof. unfold first_message. pres. Qed.

Lemma preserves_next_message ws u frame :
  preserves I (next_message int_of_str ws u frame).
Proof.
  unfold next_message. pres; apply preserves_process_message.
Qed.

Hint Resolve preserves_process_message preserves_first_message
  preserves_next_message : pres.

Lemma preserves_run_op o : preserves I (run_op int_of_str o).
Proof.
  destruct o; unfold run_op, disconnect; pres.
Qed.

Lemma run_ops_not_advertised os w :
  I w -> I (run_ops int_of_str os w).
Proof.
  revert w. induction os as [|o os IH]; intros w H; [exact H|].
  unfold run_ops. cbn. apply IH. by apply preserves_run_op.
Qed.
End NotAdvertised.

Lemma open_games_ids a e :
  e ∈ open_games a -> is_Some (a !! open_game_id e).
Proof.
  unfold open_games. intros H. apply list_elem_of_fmap in H as ([k v] & -> & Hin).
  apply elem_of_map_to_list in Hin. cbn. eauto.
Qed.

(** In a session where [u] holds a slot, a slot held by someone else is
    the opponent [cleanup_client] finds, and the name it reads back is
    the one in the slot of [u]. *)
Lemma opponent_and_name g u other :
  is_Some (get_player_piece g u) ->
  players_X g = Some other \/ players_O g = Some other ->
  uuid other <> u ->
  opponent_of g u = Some (uuid other) /\
  exists me,
    (players_X g = Some me \/ players_O g = Some me) /\ uuid me = u /\
    leaving_name (Some g) u = name me.
Proof.
  unfold get_player_piece, opponent_of, leaving_name.
  intros [p Hp] Hother Hne.
  destruct (players_X g) as [px|], (players_O g) as [po|];
    destruct Hother as [[= ->]|[= ->]]; cbn in *;
    repeat match goal with
           | H : context [String.eqb ?a ?b] |- _ =>
               destruct (String.eqb_spec a b); cbn in H
           | |- context [String.eqb ?a ?b] =>
               destruct (String.eqb_spec a b); cbn
           end; try congruence; try done; eauto 10.
Qed.

(** With the lock free, when the client a connection opened with (a
    non-empty identifier) holds a slot of a stored session and the
    connection is lost, the first block of [cleanup_client] leaves the
    session with the status [finished], whatever its board, which it
    keeps; the other participant, if registered, is sent an
    opponent-left notification that carries the name in the slot of the
    client that left; the session is removed from [GAMES] and
    [AVAILABLE_GAMES]; and the list of open sessions does not contain
    its identifier, then and after any further steps of the server, as
    long as no later session draws the same identifier. *)
Theorem abandonment_ends_session u info gid g w :
  locked w = false ->
  CLIENTS w !! u = Some info ->
  current_game info = Some gid ->
  GAMES w !! gid = Some g ->
  is_Some (get_player_piece g u) ->
  u <> "" ->
  exists w1 g1 w',
    with_lock (cleanup_client_locked u) w
    = Done (Some (Some gid, opponent_of g u)) w1 /\
    GAMES w1 !! gid = Some g1 /\
    status g1 = finished /\
    board_ g1 = board_ g /\ turn g1 = turn g /\ winner g1 = winner g /\
    players_X g1 = players_X g /\ players_O g1 = players_O g /\
    disconnect u w = Done tt w' /\
    (forall other oinfo,
       players_X g = Some other \/ players_O g = Some other ->
       uuid other <> u -> uuid other <> "" ->
       CLIENTS w !! uuid other = Some oinfo ->
       exists me,
         (players_X g = Some me \/ players_O g = Some me) /\ uuid me = u /\
         Send (websocket oinfo) (opponent_left gid (name me))
           ∈ drop (length (trace w)) (trace w')) /\
    GAMES w' !! gid = None /\
    AVAILABLE_GAMES w' !! gid = None /\
    (forall int ops e,
       (forall n, (draws w' <= n)%nat -> Uuid.new_game_id (urandom w' n) <> gid) ->
       e ∈ open_games (AVAILABLE_GAMES (run_ops int ops w')) ->
       open_game_id e <> gid).
Proof.
  intros Hl E Hcur HG Hpart Hnonempty.
  rewrite (disconnect_cleanup u w Hnonempty).
  destruct (cleanup_client_run u info w Hl E) as (evs & Hrun & Hsend).
  pose proof (cleanup_client_locked_run u info w Hl E) as Hlocked.
  assert (Hlive : live_game (current_game info) w = Some (gid, g))
    by (by apply live_game_Some).
  rewrite Hlive in Hrun, Hlocked. rewrite Hcur in Hlocked.
  eexists _, (set_status finished g), _. split; [exact Hlocked|].
  split; [cbn; apply lookup_insert_eq|].
  do 6 (split; [reflexivity|]).
  split; [exact Hrun|].
  split.
  { intros other oinfo Hslot Hne Hne' Ho.
    destruct (opponent_and_name g u other Hpart Hslot Hne) as (Hopp & me & Hme & Hu & Hname).
    exists me. split; [done|]. split; [done|].
    cbn [trace log]. rewrite drop_app_length.
    rewrite <- Hname. by eapply Hsend. }
  assert (HA : AVAILABLE_GAMES
                 (log evs (game_removed gid (set_status finished g)
                             (marked_finished u gid g w))) !! gid = None)
    by (cbn; apply lookup_delete_eq).
  split; [cbn; apply lookup_delete_eq|].
  split; [exact HA|].
  intros int ops e Hdraws He Heq.
  assert (Hinv : not_advertised gid
                   (run_ops int ops
                      (log evs (game_removed gid (set_status finished g)
                                  (marked_finished u gid g w)))))
    by (apply run_ops_not_advertised; split; [exact HA|exact Hdraws]).
  apply open_games_ids in He. rewrite Heq in He.
  destruct Hinv as [Hnone _]. rewrite Hnone in He. by destruct He.
Qed.

(** ["a"] and ["b"] play and ["a"] disconnects: ["b"], on connection
    2, is told that ["A"] left. *)
Lemma abandonment_ends_session_witness :
  exists w',
    disconnect "a" Scenarios.two_playing = Done tt w' /\
    Send 2%nat (opponent_left "00000000" (PStr "A"))
      ∈ drop (length (trace Scenarios.two_playing)) (trace w') /\
    GAMES w' !! "00000000" = None.
Proof.
  destruct (abandonment_ends_session "a"
              {| client_name := PStr "A"; websocket := 1%nat;
                 current_game := Some "00000000"; client_status := "connected" |}
              "00000000"
              {| game_id := "00000000"; board_ := empty_board;
                 players_X := Some {| uuid := "a"; name := PStr "A" |};
                 players_O := Some {| uuid := "b"; name := PStr "B" |};
                 turn := X; status := active; winner := None |}
              Scenarios.two_playing)
    as (w1 & g1 & w' & _ & _ & _ & _ & _ & _ & _ & _ & Hd & Hsend & HG & _).
  - vm_compute. reflexivity.
  - vm_compute. reflexivity.
  - reflexivity.
  - vm_compute. reflexivity.
  - eexists. reflexivity.
  - discriminate.
  - exists w'. split; [exact Hd|]. split; [|exact HG].
    destruct (Hsend {| uuid := "b"; name := PStr "B" |}
                {| client_name := PStr "B"; websocket := 2%nat;
                   current_game := Some "00000000"; client_status := "connected" |})
      as (me & Hme & Hu & Hin).
    + right. reflexivity.
    + discriminate.
    + discriminate.
    + vm_compute. reflexivity.
    + destruct Hme as [[= <-]|[= <-]]; [exact Hin|discriminate].
Defined.

(** *** The lock and the sends *)

(** Joining a session that [GAMES] does not hold: the reply is attempted
    inside the [async with] block, where [send_message_to_client] asks
    for the lock again. *)
Lemma handle_join_game_unknown u info gid w :
  locked w = false ->
  CLIENTS w !! u = Some info ->
  in_a_game (current_game info) = false ->
  GAMES w !! gid = None ->
  handle_join_game u (PStr gid) w = Blocked (set_locked true (log [Acquire] w)).
Proof.
  destruct w as [C G A l t rnd d]. cbn [locked CLIENTS GAMES].
  intros -> E Hlobby HG.
  unfold handle_join_game, lookup_key. unmonad. rewrite E. unmonad.
  rewrite Hlobby. unmonad. rewrite HG. unmonad.
  rewrite send_message_to_client_blocked by reflexivity.
  reflexivity.
Qed.

(** Claim C7 on the failing input.  With ["a"] and ["b"] registered and
    in the lobby, ["b"] asks to join a session that does not exist.
    [handle_join_game] takes the lock and, still holding it, calls
    [send_message_to_client], which waits for the same lock: the handler
    never resumes, the lock stays held, the [game_error] reply is never
    sent, and the next handler that needs the lock (here the cleanup of
    ["a"]) waits forever as well. *)
Theorem join_unknown_game_blocks_holding_lock :
  let w := Scenarios.two_in_lobby in
  let o := process_message Scenarios.no_int 2%nat
             (Scenarios.join_frame "b" "deadbeef") (Some "b") w in
  locked w = false /\
  finished_run o = false /\
  locked (world_of o) = true /\
  trace (world_of o) = trace w ++ [Acquire; Release; Acquire] /\
  (forall ws m, Send ws m ∉ drop (length (trace w)) (trace (world_of o))) /\
  disconnect "a" (world_of o) = Blocked (world_of o).
Proof.
  cbv zeta. split; [vm_compute; reflexivity|].
  split; [vm_compute; reflexivity|].
  split; [vm_compute; reflexivity|].
  split; [vm_compute; reflexivity|].
  split.
  - intros ws m Hin. vm_compute in Hin.
    repeat (apply elem_of_cons in Hin as [Hin|Hin]; [discriminate|]).
    by apply elem_of_nil in Hin.
  - vm_compute. reflexivity.
Qed.

(** Claim C6 on the failing input.  Connection 1 opens as ["a"] and
    registers ["u1"] with a later frame; ["u1"], bound to connection 1,
    plays against ["b"] in the session ["00000000"].  When connection 1
    is lost, the [finally] clause of [handle_client] cleans up ["a"],
    the identifier the connection opened with, and nothing else: the
    session of ["u1"] is still stored and active, not marked finished
    and not removed, and ["b"] is sent nothing, not then and not when
    the loss is handled once more. *)
Theorem session_of_later_identity_survives :
  let w := Scenarios.second_identity_playing in
  let o := run_op Scenarios.no_int (Disconnect "a") w in
  locked w = false /\
  (exists info g,
     CLIENTS w !! "u1" = Some info /\ websocket info = 1%nat /\
     current_game info = Some "00000000" /\
     GAMES w !! "00000000" = Some g /\ status g = active /\
     get_player_piece g "u1" = Some O /\ get_player_piece g "b" = Some X) /\
  finished_run o = true /\
  locked (world_of o) = false /\
  (exists g',
     GAMES (world_of o) !! "00000000" = Some g' /\ status g' = active /\
     GAMES (world_of o) !! "00000000" = GAMES w !! "00000000") /\
  (forall ws m, Send ws m ∉ drop (length (trace w)) (trace (world_of o))) /\
  GAMES (run_ops Scenarios.no_int [Disconnect "a"; Disconnect "a"] w)
    !! "00000000" = GAMES w !! "00000000".
Proof.
  cbv zeta. split; [vm_compute; reflexivity|].
  split.
  { exists {| client_name := PStr "U"; websocket := 1%nat;
              current_game := Some "00000000"; client_status := "connected" |},
      {| game_id := "00000000"; board_ := empty_board;
         players_X := Some {| uuid := "b"; name := PStr "B" |};
         players_O := Some {| uuid := "u1"; name := PStr "U" |};
         turn := X; status := active; winner := None |}.
    repeat apply conj; vm_compute; reflexivity. }
  split; [vm_compute; reflexivity|].
  split; [vm_compute; reflexivity|].
  split.
  { exists {| game_id := "00000000"; board_ := empty_board;
              players_X := Some {| uuid := "b"; name := PStr "B" |};
              players_O := Some {| uuid := "u1"; name := PStr "U" |};
              turn := X; status := active; winner := None |}.
    repeat apply conj; vm_compute; reflexivity. }
  split.
  - intros ws m Hin. vm_compute in Hin.
    repeat (apply elem_of_cons in Hin as [Hin|Hin]; [discriminate|]).
    by apply elem_of_nil in Hin.
  - vm_compute. reflexivity.
Qed.

(** Claim C10 on the failing input.  In the same run, the record of
    ["u1"] is bound to connection 1 and to the live session
    ["00000000"].  After the loss of connection 1 has been handled, the
    record of ["a"] is gone, but the record of ["u1"] is in [CLIENTS] as
    before, still bound to the lost connection and to its session,
    which is still in [GAMES]: a registry record with a bound session
    has survived its connection's disconnect. *)
Theorem record_of_later_identity_survives :
  let w := Scenarios.second_identity_playing in
  let w' := world_of (run_op Scenarios.no_int (Disconnect "a") w) in
  let info := {| client_name := PStr "U"; websocket := 1%nat;
                 current_game := Some "00000000";
                 client_status := "connected" |} in
  locked w = false /\
  websocket <$> CLIENTS w !! "a" = Some 1%nat /\
  CLIENTS w !! "u1" = Some info /\
  run_op Scenarios.no_int (Disconnect "a") w = Done tt w' /\
  CLIENTS w' !! "a" = None /\
  CLIENTS w' !! "u1" = Some info /\
  is_Some (GAMES w' !! "00000000") /\
  CLIENTS (run_ops Scenarios.no_int [Disconnect "a"; Disconnect "a"] w) !! "u1"
  = Some info.
Proof.
  cbv zeta. split; [vm_compute; reflexivity|].
  split; [vm_compute; reflexivity|].
  split; [vm_compute; reflexivity|].
  split; [vm_compute; reflexivity|].
  split; [vm_compute; reflexivity|].
  split; [vm_compute; reflexivity|].
  split; [vm_compute; eexists; reflexivity|].
  vm_compute. reflexivity.
Qed.

End ServerProps.

(** * Properties of the session identifiers *)
Module IdProps.
Import Uuid IdSpace.
Local Open Scope N_scope.

Lemma append_cons c s t : String c s +:+ t = String c (s +:+ t).
Proof. reflexivity. Qed.

Lemma append_nil t : "" +:+ t = t.
Proof. reflexivity. Qed.

Lemma length_append s t :
  String.length (s +:+ t) = (String.length s + String.length t)%nat.
Proof.
  induction s as [|c s IH]; [done|].
  rewrite append_cons. cbn. by rewrite IH.
Qed.

Lemma length_hex n x : String.length (hex n x) = n.
Proof.
  revert x. induction n as [|n IH]; intros x; cbn [hex]; [done|].
  rewrite length_append, IH. cbn. lia.
Qed.

Lemma substring_prefix s t :
  substring 0 (String.length s) (s +:+ t) = s.
Proof.
  induction s as [|c s IH].
  - rewrite append_nil. by destruct t.
  - rewrite append_cons. cbn. by rewrite IH.
Qed.

Lemma append_assoc (s t u : string) : (s +:+ t) +:+ u = s +:+ (t +:+ u).
Proof.
  induction s as [|c s IH]; [done|].
  rewrite !append_cons. by rewrite IH.
Qed.

Lemma append_nil_r (s : string) : s +:+ "" = s.
Proof.
  induction s as [|c s IH]; [done|]. rewrite append_cons. by rewrite IH.
Qed.

Lemma hex_split a b x :
  hex (a + b) x = hex a (x / 16 ^ N.of_nat b) +:+ hex b x.
Proof.
  revert x. induction b as [|b IH]; intros x.
  - rewrite Nat.add_0_r. cbn [hex N.of_nat]. rewrite N.pow_0_r, N.div_1_r.
    by rewrite append_nil_r.
  - rewrite Nat.add_succ_r. cbn [hex]. rewrite IH, append_assoc.
    f_equal. f_equal. rewrite Nat2N.inj_succ, N.pow_succ_r'.
    rewrite N.Div0.div_div. reflexivity.
Qed.

Lemma uuid4_top r : uuid4 r / 2 ^ 96 = top32 r.
Proof.
  unfold uuid4, top32. cbv zeta.
  rewrite <- !N.shiftr_div_pow2.
  rewrite N.shiftr_lor, N.shiftr_ldiff, N.shiftr_lor, N.shiftr_ldiff.
  change (N.shiftr (N.shiftl 49152 48) 96) with 0.
  change (N.shiftr (N.shiftl 32768 48) 96) with 0.
  change (N.shiftr (N.shiftl 61440 64) 96) with 0.
  change (N.shiftr (N.shiftl 4 76) 96) with 0.
  by rewrite !N.ldiff_0_r, !N.lor_0_r.
Qed.

Lemma new_game_id_top r : new_game_id r = hex 8 (top32 r).
Proof.
  unfold new_game_id, str. cbv zeta.
  change 32%nat with (8 + 24)%nat. rewrite hex_split.
  change (16 ^ N.of_nat 24) with (2 ^ 96). rewrite uuid4_top.
  pose proof (length_hex 8 (top32 r)) as Hlen.
  assert (Hpre : forall t, substring 0 8 (hex 8 (top32 r) +:+ t) = hex 8 (top32 r)).
  { intros t. rewrite <- Hlen at 1. apply substring_prefix. }
  rewrite !Hpre. reflexivity.
Qed.

Lemma top32_lt r : top32 r < 2 ^ 32.
Proof.
  unfold top32. apply N.Div0.div_lt_upper_bound.
  change (2 ^ 96 * 2 ^ 32) with (2 ^ 128). by apply N.mod_lt.
Qed.

Lemma top32_shift n : n < 2 ^ 32 -> top32 (n * 2 ^ 96) = n.
Proof.
  intros H. unfold top32. rewrite N.mod_small.
  - by apply N.div_mul.
  - change (2 ^ 128) with (2 ^ 32 * 2 ^ 96). by apply N.mul_lt_mono_pos_r.
Qed.

Lemma hex_digit_inj a b : a < 16 -> b < 16 -> hex_digit a = hex_digit b -> a = b.
Proof.
  intros Ha Hb H.
  assert (Hall :
    forallb (fun x => forallb (fun y =>
      implb (Ascii.eqb (hex_digit x) (hex_digit y)) (x =? y))
        (N.of_nat <$> seq 0 16))
      (N.of_nat <$> seq 0 16) = true) by reflexivity.
  rewrite forallb_forall in Hall.
  assert (Hin : forall x, x < 16 -> In x (N.of_nat <$> seq 0 16)).
  { intros x Hx. apply in_map_iff. exists (N.to_nat x).
    split; [apply N2Nat.id|]. apply in_seq. lia. }
  specialize (Hall a (Hin a Ha)). rewrite forallb_forall in Hall.
  specialize (Hall b (Hin b Hb)).
  rewrite H, Ascii.eqb_refl in Hall. by apply N.eqb_eq.
Qed.

Lemma append_last_inj s1 s2 c1 c2 :
  s1 +:+ String c1 "" = s2 +:+ String c2 "" -> s1 = s2 /\ c1 = c2.
Proof.
  revert s2. induction s1 as [|a s1 IH]; intros [|b s2].
  - rewrite !append_nil. by intros [= ->].
  - rewrite append_nil, append_cons. intros [= -> H].
    destruct s2; discriminate H.
  - rewrite append_nil, append_cons. intros [= -> H].
    destruct s1; discriminate H.
  - rewrite !append_cons. intros [= -> H].
    destruct (IH _ H) as [-> ->]. done.
Qed.

Lemma hex_inj n a b :
  a < 16 ^ N.of_nat n -> b < 16 ^ N.of_nat n -> hex n a = hex n b -> a = b.
Proof.
  revert a b. induction n as [|n IH]; intros a b Ha Hb H.
  - cbn in Ha, Hb. lia.
  - rewrite Nat2N.inj_succ, N.pow_succ_r' in Ha, Hb.
    cbn [hex] in H. apply append_last_inj in H as [H1 H2].
    apply hex_digit_inj in H2; [|by apply N.mod_lt..].
    apply IH in H1; [|by apply N.Div0.div_lt_upper_bound..].
    rewrite (N.div_mod a 16), (N.div_mod b 16) by done. congruence.
Qed.

Lemma bounded_search (f : N -> N) v m :
  (exists i, i <= m /\ f i = v) \/ (forall i, i <= m -> f i <> v).
Proof.
  induction m as [|m IHm] using N.peano_ind.
  - destruct (N.eq_dec (f 0) v) as [E|E].
    + left. exists 0. split; [lia|done].
    + right. intros i Hi. assert (i = 0) as -> by lia. done.
  - destruct IHm as [(i & Hi & E)|Hno].
    + left. exists i. split; [lia|done].
    + destruct (N.eq_dec (f (N.succ m)) v) as [E|E].
      * left. exists (N.succ m). split; [lia|done].
      * right. intros i Hi.
        destruct (N.eq_dec i (N.succ m)) as [->|]; [done|].
        apply Hno. lia.
Qed.

(** Among [n + 1] numbers below [n], two are equal. *)
Lemma pigeonhole n (f : N -> N) :
  (forall i, i <= n -> f i < n) ->
  exists i j, i < j /\ j <= n /\ f i = f j.
Proof.
  revert f. induction n as [|n IH] using N.peano_ind; intros f Hf.
  - specialize (Hf 0). lia.
  - set (v := f (N.succ n)).
    destruct (bounded_search f v n) as [(i & Hi & E)|Hno].
    { exists i, (N.succ n). split; [lia|]. split; [lia|done]. }
    assert (Hv : v < N.succ n) by (apply Hf; lia).
    destruct (IH (fun i => if N.eq_dec (f i) n then v else f i)) as (i & j & Hij & Hj & E).
    { intros i Hi. cbn. destruct (N.eq_dec (f i) n) as [En|En].
      - assert (v <> n); [|lia]. intros Hvn. apply (Hno i Hi). congruence.
      - assert (f i < N.succ n) by (apply Hf; lia). lia. }
    cbn in E. exists i, j. split; [done|]. split; [lia|].
    destruct (N.eq_dec (f i) n) as [Ei|Ei], (N.eq_dec (f j) n) as [Ej|Ej].
    + congruence.
    + exfalso. apply (Hno j); [lia|]. congruence.
    + exfalso. apply (Hno i); [lia|]. congruence.
    + done.
Qed.

Lemma distinct_ids_le bits : distinct_ids bits -> bits <= 32.
Proof.
  intros [f Hf]. destruct (N.le_gt_cases bits 32) as [|Hgt]; [done|exfalso].
  assert (Hpow : 2 ^ 32 < 2 ^ bits) by (apply N.pow_lt_mono_r; lia).
  destruct (pigeonhole (2 ^ 32) (fun i => top32 (f i))) as (i & j & Hij & Hj & E).
  { intros i _. apply top32_lt. }
  cbn in E. assert (i = j); [|lia].
  apply Hf; [lia|lia|]. by rewrite !new_game_id_top, E.
Qed.

(** Claim C9 as stated fails: the identifiers do not take [2 ^ 48]
    different values. *)
Lemma fewer_than_48_bits : ~ distinct_ids 48.
Proof. intros H. apply distinct_ids_le in H. lia. Qed.

(** Claim C9, amended.  A session identifier is the first eight
    hexadecimal digits of the UUID, which are the first four random
    bytes: it is drawn from a space of exactly 32 bits.  Different
    four-byte values give different identifiers, every such value is the
    identifier of some draw, and no family of more than [2 ^ 32] draws
    has pairwise different identifiers. *)
Theorem game_id_has_32_bits :
  (forall r, new_game_id r = hex 8 (top32 r) /\ top32 r < 2 ^ 32) /\
  (forall a b, a < 2 ^ 32 -> b < 2 ^ 32 -> hex 8 a = hex 8 b -> a = b) /\
  (forall n, n < 2 ^ 32 -> new_game_id (n * 2 ^ 96) = hex 8 n) /\
  distinct_ids 32 /\
  (forall bits, distinct_ids bits -> bits <= 32).
Proof.
  split; [intros r; split; [apply new_game_id_top|apply top32_lt]|].
  split; [intros a b Ha Hb; by apply hex_inj|].
  split; [intros n Hn; by rewrite new_game_id_top, top32_shift|].
  split; [|apply distinct_ids_le].
  exists (fun i => i * 2 ^ 96). intros i j Hi Hj.
  rewrite !new_game_id_top, !top32_shift by done.
  by apply hex_inj.
Qed.

End IdProps.

(** * Further properties of the game session *)
Module SessionExtra.
Import Py TicTacToeGame Validation Scenarios SessionMeasures SessionProps.

Lemma in_range_cases z : 0 <= z < 3 -> z = 0 \/ z = 1 \/ z = 2.
Proof. lia. Qed.

(** Reading a cell after a write, for coordinates on the board. *)
Lemma at_put b y x v i j :
  0 <= y < 3 -> 0 <= x < 3 -> 0 <= i < 3 -> 0 <= j < 3 ->
  at_ (put b y x v) i j = if decide (i = y /\ j = x) then v else at_ b i j.
Proof.
  intros Hy Hx Hi Hj.
  destruct b as [[[[a1 a2] a3] [[b1 b2] b3]] [[c1 c2] c3]].
  destruct (in_range_cases y Hy) as [->|[->| ->]],
    (in_range_cases x Hx) as [->|[->| ->]],
    (in_range_cases i Hi) as [->|[->| ->]],
    (in_range_cases j Hj) as [->|[->| ->]];
    cbn; case_decide; first [reflexivity | lia].
Qed.

Lemma count_put P b y x v :
  0 <= y < 3 -> 0 <= x < 3 ->
  (count P (put b y x v) + (if P (at_ b y x) then 1 else 0)
   = count P b + (if P v then 1 else 0))%nat.
Proof.
  intros Hy Hx.
  destruct b as [[[[a1 a2] a3] [[b1 b2] b3]] [[c1 c2] c3]].
  destruct (in_range_cases y Hy) as [->|[->| ->]],
    (in_range_cases x Hx) as [->|[->| ->]];
    unfold count; cbn; lia.
Qed.

Lemma count_le P b : (count P b <= 9)%nat.
Proof.
  unfold count. cbn.
  repeat match goal with |- context [if ?c then _ else _] => destruct c end; lia.
Qed.

(** What an accepted move has passed, and the board it leaves. *)
Lemma make_move_success g u y x :
  success (make_move g u y x).1 = true ->
  status g = active /\ get_player_piece g u = Some (turn g) /\
  0 <= y < 3 /\ 0 <= x < 3 /\ at_ (board_ g) y x = None /\
  board_ (make_move g u y x).2 = put (board_ g) y x (Some (turn g)).
Proof.
  intros Hs.
  destruct (first_failure (validations g u y x)) as [e|] eqn:E.
  { rewrite (make_move_rejected _ _ _ _ _ E) in Hs. discriminate. }
  destruct (make_move_accepted _ _ _ _ E) as [_ Hb].
  revert E. unfold validations. cbn [first_failure].
  repeat match goal with
         | |- context [bool_decide ?P] =>
             destruct (bool_decide_reflect P); [|discriminate]
         end.
  intros _. repeat split; try done; lia.
Qed.

(** The whole answer of [make_move] to an accepted move. *)
Lemma make_move_accepted_result g u y x :
  success (make_move g u y x).1 = true ->
  make_move g u y x =
    let b' := put (board_ g) y x (Some (turn g)) in
    match check_winner b' with
    | Some w =>
        (Moved b' None true (Some w) false,
         set_status finished (set_winner (Some w) (set_board b' g)))
    | None =>
        if all_filled b' then
          (Moved b' None true None true, set_status finished (set_board b' g))
        else
          (Moved b' (Some (other (turn g))) false None false,
           set_turn (other (turn g)) (set_board b' g))
    end.
Proof.
  intros Hs.
  destruct (make_move_success _ _ _ _ Hs) as (Hst & Hp & Hy & Hx & Hc & _).
  unfold make_move. rewrite Hp.
  rewrite (bool_decide_eq_true_2 (status g = active)) by done.
  rewrite (bool_decide_eq_true_2 (turn g = turn g)) by done.
  rewrite (bool_decide_eq_true_2 (at_ (board_ g) y x = None)) by done.
  replace ((0 <=? y) && (y <? 3) && ((0 <=? x) && (x <? 3))) with true
    by (symmetry; rewrite !andb_true_iff, !Z.leb_le, !Z.ltb_lt; lia).
  reflexivity.
Qed.

Lemma make_move_rejected_same g u y x :
  success (make_move g u y x).1 = false -> (make_move g u y x).2 = g.
Proof.
  destruct (first_failure (validations g u y x)) as [e|] eqn:E.
  - by rewrite (make_move_rejected _ _ _ _ _ E).
  - destruct (make_move_accepted _ _ _ _ E) as [Hs _]. congruence.
Qed.

(** The cells after an accepted move. *)
Lemma moved_cells g u y x :
  success (make_move g u y x).1 = true ->
  at_ (board_ g) y x = None /\
  at_ (board_ (make_move g u y x).2) y x = Some (turn g) /\
  (forall i j, 0 <= i < 3 -> 0 <= j < 3 -> (i, j) <> (y, x) ->
               at_ (board_ (make_move g u y x).2) i j = at_ (board_ g) i j).
Proof.
  intros Hs.
  destruct (make_move_success _ _ _ _ Hs) as (_ & _ & Hy & Hx & Hc & ->).
  split; [done|]. split.
  { rewrite at_put by done. by rewrite decide_True. }
  intros i j Hi Hj Hne. rewrite at_put by done.
  rewrite decide_False; [done|]. intros [-> ->]. done.
Qed.

(** The counts after an accepted move. *)
Lemma moved_counts g u y x :
  success (make_move g u y x).1 = true ->
  filled (board_ (make_move g u y x).2) = S (filled (board_ g)) /\
  marks (turn g) (board_ (make_move g u y x).2) = S (marks (turn g) (board_ g)) /\
  marks (other (turn g)) (board_ (make_move g u y x).2)
  = marks (other (turn g)) (board_ g).
Proof.
  intros Hs.
  destruct (make_move_success _ _ _ _ Hs) as (_ & _ & Hy & Hx & Hc & ->).
  unfold filled, marks.
  pose proof (count_put (fun c => bool_decide (c ≠ None)) (board_ g) y x
                (Some (turn g)) Hy Hx) as H1.
  pose proof (count_put (fun c => bool_decide (c = Some (turn g))) (board_ g)
                y x (Some (turn g)) Hy Hx) as H2.
  pose proof (count_put (fun c => bool_decide (c = Some (other (turn g))))
                (board_ g) y x (Some (turn g)) Hy Hx) as H3.
  rewrite Hc in H1, H2, H3.
  repeat match goal with
         | H : context [count ?P ?b] |- _ =>
             let n := fresh "n" in set (n := count P b) in *; clearbody n
         end.
  destruct (turn g); cbn in H1, H2, H3;
    repeat case_bool_decide; try done; lia.
Qed.

(** An accepted move fills exactly one empty cell, with the mark whose
    turn it is: the target cell holds that mark, every other cell is as
    before, and the counts of filled cells and of that mark grow by one
    while the count of the other mark stays. *)
Theorem accepted_move_fills_one_cell g client_id row col :
  success (make_move g client_id row col).1 = true ->
  let b := board_ g in
  let b' := board_ (make_move g client_id row col).2 in
  at_ b row col = None /\
  at_ b' row col = Some (turn g) /\
  (forall i j, 0 <= i < 3 -> 0 <= j < 3 -> (i, j) <> (row, col) ->
               at_ b' i j = at_ b i j) /\
  filled b' = S (filled b) /\
  marks (turn g) b' = S (marks (turn g) b) /\
  marks (other (turn g)) b' = marks (other (turn g)) b.
Proof.
  intros Hs. cbv zeta.
  destruct (moved_cells _ _ _ _ Hs) as (H1 & H2 & H3).
  destruct (moved_counts _ _ _ _ Hs) as (H4 & H5 & H6).
  repeat split; assumption.
Qed.

(** The move of ['X'] that completes the top row. *)
Lemma accepted_move_fills_one_cell_witness :
  at_ (board_ top_row_game) 0 2 = None /\
  at_ (board_ (make_move top_row_game "a" 0 2).2) 0 2 = Some (turn top_row_game).
Proof.
  destruct (accepted_move_fills_one_cell top_row_game "a" 0 2) as (H1 & H2 & _).
  - vm_compute. reflexivity.
  - split; [exact H1|exact H2].
Defined.

Lemma run_call_cell g c i j m :
  0 <= i < 3 -> 0 <= j < 3 ->
  at_ (board_ g) i j = Some m -> at_ (board_ (run_call g c)) i j = Some m.
Proof.
  intros Hi Hj H. destruct c as [u n|u y x]; cbn.
  - unfold add_player2. by destruct (players_O g).
  - destruct (success (make_move g u y x).1) eqn:Hs.
    + destruct (moved_cells _ _ _ _ Hs) as (Hc & _ & Hrest).
      rewrite Hrest; [done..|]. intros [= -> ->]. congruence.
    + by rewrite make_move_rejected_same.
Qed.

(** No call ever erases or overwrites a mark: a cell that holds a mark
    holds the same mark after any sequence of calls. *)
Theorem marks_are_never_overwritten g cs i j m :
  0 <= i < 3 -> 0 <= j < 3 ->
  at_ (board_ g) i j = Some m ->
  at_ (board_ (run_calls g cs)) i j = Some m.
Proof.
  intros Hi Hj. revert g. induction cs as [|c cs IH]; intros g H; [done|].
  unfold run_calls. cbn. apply IH. by apply run_call_cell.
Qed.

(** After the top row is won, the centre still holds the ['O'] put
    there, whatever is tried next. *)
Lemma marks_are_never_overwritten_witness :
  at_ (board_ (run_calls won_game [MakeMove "b" 1 1; MakeMove "a" 1 1])) 1 1
  = Some O.
Proof.
  apply (marks_are_never_overwritten won_game); [lia|lia|].
  vm_compute. reflexivity.
Defined.

(** However many calls are made, the moves accepted and the cells
    already filled never add up to more than nine: a session accepts at
    most nine moves. *)
Theorem at_most_nine_moves g cs :
  (moves_accepted g cs + filled (board_ g) <= 9)%nat /\
  forall gid u n, (moves_accepted (init gid u n) cs <= 9)%nat.
Proof.
  assert (H : forall g, (moves_accepted g cs + filled (board_ g) <= 9)%nat).
  { clear g. induction cs as [|c cs IH]; intros g.
    - cbn [moves_accepted]. apply (count_le _ (board_ g)).
    - cbn [moves_accepted]. specialize (IH (run_call g c)).
      destruct c as [u n|u y x].
      + assert (board_ (run_call g (AddPlayer2 u n)) = board_ g) as E.
        { cbn. unfold add_player2. by destruct (players_O g). }
        rewrite E in IH. lia.
      + cbn [run_call] in *.
        destruct (success (make_move g u y x).1) eqn:Hs.
        * destruct (moved_counts _ _ _ _ Hs) as (Hf & _).
          rewrite Hf in IH. lia.
        * rewrite make_move_rejected_same in IH |- * by done. lia. }
  split; [apply H|]. intros gid u n. specialize (H (init gid u n)). lia.
Qed.

(** [add_player2] and [make_move] leave the identifier and the seats. *)
Lemma make_move_seats g u y x :
  game_id (make_move g u y x).2 = game_id g /\
  players_X (make_move g u y x).2 = players_X g /\
  players_O (make_move g u y x).2 = players_O g.
Proof.
  destruct (success (make_move g u y x).1) eqn:Hs.
  - rewrite (make_move_accepted_result _ _ _ _ Hs). cbv zeta.
    repeat case_match; done.
  - by rewrite make_move_rejected_same.
Qed.

Lemma add_player2_seats g u n :
  game_id (add_player2 g u n).2 = game_id g /\
  players_X (add_player2 g u n).2 = players_X g /\
  board_ (add_player2 g u n).2 = board_ g /\
  turn (add_player2 g u n).2 = turn g /\
  winner (add_player2 g u n).2 = winner g /\
  (forall p, players_O g = Some p -> add_player2 g u n = (false, g)) /\
  (players_O g = None ->
   (add_player2 g u n).1 = true /\
   players_O (add_player2 g u n).2 = Some {| uuid := u; name := n |} /\
   status (add_player2 g u n).2 = active).
Proof.
  unfold add_player2. destruct (players_O g); cbn; repeat split; done.
Qed.

Lemma run_call_seats g c :
  game_id (run_call g c) = game_id g /\
  players_X (run_call g c) = players_X g /\
  (forall p, players_O g = Some p -> players_O (run_call g c) = Some p).
Proof.
  destruct c as [u n|u y x]; cbn [run_call].
  - destruct (add_player2_seats g u n) as (H1 & H2 & _ & _ & _ & H3 & _).
    repeat split; try done. intros p Hp. by rewrite (H3 p Hp).
  - destruct (make_move_seats g u y x) as (H1 & H2 & H3).
    repeat split; try done. intros p Hp. by rewrite H3.
Qed.

(** The identifier of a session and its first seat never change, and
    the second seat, once taken, keeps its occupant: no sequence of calls
    replaces a player. *)
Theorem seats_are_fixed g cs :
  game_id (run_calls g cs) = game_id g /\
  players_X (run_calls g cs) = players_X g /\
  (forall p, players_O g = Some p -> players_O (run_calls g cs) = Some p).
Proof.
  revert g. induction cs as [|c cs IH]; intros g; [done|].
  change (run_calls g (c :: cs)) with (run_calls (run_call g c) cs).
  destruct (IH (run_call g c)) as (H1 & H2 & H3).
  destruct (run_call_seats g c) as (E1 & E2 & E3).
  rewrite H1, H2, E1, E2. repeat split; try done.
  intros p Hp. apply H3, E3, Hp.
Qed.

(** However many joins are tried, at most one is accepted, and none once
    the second seat is taken. *)
Theorem joined_at_most_once g cs :
  (joins_accepted g cs <= 1)%nat /\
  (players_O g <> None -> joins_accepted g cs = 0%nat).
Proof.
  assert (H0 : forall cs g, players_O g <> None -> joins_accepted g cs = 0%nat).
  { clear g cs. intros cs. induction cs as [|c cs IH]; intros g Hg; [done|].
    destruct (players_O g) as [p|] eqn:Hp; [|done].
    cbn [joins_accepted].
    rewrite IH by (destruct (run_call_seats g c) as (_ & _ & H);
                   by rewrite (H p Hp)).
    destruct c as [u n|u y x]; [|done].
    destruct (add_player2_seats g u n) as (_ & _ & _ & _ & _ & H & _).
    by rewrite (H p Hp). }
  split; [|apply H0].
  revert g. induction cs as [|c cs IH]; intros g; [cbn; lia|].
  cbn [joins_accepted]. destruct c as [u n|u y x].
  - destruct (players_O g) as [p|] eqn:Hp.
    + destruct (add_player2_seats g u n) as (_ & _ & _ & _ & _ & H & _).
      rewrite (H p Hp). cbn [fst]. specialize (IH (run_call g (AddPlayer2 u n))).
      lia.
    + destruct (add_player2_seats g u n) as (_ & _ & _ & _ & _ & _ & H).
      destruct (H Hp) as (-> & Hs & _).
      rewrite H0; [lia|]. cbn [run_call]. by rewrite Hs.
  - specialize (IH (run_call g (MakeMove u y x))). lia.
Qed.

(** Every cell of a line of the rules is on the board. *)
Lemma rule_lines_in_range l i j :
  l ∈ rule_lines -> (i, j) ∈ l -> 0 <= i < 3 /\ 0 <= j < 3.
Proof.
  intros Hl Hin. unfold rule_lines in Hl.
  repeat (apply elem_of_cons in Hl as [->|Hl]);
    [..|by apply elem_of_nil in Hl];
    repeat (apply elem_of_cons in Hin as [[= -> ->]|Hin]);
    try lia; by apply elem_of_nil in Hin.
Qed.

Lemma occupies_spec b m l :
  occupies b m l = true <-> forall i j, (i, j) ∈ l -> at_ b i j = Some m.
Proof.
  unfold occupies. rewrite forallb_forall. split.
  - intros H i j Hin. apply list_elem_of_In in Hin.
    specialize (H _ Hin). cbn in H. by apply bool_decide_eq_true in H.
  - intros H [i j] Hin. apply bool_decide_eq_true, H. by apply list_elem_of_In.
Qed.

(** A line that a new mark completes for [w] was complete before unless
    [w] is the new mark. *)
Lemma occupies_put b y x m w l :
  l ∈ rule_lines -> 0 <= y < 3 -> 0 <= x < 3 -> w <> m ->
  occupies (put b y x (Some m)) w l = true -> occupies b w l = true.
Proof.
  intros Hl Hy Hx Hne. rewrite !occupies_spec. intros H i j Hin.
  destruct (rule_lines_in_range l i j Hl Hin) as [Hi Hj].
  specialize (H i j Hin). rewrite at_put in H by done.
  case_decide; [congruence|done].
Qed.

(** On a board without a full line, the mark that completes one is the
    mark just put. *)
Lemma check_winner_put b y x m w :
  0 <= y < 3 -> 0 <= x < 3 ->
  check_winner b = None -> check_winner (put b y x (Some m)) = Some w -> w = m.
Proof.
  intros Hy Hx Hn Hw. rewrite check_winner_rule in Hn, Hw.
  destruct (decide (w = m)) as [|Hne]; [done|exfalso].
  apply first_owner_Some in Hw as (l & Hl & Ho).
  apply (occupies_put _ _ _ _ _ _ Hl Hy Hx Hne) in Ho.
  pose proof (proj1 (first_owner_None _ _) Hn l w Hl). congruence.
Qed.

#[local] Arguments marks : simpl never.
#[local] Arguments filled : simpl never.
#[local] Arguments check_winner : simpl never.
#[local] Arguments all_filled : simpl never.

Lemma consistent_make_move g u y x :
  consistent g -> consistent (make_move g u y x).2.
Proof.
  intros Hc. destruct (success (make_move g u y x).1) eqn:Hs;
    [|by rewrite make_move_rejected_same].
  destruct (make_move_success _ _ _ _ Hs) as (Hst & _ & Hy & Hx & _ & Hb).
  destruct (moved_counts _ _ _ _ Hs) as (_ & Hm & Ho).
  rewrite Hb in Hm, Ho.
  destruct Hc as (HX & _ & HO & Hact & _).
  destruct (Hact Hst) as (Hcw & _ & Hw & Hmarks).
  assert (HO' : players_O g <> None) by (apply HO; by rewrite Hst).
  rewrite (make_move_accepted_result _ _ _ _ Hs). cbv zeta.
  set (b' := put (board_ g) y x (Some (turn g))) in *.
  destruct (check_winner b') as [w|] eqn:Ew; [|destruct (all_filled b') eqn:Ef];
    unfold consistent; cbn; rewrite ?Hst; (split; [done|]);
    (split; [done|]); (split; [done|]); (split; [try done|try done]).
  - intros _. split; [done|]. split; [done|].
    destruct (turn g); cbn in Ho, Hm, Hmarks; lia.
  - intros _. split; [congruence|]. split; [done|].
    destruct (turn g); cbn in Ho, Hm, Hmarks; lia.
  - intros _. split; [done|]. split; [done|]. split; [done|].
    destruct (turn g); cbn in Ho, Hm, Hmarks |- *; lia.
Qed.

Lemma consistent_add_player2 g u n :
  consistent g -> consistent (add_player2 g u n).2.
Proof.
  intros Hc. unfold add_player2.
  destruct (players_O g) as [p|] eqn:Hp; [done|]. cbn [snd].
  destruct Hc as (HX & Hwait & HO & _).
  destruct (decide (status g = waiting)) as [Hst|Hst];
    [|by destruct (HO Hst)].
  destruct (Hwait Hst) as (_ & Hb & Ht & Hw).
  unfold consistent; cbn. rewrite Hb, Ht, Hw.
  repeat split; try done.
Qed.

Lemma consistent_init gid u n : consistent (init gid u n).
Proof. unfold consistent; cbn. repeat split; done. Qed.

Lemma reachable_consistent_aux g : reachable g -> consistent g.
Proof.
  induction 1;
    auto using consistent_init, consistent_add_player2, consistent_make_move.
Qed.

(** Every session the class produces is consistent: a waiting session
    is untouched, a session under way has two players, no full line, a
    free cell and as many ['X'] as ['O'] when ['X'] is to move (one more
    when ['O'] is), and a finished session records as winner exactly the
    mark [check_winner] finds, its board being full if there is none. *)
Theorem reachable_consistent g : reachable g -> consistent g.
Proof.
  induction 1 as [gid u n|g u n _ IH|g u y x _ IH].
  - apply consistent_init.
  - by apply consistent_add_player2.
  - by apply consistent_make_move.
Qed.

(** The session in which ['X'] has completed the top row. *)
Lemma reachable_consistent_witness :
  consistent
    (run_calls (init "g" "a" (PStr "A"))
       [AddPlayer2 "b" (PStr "B"); MakeMove "a" 0 0; MakeMove "b" 1 1;
        MakeMove "a" 0 1; MakeMove "b" 2 2; MakeMove "a" 0 2]).
Proof.
  exact (reachable_consistent _
           (reachable_run_calls
              [AddPlayer2 "b" (PStr "B"); MakeMove "a" 0 0; MakeMove "b" 1 1;
               MakeMove "a" 0 1; MakeMove "b" 2 2; MakeMove "a" 0 2]
              (init "g" "a" (PStr "A")) (reach_init "g" "a" (PStr "A")))).
Defined.

(** A winning move wins for the player who made it: in a session the
    class has produced, the winner an accepted move reports is the mark
    of the mover, whose turn it was, and the session records it and is
    finished. *)
Theorem winner_is_the_mover g client_id row col b next go w tie g' :
  reachable g ->
  make_move g client_id row col = (Moved b next go (Some w) tie, g') ->
  w = turn g /\ get_player_piece g client_id = Some w /\
  winner g' = Some w /\ status g' = finished /\ go = true /\ tie = false.
Proof.
  intros Hr Hm.
  assert (Hs : success (make_move g client_id row col).1 = true)
    by (by rewrite Hm).
  destruct (make_move_success _ _ _ _ Hs) as (Hst & Hp & Hy & Hx & _ & _).
  destruct (reachable_consistent_aux g Hr) as (_ & _ & _ & Hact & _).
  destruct (Hact Hst) as (Hcw & _).
  rewrite (make_move_accepted_result _ _ _ _ Hs) in Hm. cbv zeta in Hm.
  destruct (check_winner (put (board_ g) row col (Some (turn g))))
    as [w'|] eqn:Ew.
  - injection Hm as <- <- <- <- <- <-.
    apply (check_winner_put _ _ _ _ _ Hy Hx Hcw) in Ew as ->.
    by rewrite Hp.
  - destruct (all_filled (put (board_ g) row col (Some (turn g))));
      discriminate.
Qed.

(** ['X'] completes the top row. *)
Lemma winner_is_the_mover_witness :
  X = turn top_row_game /\ get_player_piece top_row_game "a" = Some X.
Proof.
  destruct (winner_is_the_mover top_row_game "a" 0 2 _ _ _ X _ _
              (reachable_run_calls
                 [AddPlayer2 "b" (PStr "B"); MakeMove "a" 0 0; MakeMove "b" 1 1;
                  MakeMove "a" 0 1; MakeMove "b" 2 2]
                 (init "g" "a" (PStr "A")) (reach_init "g" "a" (PStr "A")))
              top_row_move) as (H1 & H2 & _).
  split; [exact H1|exact H2].
Defined.

(** With both seats under one identifier the player is ['X']. *)
Lemma shared_seat_piece g p q u :
  players_X g = Some p -> players_O g = Some q -> uuid p = uuid q ->
  get_player_piece g u <> Some O.
Proof.
  intros HX HO E. unfold get_player_piece. rewrite HX, HO, E.
  by destruct (String.eqb (uuid q) u).
Qed.

(** Where no move is accepted and the second seat is taken, no call
    changes the session. *)
Lemma no_moves g cs :
  (forall u y x, success (make_move g u y x).1 = false) ->
  players_O g <> None -> moves_accepted g cs = 0%nat.
Proof.
  intros Hno HO. induction cs as [|c cs IH]; [done|].
  cbn [moves_accepted]. destruct c as [u n|u y x]; cbn [run_call].
  - destruct (players_O g) as [q|] eqn:Hq; [|done].
    destruct (add_player2_seats g u n) as (_ & _ & _ & _ & _ & H & _).
    by rewrite (H q Hq).
  - rewrite Hno, make_move_rejected_same by apply Hno. exact IH.
Qed.

(** [get_player_piece] looks at the first seat first, so a session
    whose two seats hold the same identifier has no player for ['O']:
    it accepts at most one move. *)
Theorem shared_identifier_stalls g p q cs :
  players_X g = Some p -> players_O g = Some q -> uuid p = uuid q ->
  (moves_accepted g cs <= 1)%nat.
Proof.
  intros HX HO E. induction cs as [|c cs IH]; [cbn; lia|].
  cbn [moves_accepted]. destruct c as [u n|u y x]; cbn [run_call].
  - destruct (add_player2_seats g u n) as (_ & _ & _ & _ & _ & H & _).
    by rewrite (H q HO).
  - destruct (success (make_move g u y x).1) eqn:Hs;
      [|by rewrite make_move_rejected_same].
    rewrite no_moves; [lia| |].
    + intros u' y' x'.
      destruct (success (make_move (make_move g u y x).2 u' y' x').1) eqn:Hs';
        [exfalso|done].
      destruct (make_move_success _ _ _ _ Hs) as (_ & Hp & _).
      destruct (make_move_success _ _ _ _ Hs') as (Hst' & Hp' & _).
      destruct (make_move_seats g u y x) as (_ & HX' & HO').
      assert (Ht : turn g = X).
      { destruct (turn g); [done|].
        by destruct (shared_seat_piece g p q u HX HO E). }
      rewrite HX in HX'. rewrite HO in HO'.
      apply (shared_seat_piece _ p q u' HX' HO' E). rewrite Hp'.
      revert Hst'. rewrite (make_move_accepted_result _ _ _ _ Hs). cbv zeta.
      rewrite Ht. repeat case_match; cbn; done.
    + destruct (make_move_seats g u y x) as (_ & _ & ->). by rewrite HO.
Qed.

(** A player who sits on both seats moves once and is then refused. *)
Lemma shared_identifier_stalls_witness :
  (moves_accepted (add_player2 (init "g" "a" (PStr "A")) "a" (PStr "A")).2
     [MakeMove "a" 0 0; MakeMove "a" 1 1; MakeMove "a" 0 1] <= 1)%nat.
Proof.
  apply (shared_identifier_stalls _ {| uuid := "a"; name := PStr "A" |}
           {| uuid := "a"; name := PStr "A" |}); reflexivity.
Defined.

End SessionExtra.

(** * Further properties of the coordinator *)
Module ServerExtra.
Import Py TicTacToeGame Server Observations LockDiscipline Outcomes.
Import SessionProps SessionExtra ServerProps.
Local Open Scope coro_scope.

#[local] Arguments broadcast_available_games : simpl never.
#[local] Arguments broadcast_game_message : simpl never.
#[local] Arguments send_message_to_client : simpl never.
#[local] Arguments get_available_games_list : simpl never.
#[local] Arguments cleanup_game : simpl never.
#[local] Arguments cleanup_client : simpl never.
#[local] Arguments handle_register : simpl never.
#[local] Arguments handle_create_game : simpl never.
#[local] Arguments handle_join_game : simpl never.
#[local] Arguments player_uuids : simpl never.
#[local] Arguments lobby_clients : simpl never.
#[local] Arguments open_games : simpl never.
#[local] Arguments reset_players : simpl never.
#[local] Arguments set_current_game : simpl never.

(** ** The lock is released on every way out *)

Lemma keeps_lock_ret {A} (a : A) : keeps_lock (ret a).
Proof. by intros w. Qed.

Lemma keeps_lock_read {A} (f : world -> A) : keeps_lock (read f).
Proof. by intros w. Qed.

Lemma keeps_lock_raise {A} e : keeps_lock (@raise A e).
Proof. by intros w. Qed.

Lemma keeps_lock_lookup_key {V} (m : world -> gmap string V) k :
  keeps_lock (lookup_key m k).
Proof. intros w. unfold lookup_key. by destruct (dict_get (m w) k). Qed.

Lemma keeps_lock_draw : keeps_lock draw.
Proof. by intros w. Qed.

Lemma keeps_lock_update f :
  (forall w, locked (f w) = locked w) -> keeps_lock (update f).
Proof. intros H w. apply H. Qed.

Lemma keeps_lock_emit e : keeps_lock (emit e).
Proof. by intros w. Qed.

Lemma keeps_lock_bind {A B} (m : M A) (k : A -> M B) :
  keeps_lock m -> (forall a, keeps_lock (k a)) -> keeps_lock (bind m k).
Proof.
  intros Hm Hk w. unfold bind. specialize (Hm w).
  destruct (m w) as [a w'|e w'|w']; [|done..].
  specialize (Hk a w'). destruct (k a w'); congruence.
Qed.

Lemma keeps_lock_with_lock {A} (body : M A) :
  keeps_lock body -> keeps_lock (with_lock body).
Proof.
  intros Hb w. unfold with_lock. destruct (locked w) eqn:Hl; [done|].
  specialize (Hb (set_locked true (log [Acquire] w))).
  destruct (body _); cbn; done.
Qed.

Lemma keeps_lock_catch {A} (body : M A) :
  keeps_lock body -> keeps_lock (catch body).
Proof. intros Hb w. unfold catch. specialize (Hb w). by destruct (body w). Qed.

Lemma keeps_lock_for_each {A} (xs : list A) (body : A -> M unit) :
  (forall x, keeps_lock (body x)) -> keeps_lock (for_each xs body).
Proof.
  intros Hb. induction xs as [|x xs IH]; [apply keeps_lock_ret|].
  apply keeps_lock_bind; [apply Hb|intros _; apply IH].
Qed.

Create HintDb locks.
#[local] Hint Resolve keeps_lock_ret keeps_lock_read keeps_lock_raise
  keeps_lock_lookup_key keeps_lock_draw keeps_lock_emit : locks.

(** Steps through a coroutine, one construct at a time. *)
Ltac locks_step :=
  first
    [ solve [auto with locks]
    | apply keeps_lock_with_lock
    | apply keeps_lock_catch
    | apply keeps_lock_for_each; intros ?
    | apply keeps_lock_bind; [|intros ?]
    | match goal with
      | |- keeps_lock (match ?x with _ => _ end) => destruct x
      | |- keeps_lock (let '(_, _) := ?x in _) => destruct x
      end
    | apply keeps_lock_update; intros ?; cbn; repeat case_match; reflexivity
    | intros ?; cbn; repeat case_match; simplify_eq; done ].

Ltac locks := repeat locks_step.

Lemma keeps_lock_send_message ws m : keeps_lock (send_message ws m).
Proof. apply keeps_lock_emit. Qed.

Lemma keeps_lock_send_message_to_client u m :
  keeps_lock (send_message_to_client u m).
Proof. unfold send_message_to_client, send_message. locks. Qed.

Lemma keeps_lock_get_available_games_list : keeps_lock get_available_games_list.
Proof. unfold get_available_games_list. locks. Qed.
#[local] Hint Resolve keeps_lock_send_message keeps_lock_send_message_to_client
  keeps_lock_get_available_games_list : locks.

Lemma keeps_lock_broadcast_available_games : keeps_lock broadcast_available_games.
Proof. unfold broadcast_available_games. locks. Qed.

Lemma keeps_lock_broadcast_game_message gid m :
  keeps_lock (broadcast_game_message gid m).
Proof. unfold broadcast_game_message. locks. Qed.
#[local] Hint Resolve keeps_lock_broadcast_available_games
  keeps_lock_broadcast_game_message : locks.

Lemma keeps_lock_handle_register ws cu name :
  keeps_lock (handle_register ws cu name).
Proof. unfold handle_register. locks. Qed.

Lemma keeps_lock_cleanup_game k : keeps_lock (cleanup_game k).
Proof. unfold cleanup_game. locks. Qed.
#[local] Hint Resolve keeps_lock_handle_register keeps_lock_cleanup_game : locks.

Lemma keeps_lock_cleanup_client u : keeps_lock (cleanup_client u).
Proof. unfold cleanup_client, cleanup_client_locked. locks. Qed.

Lemma keeps_lock_handle_create_game u : keeps_lock (handle_create_game u).
Proof. unfold handle_create_game. locks. Qed.

Lemma keeps_lock_handle_join_game u k : keeps_lock (handle_join_game u k).
Proof. unfold handle_join_game. locks. Qed.
#[local] Hint Resolve keeps_lock_cleanup_client keeps_lock_handle_create_game
  keeps_lock_handle_join_game : locks.

Lemma keeps_lock_handle_make_move int u k y x :
  keeps_lock (handle_make_move int u k y x).
Proof. unfold handle_make_move. locks. Qed.
#[local] Hint Resolve keeps_lock_handle_make_move : locks.

Lemma keeps_lock_process_message int ws frame cuid :
  keeps_lock (process_message int ws frame cuid).
Proof. unfold process_message. locks. Qed.

Lemma keeps_lock_finally_clause cuid : keeps_lock (finally_clause cuid).
Proof. unfold finally_clause. locks. Qed.
#[local] Hint Resolve keeps_lock_process_message keeps_lock_finally_clause : locks.

Lemma keeps_lock_first_message ws frame : keeps_lock (first_message ws frame).
Proof. unfold first_message. locks. Qed.

Lemma keeps_lock_next_message int ws u frame :
  keeps_lock (next_message int ws u frame).
Proof. unfold next_message. locks. Qed.
#[local] Hint Resolve keeps_lock_first_message keeps_lock_next_message : locks.

Lemma keeps_lock_run_op int o : keeps_lock (run_op int o).
Proof. destruct o; unfold run_op, disconnect; locks. Qed.

(** A handler that comes to an end, by returning or by an exception,
    leaves [STATE_LOCK] as it found it: every [async with] block it
    entered has been left.  A handler that does not come to an end
    leaves the lock held. *)
Theorem lock_released_on_every_exit int o w :
  match run_op int o w with
  | Done _ w' | Raised _ w' => locked w' = locked w
  | Blocked w' => locked w' = true
  end.
Proof. apply keeps_lock_run_op. Qed.

Lemma run_ops_cons int o os w :
  run_ops int (o :: os) w = run_ops int os (world_of (run_op int o w)).
Proof. reflexivity. Qed.

Lemma run_ops_app int os1 os2 w :
  run_ops int (os1 ++ os2) w = run_ops int os2 (run_ops int os1 w).
Proof. unfold run_ops. apply foldl_app. Qed.

Lemma held_stays_held int os w :
  locked w = true -> locked (run_ops int os w) = true.
Proof.
  revert w. induction os as [|o os IH]; intros w Hl; [done|].
  rewrite run_ops_cons. apply IH.
  pose proof (keeps_lock_run_op int o w) as H.
  destruct (run_op int o w); cbn; congruence.
Qed.

(** Between handlers the lock is free exactly as long as every handler
    so far has come to an end; once one has not, the lock is held for
    good. *)
Theorem lock_free_until_a_handler_hangs int os w :
  locked w = false ->
  (locked (run_ops int os w) = false <-> all_end int os w = true) /\
  (forall more, locked (run_ops int os w) = true ->
                locked (run_ops int (os ++ more) w) = true).
Proof.
  intros Hl. split.
  - revert w Hl. induction os as [|o os IH]; intros w Hl; [done|].
    rewrite run_ops_cons. cbn [all_end].
    pose proof (keeps_lock_run_op int o w) as H.
    destruct (run_op int o w) as [a w'|e w'|w'] eqn:E; cbn.
    + apply IH. congruence.
    + apply IH. congruence.
    + rewrite held_stays_held by done. done.
  - intros more H. rewrite run_ops_app. by apply held_stays_held.
Qed.

(** The lock is free after the two registrations, the opening of a
    session and the join. *)
Lemma lock_free_until_a_handler_hangs_witness :
  all_end Scenarios.no_int Scenarios.playing_ops (start Scenarios.fresh_prefix)
  = true.
Proof.
  destruct (lock_free_until_a_handler_hangs Scenarios.no_int
              Scenarios.playing_ops (start Scenarios.fresh_prefix) eq_refl)
    as [[H _] _].
  apply H. vm_compute. reflexivity.
Defined.

(** ** A held lock stops everything *)

Lemma waits_with_lock {A} (body : M A) : waits (with_lock body).
Proof. intros w Hl. unfold with_lock. by rewrite Hl. Qed.

Lemma waits_bind {A B} (m : M A) (k : A -> M B) : waits m -> waits (bind m k).
Proof. intros Hm w Hl. unfold bind. by rewrite (Hm w Hl). Qed.

Lemma frozen_waits {A} (m : M A) : waits m -> frozen m.
Proof. intros Hm w Hl. exists []. by rewrite (Hm w Hl), log_nil. Qed.

Lemma frozen_ret {A} (a : A) : frozen (ret a).
Proof. intros w _. exists []. by rewrite log_nil. Qed.

Lemma frozen_read {A} (f : world -> A) : frozen (read f).
Proof. intros w _. exists []. by rewrite log_nil. Qed.

Lemma frozen_raise {A} e : frozen (@raise A e).
Proof. intros w _. exists []. by rewrite log_nil. Qed.

Lemma frozen_emit e : frozen (emit e).
Proof. intros w _. by exists [e]. Qed.

Lemma frozen_send_message ws m : frozen (send_message ws m).
Proof. apply frozen_emit. Qed.

Lemma frozen_bind {A B} (m : M A) (k : A -> M B) :
  frozen m -> (forall a, frozen (k a)) -> frozen (bind m k).
Proof.
  intros Hm Hk w Hl. unfold bind. destruct (Hm w Hl) as [e1 E1].
  destruct (m w) as [a w'|e w'|w']; cbn in E1; subst w'; [|by exists e1..].
  destruct (Hk a (log e1 w) Hl) as [e2 E2]. exists (e1 ++ e2).
  by rewrite E2, log_log.
Qed.

Lemma frozen_catch {A} (body : M A) : frozen body -> frozen (catch body).
Proof.
  intros Hb w Hl. unfold catch. destruct (Hb w Hl) as [e1 E1].
  exists e1. by destruct (body w).
Qed.

Create HintDb held.
#[local] Hint Resolve frozen_ret frozen_read frozen_raise frozen_emit
  frozen_send_message : held.

Ltac waits_now := repeat first [apply waits_with_lock | apply waits_bind].

Ltac held_step :=
  first
    [ solve [auto with held]
    | apply frozen_waits; solve [waits_now]
    | apply frozen_catch
    | apply frozen_bind; [|intros ?]
    | match goal with
      | |- frozen (match ?x with _ => _ end) => destruct x
      end ].

Ltac held := repeat held_step.

Lemma waits_send_message_to_client u m : waits (send_message_to_client u m).
Proof. unfold send_message_to_client. waits_now. Qed.

Lemma waits_broadcast_available_games : waits broadcast_available_games.
Proof. unfold broadcast_available_games, get_available_games_list. waits_now. Qed.

Lemma waits_cleanup_client u : waits (cleanup_client u).
Proof. unfold cleanup_client. waits_now. Qed.

Lemma waits_handle_create_game u : waits (handle_create_game u).
Proof. unfold handle_create_game. waits_now. Qed.

Lemma waits_handle_join_game u k : waits (handle_join_game u k).
Proof. unfold handle_join_game. waits_now. Qed.

Lemma waits_handle_make_move int u k y x : waits (handle_make_move int u k y x).
Proof. unfold handle_make_move. waits_now. Qed.

Lemma waits_get_available_games_list : waits get_available_games_list.
Proof. unfold get_available_games_list. waits_now. Qed.

Lemma frozen_handle_register ws cu name : frozen (handle_register ws cu name).
Proof. unfold handle_register. held. Qed.

Lemma frozen_finally_clause cuid : frozen (finally_clause cuid).
Proof. unfold finally_clause. held. Qed.
#[local] Hint Resolve frozen_handle_register frozen_finally_clause : held.

Lemma frozen_process_message int ws frame cuid :
  frozen (process_message int ws frame cuid).
Proof.
  unfold process_message. held.
Qed.
#[local] Hint Resolve frozen_process_message : held.

Lemma frozen_first_message ws frame : frozen (first_message ws frame).
Proof. unfold first_message. held. Qed.

Lemma frozen_next_message int ws u frame : frozen (next_message int ws u frame).
Proof. unfold next_message. held. Qed.
#[local] Hint Resolve frozen_first_message frozen_next_message : held.

Lemma frozen_run_op int o : frozen (run_op int o).
Proof.
  destruct o; unfold run_op, disconnect; held.
Qed.

Lemma frozen_run_ops int os w :
  locked w = true -> exists evs, run_ops int os w = log evs w.
Proof.
  revert w. induction os as [|o os IH]; intros w Hl.
  { exists []. by rewrite log_nil. }
  rewrite run_ops_cons. destruct (frozen_run_op int o w Hl) as [e1 E1].
  rewrite E1. destruct (IH (log e1 w) Hl) as [e2 E2].
  exists (e1 ++ e2). by rewrite E2, log_log.
Qed.

(** While the lock is held nothing moves: whatever steps are run, the
    registry, the directories and the random source stay as they are and
    the lock stays held, the only trace being replies sent without the
    lock.  Every delivery by identifier, every departure, every periodic
    broadcast and every valid registration waits for ever. *)
Theorem held_lock_freezes_the_server int os w :
  locked w = true ->
  (exists evs, run_ops int os w = log evs w) /\
  (forall u m, send_message_to_client u m w = Blocked w) /\
  (forall u, u <> "" -> disconnect u w = Blocked w) /\
  run_op int PeriodicBroadcast w = Blocked w /\
  (forall ws u name, u <> "" -> truthy name = true ->
                     handle_register ws (PStr u) name w = Blocked w).
Proof.
  intros Hl. split; [by apply frozen_run_ops|].
  split; [intros u m; by apply waits_send_message_to_client|].
  split.
  { intros u Hu. rewrite disconnect_cleanup by done.
    by apply waits_cleanup_client. }
  split.
  { unfold run_op, bind, catch.
    by rewrite (waits_broadcast_available_games w Hl). }
  intros ws u name Hu Hn. unfold handle_register. cbn [truthy].
  apply String.eqb_neq in Hu. rewrite Hu, Hn. cbn [negb orb].
  by apply (waits_bind _ _ (waits_with_lock _)).
Qed.

(** After the join of an unknown session has hung, a departure and a
    periodic broadcast change nothing. *)
Lemma held_lock_freezes_the_server_witness :
  exists evs,
    run_ops Scenarios.no_int [Disconnect "a"; PeriodicBroadcast]
      (world_of (process_message Scenarios.no_int 2%nat
                   (Scenarios.join_frame "b" "deadbeef") (Some "b")
                   Scenarios.two_in_lobby))
    = log evs
        (world_of (process_message Scenarios.no_int 2%nat
                     (Scenarios.join_frame "b" "deadbeef") (Some "b")
                     Scenarios.two_in_lobby)).
Proof.
  refine (proj1 (held_lock_freezes_the_server Scenarios.no_int
                   [Disconnect "a"; PeriodicBroadcast] _ _)).
  vm_compute. reflexivity.
Defined.

(** ** Handlers that always come to an end *)

Lemma plain_ret {A} (a : A) : plain (ret a).
Proof. by intros w. Qed.

Lemma plain_read {A} (f : world -> A) : plain (read f).
Proof. by intros w. Qed.

Lemma plain_raise {A} e : plain (@raise A e).
Proof. by intros w. Qed.

Lemma plain_lookup_key {V} (m : world -> gmap string V) k :
  plain (lookup_key m k).
Proof. intros w. unfold lookup_key. by destruct (dict_get (m w) k). Qed.

Lemma plain_draw : plain draw.
Proof. by intros w. Qed.

Lemma plain_update f : (forall w, locked (f w) = locked w) -> plain (update f).
Proof. intros H w. split; [done|apply H]. Qed.

Lemma plain_bind {A B} (m : M A) (k : A -> M B) :
  plain m -> (forall a, plain (k a)) -> plain (bind m k).
Proof.
  intros Hm Hk w. unfold bind. destruct (Hm w) as [H1 H2].
  destruct (m w) as [a w'|e w'|w']; [|done..].
  destruct (Hk a w') as [H3 H4]. split; [done|]. cbn in H2. congruence.
Qed.

Lemma plain_for_each {A} (xs : list A) (body : A -> M unit) :
  (forall x, plain (body x)) -> plain (for_each xs body).
Proof.
  intros Hb. induction xs as [|x xs IH]; [apply plain_ret|].
  apply plain_bind; [apply Hb|intros _; apply IH].
Qed.

Ltac plain_step :=
  first
    [ apply plain_ret | apply plain_read | apply plain_raise
    | apply plain_lookup_key | apply plain_draw
    | apply plain_for_each; intros ?
    | apply plain_bind; [|intros ?]
    | match goal with
      | |- plain (match ?x with _ => _ end) => destruct x
      end
    | apply plain_update; intros ?; cbn; repeat case_match; reflexivity
    | intros ?; cbn; repeat case_match; simplify_eq; done ].

Ltac plainly := repeat plain_step.

Lemma ends_ret {A} (a : A) : ends (ret a).
Proof. by intros w. Qed.

Lemma ends_read {A} (f : world -> A) : ends (read f).
Proof. by intros w. Qed.

Lemma ends_raise {A} e : ends (@raise A e).
Proof. by intros w. Qed.

Lemma ends_emit e : ends (emit e).
Proof. by intros w. Qed.

Lemma ends_send_message ws m : ends (send_message ws m).
Proof. by intros w. Qed.

Lemma ends_update f : ends (update f).
Proof. by intros w. Qed.

Lemma ends_bind {A B} (m : M A) (k : A -> M B) :
  keeps_lock m -> ends m -> (forall a, ends (k a)) -> ends (bind m k).
Proof.
  intros Hl Hm Hk w Hw. unfold bind. specialize (Hl w). specialize (Hm w Hw).
  destruct (m w) as [a w'|e w'|w']; [|done..].
  apply Hk. congruence.
Qed.

Lemma ends_with_lock {A} (body : M A) : plain body -> ends (with_lock body).
Proof.
  intros Hb w Hw. unfold with_lock. rewrite Hw.
  destruct (Hb (set_locked true (log [Acquire] w))) as [H _].
  by destruct (body _).
Qed.

Lemma ends_catch {A} (body : M A) : ends body -> ends (catch body).
Proof. intros Hb w Hw. unfold catch. specialize (Hb w Hw). by destruct (body w). Qed.

Lemma ends_for_each {A} (xs : list A) (body : A -> M unit) :
  (forall x, keeps_lock (body x)) -> (forall x, ends (body x)) ->
  ends (for_each xs body).
Proof.
  intros Hl Hb. induction xs as [|x xs IH]; [apply ends_ret|].
  apply ends_bind; [apply Hl|apply Hb|intros _; apply IH].
Qed.

Create HintDb ends.
#[local] Hint Resolve ends_ret ends_read ends_raise ends_emit ends_send_message
  ends_update : ends.

Ltac ends_step :=
  first
    [ solve [auto with ends]
    | apply ends_with_lock; solve [plainly]
    | apply ends_catch
    | apply ends_for_each; [intros ?; solve [locks]|intros ?]
    | apply ends_bind; [solve [locks]| |intros ?]
    | match goal with
      | |- ends (match ?x with _ => _ end) => destruct x
      end ].

Ltac ending := repeat ends_step.

Lemma ends_send_message_to_client u m : ends (send_message_to_client u m).
Proof. unfold send_message_to_client. ending. Qed.

Lemma ends_get_available_games_list : ends get_available_games_list.
Proof. unfold get_available_games_list. ending. Qed.
#[local] Hint Resolve ends_send_message_to_client
  ends_get_available_games_list : ends.

Lemma ends_broadcast_available_games : ends broadcast_available_games.
Proof. unfold broadcast_available_games. ending. Qed.

Lemma ends_broadcast_game_message gid m : ends (broadcast_game_message gid m).
Proof. unfold broadcast_game_message. ending. Qed.
#[local] Hint Resolve ends_broadcast_available_games
  ends_broadcast_game_message : ends.

Lemma ends_handle_register ws cu name : ends (handle_register ws cu name).
Proof. unfold handle_register. ending. Qed.

Lemma ends_cleanup_game k : ends (cleanup_game k).
Proof. unfold cleanup_game. ending. Qed.
#[local] Hint Resolve ends_handle_register ends_cleanup_game : ends.

Lemma ends_cleanup_client u : ends (cleanup_client u).
Proof. unfold cleanup_client, cleanup_client_locked. ending. Qed.
#[local] Hint Resolve ends_cleanup_client : ends.

Lemma ends_finally_clause cuid : ends (finally_clause cuid).
Proof. unfold finally_clause. ending. Qed.
#[local] Hint Resolve ends_finally_clause : ends.

Lemma ends_first_message ws frame : ends (first_message ws frame).
Proof. unfold first_message. ending. Qed.
#[local] Hint Resolve ends_first_message : ends.

(** What [ends] and [keeps_lock] give together. *)
Lemma ends_unlocked {A} (m : M A) w :
  keeps_lock m -> ends m -> locked w = false ->
  finished_run (m w) = true /\ locked (world_of (m w)) = false.
Proof.
  intros Hl Hm Hw. specialize (Hl w). specialize (Hm w Hw).
  destruct (m w); cbn in *; split; congruence.
Qed.

(** Registration, departure and the periodic broadcast never hang:
    started with the lock free, the opening frame of a connection,
    whatever it holds, the loss of a connection, the periodic broadcast,
    [handle_register] and [cleanup_game] all come to an end and leave
    the lock free. *)
Theorem registering_and_leaving_never_hang int w :
  locked w = false ->
  (forall ws frame,
     finished_run (run_op int (Connect ws frame) w) = true /\
     locked (world_of (run_op int (Connect ws frame) w)) = false) /\
  (forall u,
     finished_run (run_op int (Disconnect u) w) = true /\
     locked (world_of (run_op int (Disconnect u) w)) = false) /\
  (finished_run (run_op int PeriodicBroadcast w) = true /\
   locked (world_of (run_op int PeriodicBroadcast w)) = false) /\
  (forall ws cu name,
     finished_run (handle_register ws cu name w) = true /\
     locked (world_of (handle_register ws cu name w)) = false) /\
  (forall gid,
     finished_run (cleanup_game gid w) = true /\
     locked (world_of (cleanup_game gid w)) = false).
Proof.
  intros Hw.
  assert (Hop : forall o, ends (run_op int o) ->
    finished_run (run_op int o w) = true /\
    locked (world_of (run_op int o w)) = false).
  { intros o Ho. by apply ends_unlocked; [apply keeps_lock_run_op|..]. }
  split; [intros ws frame; apply Hop; unfold run_op; ending|].
  split; [intros u; apply Hop; unfold run_op, disconnect; ending|].
  split; [apply Hop; unfold run_op; ending|].
  split; intros; apply ends_unlocked; auto with ends locks.
Qed.

(** The loss of a connection in the middle of a session. *)
Lemma registering_and_leaving_never_hang_witness :
  finished_run (run_op Scenarios.no_int (Disconnect "a") Scenarios.two_playing)
  = true.
Proof.
  refine (proj1 (proj1 (proj2 (registering_and_leaving_never_hang
                                 Scenarios.no_int Scenarios.two_playing _)) "a")).
  vm_compute. reflexivity.
Defined.

(** ** Opening a session *)

#[local] Arguments ev_send_to : simpl never.
#[local] Arguments ev_send_all : simpl never.
#[local] Arguments ev_broadcast_available : simpl never.
#[local] Arguments ev_broadcast_game : simpl never.
#[local] Arguments Uuid.new_game_id : simpl never.
#[local] Arguments init : simpl never.
#[local] Arguments get_player_piece : simpl never.

(** The fields of a world with more events. *)
Lemma CLIENTS_log e w : CLIENTS (log e w) = CLIENTS w.
Proof. reflexivity. Qed.
Lemma GAMES_log e w : GAMES (log e w) = GAMES w.
Proof. reflexivity. Qed.
Lemma AVAILABLE_GAMES_log e w : AVAILABLE_GAMES (log e w) = AVAILABLE_GAMES w.
Proof. reflexivity. Qed.
Lemma locked_log e w : locked (log e w) = locked w.
Proof. reflexivity. Qed.

(** An [async with STATE_LOCK] block whose body returns [a] and turns
    the shared state [w] into [w1]. *)
Lemma with_lock_run {A} (body : M A) a w w1 :
  locked w = false -> locked w1 = false ->
  body (set_locked true (log [Acquire] w))
  = Done a (set_locked true (log [Acquire] w1)) ->
  with_lock body w = Done a (log [Acquire; Release] w1).
Proof.
  intros Hl Hl1 E. unfold with_lock. rewrite Hl, E.
  destruct w1 as [C G A' l t rnd d]. cbn in *. subst.
  unfold log, set_locked. cbn. by rewrite <- app_assoc.
Qed.

#[local] Arguments game_opened : simpl never.
#[local] Arguments next_game_id : simpl never.

Lemma handle_create_game_run u info w :
  locked w = false ->
  CLIENTS w !! u = Some info ->
  in_a_game (current_game info) = false ->
  let gid := next_game_id w in
  let g := init gid u (client_name info) in
  let w1 := game_opened u info w in
  handle_create_game u w
  = Done tt
      (log ([Acquire; Release]
              ++ ev_send_to (CLIENTS w1) u (game_created gid g (get_player_piece g u))
              ++ ev_broadcast_available (CLIENTS w1) (AVAILABLE_GAMES w1)) w1).
Proof.
  intros Hl E Hin. cbv zeta.
  assert (Hl1 : locked (game_opened u info w) = false) by exact Hl.
  unfold handle_create_game, bind at 1.
  rewrite (with_lock_run _ (Some (next_game_id w,
                                  init (next_game_id w) u (client_name info)))
             w (game_opened u info w) Hl Hl1).
  2:{ unfold bind at 1, read. cbn [CLIENTS set_locked log]. rewrite E, Hin.
      destruct w as [C G A l t rnd d]. reflexivity. }
  unfold bind.
  rewrite send_message_to_client_run by exact Hl1.
  rewrite broadcast_available_games_run by exact Hl1.
  rewrite !CLIENTS_log, !AVAILABLE_GAMES_log, !log_log. reflexivity.
Qed.

Lemma set_current_game_lookup u v c k :
  set_current_game u v c !! k
  = if decide (k = u) then with_game v <$> c !! k else c !! k.
Proof.
  unfold set_current_game. case_decide as Hk.
  - subst k. destruct (c !! u) as [info|] eqn:E; cbn.
    + by rewrite lookup_insert_eq.
    + by rewrite E.
  - destruct (c !! u) as [info|] eqn:E; [|done].
    by rewrite lookup_insert_ne.
Qed.

Lemma reset_players_lookup us c k :
  reset_players us c !! k
  = if decide (k ∈ us) then with_game None <$> c !! k else c !! k.
Proof.
  unfold reset_players. revert c. induction us as [|u us IH]; intros c; cbn.
  { rewrite decide_False; [done|]. apply not_elem_of_nil. }
  rewrite IH, set_current_game_lookup.
  destruct (decide (k = u)) as [->|Hne].
  - rewrite (decide_True (P := u ∈ u :: us)) by apply list_elem_of_here.
    case_decide; [|done]. by destruct (c !! u).
  - case_decide as Hin.
    + by rewrite decide_True by (by apply list_elem_of_further).
    + rewrite decide_False; [done|]. rewrite elem_of_cons. tauto.
Qed.

Lemma trace_suffix evs w w1 :
  trace w1 = trace w -> drop (length (trace w)) (trace (log evs w1)) = evs.
Proof. intros E. cbn [trace log]. by rewrite E, drop_app_length. Qed.

Lemma get_player_piece_creator gid u n : get_player_piece (init gid u n) u = Some X.
Proof. unfold get_player_piece, init. cbn. by rewrite String.eqb_refl. Qed.

(** A client in the lobby who asks for a session gets one: it is
    stored under the next identifier drawn, waiting and with the client
    on the first seat, advertised under the same identifier with the
    client's name, and entered in the client's record; the client is told
    so with the mark ['X'].  Whatever was stored or advertised under that
    identifier before is replaced; nothing else changes. *)
Theorem create_game_opens_a_session u info w :
  locked w = false ->
  CLIENTS w !! u = Some info ->
  in_a_game (current_game info) = false ->
  let gid := next_game_id w in
  let g := init gid u (client_name info) in
  exists w',
    handle_create_game u w = Done tt w' /\
    locked w' = false /\
    draws w' = S (draws w) /\
    GAMES w' !! gid = Some g /\
    AVAILABLE_GAMES w' !! gid
    = Some {| open_game_id := gid; player1_name := client_name info;
              player1_uuid := u |} /\
    CLIENTS w' !! u = Some (with_game (Some gid) info) /\
    Send (websocket info) (game_created gid g (Some X))
      ∈ drop (length (trace w)) (trace w') /\
    (forall k, k <> gid ->
       GAMES w' !! k = GAMES w !! k /\
       AVAILABLE_GAMES w' !! k = AVAILABLE_GAMES w !! k) /\
    (forall v, v <> u -> CLIENTS w' !! v = CLIENTS w !! v).
Proof.
  intros Hl E Hin. cbv zeta. eexists. split.
  { apply (handle_create_game_run u info w Hl E Hin). }
  rewrite get_player_piece_creator.
  set (w1 := game_opened u info w).
  assert (HC : forall k, CLIENTS w1 !! k
                         = if decide (k = u)
                           then with_game (Some (next_game_id w)) <$> CLIENTS w !! k
                           else CLIENTS w !! k)
    by (intros k; apply set_current_game_lookup).
  split; [exact Hl|]. split; [reflexivity|].
  split; [apply lookup_insert_eq|]. split; [apply lookup_insert_eq|].
  rewrite CLIENTS_log, (trace_suffix _ w w1) by reflexivity.
  split; [by rewrite HC, decide_True, E|].
  split.
  { rewrite !elem_of_app. right. left. unfold ev_send_to.
    rewrite HC, decide_True, E by done. cbn. set_solver. }
  split.
  - intros k Hk. split; apply lookup_insert_ne; done.
  - intros v Hv. by rewrite HC, decide_False.
Qed.

(** ["a"], in the lobby, opens a session. *)
Lemma create_game_opens_a_session_witness :
  exists w',
    handle_create_game "a" Scenarios.two_in_lobby = Done tt w' /\
    GAMES w' !! "00000000"
    = Some (init "00000000" "a" (PStr "A")).
Proof.
  destruct (create_game_opens_a_session "a"
              {| client_name := PStr "A"; websocket := 1%nat;
                 current_game := None; client_status := "connected" |}
              Scenarios.two_in_lobby)
    as (w' & H1 & _ & _ & H2 & _);
    [vm_compute; reflexivity..|].
  exists w'. split; [exact H1|].
  replace "00000000" with (next_game_id Scenarios.two_in_lobby)
    by (vm_compute; reflexivity).
  exact H2.
Defined.

(** ** Joining a session *)

#[local] Arguments game_joined : simpl never.

Lemma handle_join_game_run u info gid g e w :
  locked w = false ->
  CLIENTS w !! u = Some info ->
  in_a_game (current_game info) = false ->
  GAMES w !! gid = Some g ->
  AVAILABLE_GAMES w !! gid = Some e ->
  players_O g = None ->
  let g' := (add_player2 g u (client_name info)).2 in
  let w1 := game_joined u gid g' w in
  handle_join_game u (PStr gid) w
  = Done tt
      (log ([Acquire; Release]
              ++ ev_broadcast_game (CLIENTS w1) (Some g') (game_start gid g')
              ++ ev_broadcast_available (CLIENTS w1) (AVAILABLE_GAMES w1)) w1).
Proof.
  intros Hl E Hin HG HA HO. cbv zeta.
  set (g' := (add_player2 g u (client_name info)).2).
  assert (Hadd : add_player2 g u (client_name info) = (true, g'))
    by (unfold g', add_player2; by rewrite HO).
  assert (Hl1 : locked (game_joined u gid g' w) = false) by exact Hl.
  unfold handle_join_game, bind at 1.
  rewrite (with_lock_run _ (Some (gid, g')) w (game_joined u gid g' w) Hl Hl1).
  2:{ unfold bind at 1, read. cbn [CLIENTS set_locked log]. rewrite E, Hin.
      unfold bind at 1, lookup_key, dict_get. cbn [GAMES set_locked log].
      rewrite HG. unfold bind at 1, read. cbn [AVAILABLE_GAMES set_locked log].
      rewrite HA, Hadd.
      destruct w as [C G A l t rnd d]. reflexivity. }
  unfold bind.
  rewrite broadcast_game_message_run by exact Hl1.
  rewrite broadcast_available_games_run by exact Hl1.
  rewrite !CLIENTS_log, !AVAILABLE_GAMES_log, !GAMES_log, !log_log.
  replace (GAMES (game_joined u gid g' w) !! gid) with (Some g')
    by (symmetry; apply lookup_insert_eq).
  reflexivity.
Qed.

Lemma truthy_str s : truthy (PStr s) = true <-> s <> "".
Proof.
  cbn. destruct (String.eqb_spec s ""); cbn; split; intros; done.
Qed.

(** Who [broadcast_game_message] and [cleanup_game] take as the players
    of a session. *)
Lemma player_uuids_spec g v :
  v ∈ player_uuids g <->
  v <> "" /\ exists p, (players_X g = Some p \/ players_O g = Some p) /\ uuid p = v.
Proof.
  unfold player_uuids. rewrite elem_of_app.
  assert (H : forall slot : option player,
    v ∈ match slot with
        | Some p => if truthy (PStr (uuid p)) then [uuid p] else []
        | None => []
        end <-> v <> "" /\ exists p, slot = Some p /\ uuid p = v).
  { intros [p|].
    - destruct (truthy (PStr (uuid p))) eqn:Et.
      + apply truthy_str in Et. rewrite list_elem_of_singleton. split.
        * intros ->. eauto.
        * by intros (_ & p' & [= <-] & <-).
      + split; [by intros ?%elem_of_nil|].
        intros (Hv & p' & [= <-] & <-). apply truthy_str in Hv. congruence.
    - split; [by intros ?%elem_of_nil|]. by intros (_ & p' & ? & _). }
  rewrite !H. split.
  - intros [(Hv & p & Hp & E)|(Hv & p & Hp & E)]; eauto 6.
  - intros (Hv & p & [Hp|Hp] & E); eauto 6.
Qed.

(** A frame sent to each of [us] reaches the connection of each one
    that is registered. *)
Lemma ev_send_all_elem c us u m info :
  u ∈ us -> c !! u = Some info -> Send (websocket info) m ∈ ev_send_all c us m.
Proof.
  intros Hin E. unfold ev_send_all. apply list_elem_of_bind.
  exists u. split; [|done]. unfold ev_send_to. rewrite E. set_solver.
Qed.

Lemma ev_send_all_inv c us m ev :
  ev ∈ ev_send_all c us m ->
  ev = Acquire \/ ev = Release \/
  exists u info, u ∈ us /\ c !! u = Some info /\ ev = Send (websocket info) m.
Proof.
  unfold ev_send_all. intros (u & Hev & Hin)%list_elem_of_bind.
  unfold ev_send_to in Hev.
  apply elem_of_cons in Hev as [->|Hev]; [by left|].
  apply elem_of_cons in Hev as [->|Hev]; [by right; left|].
  right; right. destruct (c !! u) as [info|] eqn:E.
  - apply list_elem_of_singleton in Hev as ->. eauto.
  - by apply elem_of_nil in Hev.
Qed.

(** A client in the lobby who joins an advertised session with a free
    second seat is seated there: the session becomes active, leaves the
    advertised ones and is entered in the client's record, and the
    [game_start] frame with the new state goes to the joiner and to the
    creator, if registered.  Nothing else changes. *)
Theorem join_game_starts_the_session u info gid g e w :
  locked w = false ->
  CLIENTS w !! u = Some info ->
  in_a_game (current_game info) = false ->
  GAMES w !! gid = Some g ->
  AVAILABLE_GAMES w !! gid = Some e ->
  players_O g = None ->
  let g' :=
    set_status active
      (set_players_O (Some {| uuid := u; name := client_name info |}) g) in
  exists w',
    handle_join_game u (PStr gid) w = Done tt w' /\
    locked w' = false /\
    GAMES w' !! gid = Some g' /\
    AVAILABLE_GAMES w' !! gid = None /\
    CLIENTS w' !! u = Some (with_game (Some gid) info) /\
    (u <> "" ->
     Send (websocket info) (game_start gid g')
       ∈ drop (length (trace w)) (trace w')) /\
    (forall p pinfo,
       players_X g = Some p -> uuid p <> "" -> uuid p <> u ->
       CLIENTS w !! uuid p = Some pinfo ->
       Send (websocket pinfo) (game_start gid g')
         ∈ drop (length (trace w)) (trace w')) /\
    (forall k, k <> gid ->
       GAMES w' !! k = GAMES w !! k /\
       AVAILABLE_GAMES w' !! k = AVAILABLE_GAMES w !! k) /\
    (forall v, v <> u -> CLIENTS w' !! v = CLIENTS w !! v).
Proof.
  intros Hl E Hin HG HA HO. cbv zeta.
  pose proof (handle_join_game_run u info gid g e w Hl E Hin HG HA HO) as Hrun.
  cbv zeta in Hrun.
  replace (add_player2 g u (client_name info)).2
    with (set_status active
            (set_players_O (Some {| uuid := u; name := client_name info |}) g))
    in Hrun by (unfold add_player2; by rewrite HO).
  set (g' := set_status active _) in *.
  set (w1 := game_joined u gid g' w) in *.
  assert (HC : forall k, CLIENTS w1 !! k
                         = if decide (k = u)
                           then with_game (Some gid) <$> CLIENTS w !! k
                           else CLIENTS w !! k)
    by (intros k; apply set_current_game_lookup).
  eexists. split; [exact Hrun|].
  rewrite CLIENTS_log, (trace_suffix _ w w1) by reflexivity.
  split; [exact Hl|]. split; [apply lookup_insert_eq|].
  split; [apply lookup_delete_eq|].
  split; [by rewrite HC, decide_True, E|].
  assert (Hsend : forall v vinfo,
    v ∈ player_uuids g' -> CLIENTS w1 !! v = Some vinfo ->
    Send (websocket vinfo) (game_start gid g')
      ∈ [Acquire; Release]
          ++ ev_broadcast_game (CLIENTS w1) (Some g') (game_start gid g')
          ++ ev_broadcast_available (CLIENTS w1) (AVAILABLE_GAMES w1)).
  { intros v vinfo Hv Ev. rewrite !elem_of_app. right. left.
    unfold ev_broadcast_game. do 2 apply list_elem_of_further.
    by apply (ev_send_all_elem _ _ v). }
  split.
  { intros Hu.
    apply (Hsend u (with_game (Some gid) info)).
    - apply player_uuids_spec. split; [done|]. eexists. split; [right|]; done.
    - by rewrite HC, decide_True, E. }
  split.
  { intros p pinfo Hp Hne Hpu Ep. apply (Hsend (uuid p) pinfo).
    - apply player_uuids_spec. split; [done|]. exists p. split; [left|]; done.
    - by rewrite HC, decide_False. }
  split.
  - intros k Hk. split; [by apply lookup_insert_ne|by apply lookup_delete_ne].
  - intros v Hv. by rewrite HC, decide_False.
Qed.

(** ["b"] joins the session ["a"] has opened. *)
Lemma join_game_starts_the_session_witness :
  exists w',
    handle_join_game "b" (PStr "00000000")
      (world_of (handle_create_game "a" Scenarios.two_in_lobby)) = Done tt w' /\
    AVAILABLE_GAMES w' !! "00000000" = None.
Proof.
  destruct (join_game_starts_the_session "b"
              {| client_name := PStr "B"; websocket := 2%nat;
                 current_game := None; client_status := "connected" |}
              "00000000" (init "00000000" "a" (PStr "A"))
              {| open_game_id := "00000000"; player1_name := PStr "A";
                 player1_uuid := "a" |}
              (world_of (handle_create_game "a" Scenarios.two_in_lobby)))
    as (w' & H1 & _ & _ & H2 & _);
    [vm_compute; reflexivity..|].
  exists w'. split; [exact H1|exact H2].
Defined.

(** ** Moves *)

#[local] Arguments game_removed : simpl never.
#[local] Arguments make_move : simpl never.

Lemma set_GAMES_same gid g w :
  GAMES w !! gid = Some g -> set_GAMES (<[gid := g]> (GAMES w)) w = w.
Proof. intros E. rewrite insert_id by done. by destruct w. Qed.

Lemma int_both_Some int y x yi xi :
  py_int int y = Some yi -> py_int int x = Some xi ->
  int_both int y x = inr (yi, xi).
Proof.
  unfold py_int, int_both.
  destruct (int_of int y) as [e|y']; [done|]. intros [= ->].
  destruct (int_of int x) as [e|x']; [done|]. by intros [= ->].
Qed.

Lemma int_both_inr int y x yi xi :
  int_both int y x = inr (yi, xi) ->
  py_int int y = Some yi /\ py_int int x = Some xi.
Proof.
  unfold py_int, int_both.
  destruct (int_of int y) as [e|y']; [done|].
  destruct (int_of int x) as [e|x']; [done|]. by intros [= -> ->].
Qed.

(** Which conversions fail, and how: the exception is that of [y] if
    [int(y)] raises, else that of [x]. *)
Lemma int_both_inl int y x e :
  int_both int y x = inl e <->
  int_of int y = inl e \/ is_Some (py_int int y) /\ int_of int x = inl e.
Proof.
  unfold py_int, int_both.
  destruct (int_of int y) as [ey|y']; cbn.
  - split; [intros [= ->]; by left|].
    intros [H|[[? H] _]]; [congruence|discriminate].
  - destruct (int_of int x) as [ex|x']; cbn.
    + split; [intros [= ->]; right; eauto|].
      intros [H|[_ H]]; [discriminate|congruence].
    + split; [discriminate|]. intros [H|[_ H]]; discriminate.
Qed.

(** [int] raises [OverflowError] on the two infinities and on nothing
    else, and never [KeyError] or [AttributeError]. *)
Lemma int_of_error int v e :
  int_of int v = inl e ->
  e = ValueError \/ e = TypeError \/
  e = OverflowError /\ exists negative, v = PFloat (FInf negative).
Proof.
  unfold int_of. destruct v as [| | |s| | |[|negative|m k]]; intros H;
    try discriminate; try (injection H as <-; auto; fail).
  - destruct (int s); [discriminate|]. injection H as <-. auto.
  - injection H as <-. right. right. eauto.
Qed.

Lemma handle_make_move_run int u gid y x g yi xi w :
  locked w = false ->
  GAMES w !! gid = Some g ->
  int_both int y x = inr (yi, xi) ->
  handle_make_move int u gid y x w =
    let g' := (make_move g u yi xi).2 in
    let w1 := set_GAMES (<[gid := g']> (GAMES w)) w in
    match (make_move g u yi xi).1 with
    | Rejected reason =>
        Done tt
          (log ([Acquire; Release]
                  ++ ev_send_to (CLIENTS w) u
                       (move_error gid (Lit reason) (Some (board_ g')))) w1)
    | Moved b next false _ _ =>
        Done tt
          (log ([Acquire; Release]
                  ++ ev_broadcast_game (CLIENTS w) (Some g') (game_update gid b next))
               w1)
    | Moved b next true wn tie =>
        let w2 := game_removed gid g' w1 in
        Done tt
          (log ([Acquire; Release]
                  ++ ev_broadcast_game (CLIENTS w) (Some g') (game_over gid b wn tie)
                  ++ [Acquire; Release]
                  ++ ev_broadcast_available (CLIENTS w2) (AVAILABLE_GAMES w2)) w2)
    end.
Proof.
  intros Hl HG Hyx. cbv zeta. unfold handle_make_move, bind at 1.
  rewrite (with_lock_run _ (Some g) w w Hl Hl).
  2:{ unfold bind, read, ret. cbn [GAMES set_locked log]. by rewrite HG. }
  rewrite Hyx. destruct (make_move g u yi xi) as [result g'] eqn:Em.
  cbn [fst snd]. unfold bind at 1, update.
  set (w1 := set_GAMES (<[gid := g']> (GAMES w)) w).
  assert (Hl1 : locked w1 = false) by exact Hl.
  assert (HG1 : GAMES w1 !! gid = Some g') by apply lookup_insert_eq.
  destruct result as [reason|b next [|] wn tie].
  - change (set_GAMES _ (log [Acquire; Release] w))
      with (log [Acquire; Release] w1).
    rewrite send_message_to_client_run by exact Hl1.
    by rewrite log_log.
  - change (set_GAMES _ (log [Acquire; Release] w))
      with (log [Acquire; Release] w1).
    unfold bind. rewrite broadcast_game_message_run by exact Hl1.
    rewrite (cleanup_game_found gid g') by done.
    rewrite !game_removed_log, !log_log, GAMES_log, HG1.
    rewrite <- ?app_assoc. reflexivity.
  - change (set_GAMES _ (log [Acquire; Release] w))
      with (log [Acquire; Release] w1).
    rewrite broadcast_game_message_run by exact Hl1.
    by rewrite log_log, GAMES_log, HG1.
Qed.

Lemma handle_make_move_refused int u gid y x g e w :
  locked w = false ->
  GAMES w !! gid = Some g ->
  int_both int y x = inl e ->
  handle_make_move int u gid y x w
  = match e with
    | ValueError | TypeError =>
        Done tt
          (log ([Acquire; Release]
                  ++ ev_send_to (CLIENTS w) u
                       (move_error gid (Lit "Invalid coordinates.") None)) w)
    | _ => Raised e (log [Acquire; Release] w)
    end.
Proof.
  intros Hl HG Hyx. unfold handle_make_move, bind at 1.
  rewrite (with_lock_run _ (Some g) w w Hl Hl).
  2:{ unfold bind, read, ret. cbn [GAMES set_locked log]. by rewrite HG. }
  rewrite Hyx.
  destruct e; try reflexivity;
    rewrite send_message_to_client_run by exact Hl; by rewrite log_log.
Qed.

(** A move that is not played changes nothing.  Coordinates on which
    [int] raises [ValueError] or [TypeError] get the reply ["Invalid
    coordinates."], a move the session refuses gets the reason the
    session gave together with the board; both replies go to the mover
    alone, and the registry, the directories and the session stay as
    they were.  A coordinate on which [int] raises another exception,
    which it does for the two infinite floats and for nothing else, gets
    no reply: the [except] clause does not catch [OverflowError], so
    [handle_make_move] raises it, again with nothing changed. *)
Theorem refused_move_changes_nothing int u gid y x g w :
  locked w = false ->
  GAMES w !! gid = Some g ->
  (int_both int y x = inl ValueError \/ int_both int y x = inl TypeError ->
   handle_make_move int u gid y x w
   = Done tt
       (log (Acquire :: Release ::
               ev_send_to (CLIENTS w) u
                 (move_error gid (Lit "Invalid coordinates.") None)) w)) /\
  (forall yi xi reason g',
     py_int int y = Some yi -> py_int int x = Some xi ->
     make_move g u yi xi = (Rejected reason, g') ->
     handle_make_move int u gid y x w
     = Done tt
         (log (Acquire :: Release ::
                 ev_send_to (CLIENTS w) u
                   (move_error gid (Lit reason) (Some (board_ g)))) w)) /\
  (forall e,
     int_both int y x = inl e -> e <> ValueError -> e <> TypeError ->
     handle_make_move int u gid y x w = Raised e (log [Acquire; Release] w) /\
     e = OverflowError /\
     ((exists negative, y = PFloat (FInf negative)) \/
      is_Some (py_int int y) /\ exists negative, x = PFloat (FInf negative))) /\
  (forall negative,
     handle_make_move int u gid (PFloat (FInf negative)) x w
     = Raised OverflowError (log [Acquire; Release] w)).
Proof.
  intros Hl HG. split.
  { intros [E|E]; by rewrite (handle_make_move_refused int u gid y x g _ w Hl HG E). }
  split.
  { intros yi xi reason g' Hy Hx Em.
    rewrite (handle_make_move_run int u gid y x g yi xi w Hl HG
               (int_both_Some _ _ _ _ _ Hy Hx)).
    cbv zeta. rewrite Em. cbn [fst snd].
    assert (g' = g) as ->.
    { pose proof (make_move_rejected_same g u yi xi) as H.
      rewrite Em in H. by apply H. }
    by rewrite set_GAMES_same. }
  split.
  { intros e E Hv Ht.
    rewrite (handle_make_move_refused int u gid y x g e w Hl HG E).
    apply int_both_inl in E.
    assert (He : e = OverflowError /\
                 ((exists negative, y = PFloat (FInf negative)) \/
                  is_Some (py_int int y) /\
                  exists negative, x = PFloat (FInf negative))).
    { destruct E as [E|[Hy E]];
        apply int_of_error in E as [->|[->|[-> Hinf]]]; try done; auto. }
    destruct He as [-> Hwhich]. done. }
  intros negative.
  by rewrite (handle_make_move_refused int u gid _ x g OverflowError w Hl HG).
Qed.

(** ["a"] sends a move without coordinates. *)
Lemma refused_move_changes_nothing_witness :
  handle_make_move Scenarios.no_int "a" "00000000" PNone PNone
    Scenarios.two_playing
  = Done tt
      (log (Acquire :: Release ::
              ev_send_to (CLIENTS Scenarios.two_playing) "a"
                (move_error "00000000" (Lit "Invalid coordinates.") None))
         Scenarios.two_playing).
Proof.
  refine (proj1 (refused_move_changes_nothing Scenarios.no_int "a" "00000000"
                   PNone PNone
                   (add_player2 (init "00000000" "a" (PStr "A")) "b" (PStr "B")).2
                   Scenarios.two_playing _ _) _);
    [vm_compute; reflexivity..|right; reflexivity].
Defined.

Lemma player_uuids_make_move g u y x :
  player_uuids (make_move g u y x).2 = player_uuids g.
Proof.
  destruct (make_move_seats g u y x) as (_ & HX & HO).
  unfold player_uuids. by rewrite HX, HO.
Qed.

(** A move that is played reaches both players and, if it ends the
    game, sends them back to the lobby: the new board goes to every
    registered player of the session, as [game_update] with the next
    turn or as [game_over] with the verdict; a session that goes on is
    stored with the move made, a session that is over is removed from the
    directories and the records of its players no longer name it.
    Nothing else changes. *)
Theorem played_move_reaches_both_players
    int u gid y x g yi xi b next go wn tie g' w :
  locked w = false ->
  GAMES w !! gid = Some g ->
  py_int int y = Some yi -> py_int int x = Some xi ->
  make_move g u yi xi = (Moved b next go wn tie, g') ->
  exists w',
    handle_make_move int u gid y x w = Done tt w' /\
    locked w' = false /\
    (forall p pinfo,
       players_X g = Some p \/ players_O g = Some p -> uuid p <> "" ->
       CLIENTS w !! uuid p = Some pinfo ->
       Send (websocket pinfo)
         (if go then game_over gid b wn tie else game_update gid b next)
         ∈ drop (length (trace w)) (trace w')) /\
    (forall k, k <> gid ->
       GAMES w' !! k = GAMES w !! k /\
       AVAILABLE_GAMES w' !! k = AVAILABLE_GAMES w !! k) /\
    (go = false ->
       GAMES w' !! gid = Some g' /\ CLIENTS w' = CLIENTS w /\
       AVAILABLE_GAMES w' = AVAILABLE_GAMES w) /\
    (go = true ->
       GAMES w' !! gid = None /\ AVAILABLE_GAMES w' !! gid = None /\
       forall v,
         CLIENTS w' !! v
         = if decide (v ∈ player_uuids g) then with_game None <$> CLIENTS w !! v
           else CLIENTS w !! v).
Proof.
  intros Hl HG Hy Hx Em.
  pose proof (handle_make_move_run int u gid y x g yi xi w Hl HG
                (int_both_Some _ _ _ _ _ Hy Hx)) as Hrun.
  cbv zeta in Hrun. pose proof (player_uuids_make_move g u yi xi) as Hpl.
  rewrite Em in Hrun, Hpl. cbn [fst snd] in Hrun, Hpl.
  assert (Hsend : forall m p pinfo,
    players_X g = Some p \/ players_O g = Some p -> uuid p <> "" ->
    CLIENTS w !! uuid p = Some pinfo ->
    Send (websocket pinfo) m ∈ ev_broadcast_game (CLIENTS w) (Some g') m).
  { intros m p pinfo Hp Hne Ep. unfold ev_broadcast_game.
    do 2 apply list_elem_of_further.
    apply (ev_send_all_elem _ _ (uuid p)); [|done].
    rewrite Hpl. apply player_uuids_spec. eauto. }
  set (w1 := set_GAMES (<[gid := g']> (GAMES w)) w) in *.
  destruct go.
  - set (w2 := game_removed gid g' w1) in *.
    eexists. split; [exact Hrun|].
    rewrite (trace_suffix _ w w2) by reflexivity.
    split; [exact Hl|]. split.
    { intros p pinfo Hp Hne Ep. rewrite !elem_of_app. right. left.
      by apply (Hsend _ p). }
    split.
    { intros k Hk. rewrite GAMES_log, AVAILABLE_GAMES_log. split.
      - unfold w2, game_removed. cbn [GAMES set_AVAILABLE_GAMES set_GAMES].
        rewrite lookup_delete_ne by done. cbn [GAMES set_CLIENTS].
        by apply lookup_insert_ne.
      - unfold w2, game_removed. cbn [AVAILABLE_GAMES set_AVAILABLE_GAMES].
        by rewrite lookup_delete_ne. }
    split; [done|]. intros _.
    split; [apply lookup_delete_eq|]. split; [apply lookup_delete_eq|].
    intros v. rewrite CLIENTS_log. unfold w2, game_removed.
    cbn [CLIENTS set_AVAILABLE_GAMES set_GAMES set_CLIENTS].
    by rewrite reset_players_lookup, Hpl.
  - eexists. split; [exact Hrun|].
    rewrite (trace_suffix _ w w1) by reflexivity.
    split; [exact Hl|]. split.
    { intros p pinfo Hp Hne Ep. rewrite !elem_of_app. right.
      by apply (Hsend _ p). }
    split.
    { intros k Hk. split; [by apply lookup_insert_ne|done]. }
    split; [|done]. intros _. split; [apply lookup_insert_eq|done].
Qed.

(** ['X'] completes the top row in a session stored under ["g"]. *)
Lemma played_move_reaches_both_players_witness :
  exists w',
    handle_make_move Scenarios.no_int "a" "g" (PInt 0) (PInt 2)
      (set_GAMES (<["g" := Scenarios.top_row_game]> ∅)
         (start Scenarios.zero_prefix)) = Done tt w' /\
    GAMES w' !! "g" = None.
Proof.
  destruct (played_move_reaches_both_players Scenarios.no_int "a" "g"
              (PInt 0) (PInt 2) Scenarios.top_row_game 0 2
              (Some X, Some X, Some X, (None, Some O, None), (None, None, Some O))
              None true (Some X) false Scenarios.won_game
              (set_GAMES (<["g" := Scenarios.top_row_game]> ∅)
                 (start Scenarios.zero_prefix)))
    as (w' & H1 & _ & _ & _ & _ & H2);
    [reflexivity|vm_compute; reflexivity|reflexivity|reflexivity
    |exact top_row_move|].
  exists w'. split; [exact H1|]. by apply H2.
Defined.

(** ** Who may act for a client *)

Lemma with_lock_lookup_CLIENTS u w :
  locked w = false ->
  with_lock (lookup_key CLIENTS (PStr u)) w
  = Done (CLIENTS w !! u) (log [Acquire; Release] w).
Proof. intros Hl. by apply with_lock_run. Qed.

(** A request is served only on the connection its client registered
    on last: a frame other than a registration whose identifier is
    missing, is not a string, is unknown, or belongs to a client bound to
    another connection is answered with one error on the connection it
    came from and changes nothing, whatever identifier the connection
    itself opened with. *)
Theorem other_connections_are_refused int ws message cuid w :
  locked w = false ->
  is_action (get "action" PNone message) "register" = false ->
  (forall u info,
     get "uuid" PNone message = PStr u -> CLIENTS w !! u = Some info ->
     websocket info <> ws) ->
  exists evs m,
    process_message int ws (Some (PDict message)) cuid w
    = Done tt (log (evs ++ [Send ws (error m)]) w) /\
    (evs = [] \/ evs = [Acquire; Release]).
Proof.
  intros Hl Hact Hws. unfold process_message. rewrite Hact. cbn [negb andb].
  destruct (negb (truthy (get "uuid" PNone message))
            || negb (is_str (get "uuid" PNone message))) eqn:Hu.
  { exists [], (Fmt "Action '" (get "action" PNone message)
                 "' requires a valid UUID."). by split; [|left]. }
  apply orb_false_iff in Hu as [Ht Hs].
  apply negb_false_iff in Ht, Hs.
  destruct (get "uuid" PNone message) as [| | |u| | |] eqn:Eu; try discriminate.
  rewrite Ht. cbn beta iota. rewrite Ht. cbn [negb]. unfold bind at 1.
  rewrite with_lock_lookup_CLIENTS by done.
  exists [Acquire; Release],
    (Lit "Client not fully registered or using an old connection.").
  split; [|by right].
  destruct (CLIENTS w !! u) as [info|] eqn:E.
  - specialize (Hws u info eq_refl E).
    apply Nat.eqb_neq in Hws. rewrite Hws. cbn [negb].
    unfold send_message, emit, update. by rewrite log_log.
  - unfold send_message, emit, update. by rewrite log_log.
Qed.

(** After ["a"] has registered again on connection 3, a request on
    the old connection 1 is refused. *)
Lemma other_connections_are_refused_witness :
  exists evs m,
    process_message Scenarios.no_int 1%nat
      (Scenarios.action_frame "create_game" "a") (Some "a")
      (world_of (handle_register 3%nat (PStr "a") (PStr "A")
                   Scenarios.two_in_lobby))
    = Done tt
        (log (evs ++ [Send 1%nat (error m)])
           (world_of (handle_register 3%nat (PStr "a") (PStr "A")
                        Scenarios.two_in_lobby))) /\
    (evs = [] \/ evs = [Acquire; Release]).
Proof.
  apply (other_connections_are_refused Scenarios.no_int 1%nat
           [("action", PStr "create_game"); ("uuid", PStr "a")] (Some "a")).
  - vm_compute. reflexivity.
  - reflexivity.
  - intros u info [= <-]. vm_compute. intros [= <-]. discriminate.
Defined.

(** ** Connections that end *)

Lemma cleanup_client_unknown u w :
  locked w = false -> CLIENTS w !! u = None ->
  cleanup_client u w = Done tt (log [Acquire; Release] w).
Proof.
  intros Hl E. unfold cleanup_client, bind at 1.
  rewrite (with_lock_run _ None w w Hl Hl); [done|].
  unfold cleanup_client_locked, bind, read, ret. cbn [CLIENTS set_locked log].
  by rewrite E.
Qed.

(** After [cleanup_client] the client has no record, and the session
    its record named is in no directory. *)
Lemma cleanup_client_gone u w :
  locked w = false ->
  exists evs w1,
    cleanup_client u w = Done tt (log evs w1) /\
    locked w1 = false /\ trace w1 = trace w /\
    CLIENTS w1 !! u = None /\
    (CLIENTS w !! u = None -> w1 = w) /\
    (forall info gid,
       CLIENTS w !! u = Some info -> current_game info = Some gid ->
       GAMES w1 !! gid = None /\ AVAILABLE_GAMES w1 !! gid = None
       \/ GAMES w !! gid = None /\ GAMES w1 = GAMES w
          /\ AVAILABLE_GAMES w1 = AVAILABLE_GAMES w).
Proof.
  intros Hl. destruct (CLIENTS w !! u) as [info|] eqn:E.
  - destruct (cleanup_client_run u info w Hl E) as (evs & Hrun & _).
    eexists evs, _. split; [exact Hrun|].
    destruct (live_game (current_game info) w) as [[gid g]|] eqn:Elive.
    + apply live_game_Some in Elive as [Hcur HG].
      split; [exact Hl|]. split; [done|]. split.
      { apply reset_players_lookup_None, lookup_delete_eq. }
      split; [done|]. intros info' gid' [= <-] Hc.
      rewrite Hcur in Hc. injection Hc as <-. left.
      split; apply lookup_delete_eq.
    + rewrite live_game_None in Elive.
      split; [exact Hl|]. split; [done|].
      split; [apply lookup_delete_eq|]. split; [done|].
      intros info' gid [= <-] Hc. right. by rewrite (Elive gid Hc).
  - exists [Acquire; Release], w.
    rewrite cleanup_client_unknown by done. repeat split; try done.
Qed.

(** A frame that is JSON but not an object ends the connection: reading
    its ["action"] raises, the loop over the frames stops there with the
    rest unread, and the [finally] clause removes the client's record,
    as if the connection had been lost. *)
Theorem frame_that_is_no_object_ends_the_connection int ws u v rest w :
  locked w = false ->
  u <> "" ->
  (forall d, v <> PDict d) ->
  process_message int ws (Some v) (Some u) w = Raised AttributeError w /\
  next_message int ws u (Some v) w = (cleanup_client u;; ret false) w /\
  message_loop int ws u (Some v :: rest) w = disconnect u w /\
  exists w',
    next_message int ws u (Some v) w = Done false w' /\
    locked w' = false /\ CLIENTS w' !! u = None.
Proof.
  intros Hl Hu Hv.
  assert (Hp : process_message int ws (Some v) (Some u) w = Raised AttributeError w).
  { destruct v; try done. by destruct (Hv d). }
  assert (Hn : next_message int ws u (Some v) w = (cleanup_client u;; ret false) w).
  { unfold next_message, bind at 1, catch. rewrite Hp.
    unfold finally_clause. by rewrite (proj2 (truthy_str u) Hu). }
  split; [exact Hp|]. split; [exact Hn|].
  destruct (cleanup_client_gone u w Hl) as (evs & w1 & Hrun & Hl1 & _ & Hc & _).
  split.
  - cbn [message_loop]. unfold bind at 1. rewrite Hn.
    rewrite disconnect_cleanup by done.
    unfold bind, ret. rewrite Hrun. reflexivity.
  - rewrite Hn. unfold bind, ret. rewrite Hrun. eauto.
Qed.

(** ["a"], in the middle of a session, sends the JSON text [[]]. *)
Lemma frame_that_is_no_object_ends_the_connection_witness :
  process_message Scenarios.no_int 1%nat (Some (PList [])) (Some "a")
    Scenarios.two_playing
  = Raised AttributeError Scenarios.two_playing.
Proof.
  refine (proj1 (frame_that_is_no_object_ends_the_connection Scenarios.no_int
                   1%nat "a" (PList []) [] Scenarios.two_playing _ _ _)).
  - vm_compute. reflexivity.
  - discriminate.
  - discriminate.
Defined.

(** An opening registration without a name is refused and the
    connection closed, and the [finally] clause then cleans up under the
    identifier the frame named: whatever record the registry holds under
    that identifier is removed, also when it belongs to a client who
    registered on another connection, and the session that record named
    is taken out of the directories. *)
Theorem failed_opening_removes_the_record ws message u w :
  locked w = false ->
  is_action (get "action" PNone message) "register" = true ->
  get "uuid" PNone message = PStr u -> u <> "" ->
  truthy (get "name" (PStr "Anonymous") message) = false ->
  exists w',
    first_message ws (Some (PDict message)) w = Done None w' /\
    locked w' = false /\
    Send ws invalid_register_reply ∈ drop (length (trace w)) (trace w') /\
    Close ws ∈ drop (length (trace w)) (trace w') /\
    CLIENTS w' !! u = None /\
    (forall info gid,
       CLIENTS w !! u = Some info -> current_game info = Some gid ->
       GAMES w' !! gid = None).
Proof.
  intros Hl Hact Eu Hu Hname.
  pose proof (proj2 (truthy_str u) Hu) as Ht.
  unfold first_message. rewrite Eu, Hact, Ht. cbn [andb].
  unfold bind at 1, catch.
  rewrite handle_register_invalid
    by (unfold invalid_register; rewrite Hname; apply orb_true_r).
  unfold bind at 1, emit, update. rewrite log_log.
  unfold bind at 1, finally_clause. rewrite Ht.
  set (w0 := log _ w).
  destruct (cleanup_client_gone u w0 Hl)
    as (evs & w1 & Hrun & Hl1 & Htr & Hc & _ & Hg).
  rewrite Hrun. unfold ret. eexists. split; [reflexivity|].
  split; [exact Hl1|].
  assert (Hevs : drop (length (trace w)) (trace (log evs w1))
                 = [Send ws invalid_register_reply; Close ws] ++ evs).
  { cbn [trace log]. rewrite Htr. unfold w0. cbn [trace log].
    by rewrite <- app_assoc, drop_app_length. }
  rewrite Hevs.
  split; [apply list_elem_of_here|].
  split; [apply list_elem_of_further, list_elem_of_here|].
  split; [exact Hc|].
  intros info gid E Hcur.
  rewrite GAMES_log.
  destruct (Hg info gid E Hcur) as [[H _]|(H & HG & _)]; [exact H|].
  rewrite HG. exact H.
Qed.

(** While ["a"] and ["b"] play, a third connection opens with ["a"]'s
    identifier and an empty name. *)
Lemma failed_opening_removes_the_record_witness :
  exists w',
    first_message 3%nat (Scenarios.register_frame "a" "") Scenarios.two_playing
    = Done None w' /\
    CLIENTS w' !! "a" = None.
Proof.
  destruct (failed_opening_removes_the_record 3%nat
              [("action", PStr "register"); ("uuid", PStr "a");
               ("name", PStr "")] "a" Scenarios.two_playing)
    as (w' & H1 & _ & _ & _ & H2 & _);
    [vm_compute; reflexivity|reflexivity|reflexivity|discriminate
    |reflexivity|].
  exists w'. split; [exact H1|exact H2].
Defined.

(** ** Advertised sessions can be joined *)

Lemma joinable_blind : blind advertised_joinable.
Proof. intros w l t. reflexivity. Qed.
#[local] Hint Resolve joinable_blind : pres.

Section Joinable.
Local Abbreviation I := advertised_joinable.

Lemma joinable_set_CLIENTS c w : I w -> I (set_CLIENTS c w).
Proof. intros H. exact H. Qed.

Lemma joinable_log e w : I w -> I (log e w).
Proof. intros H. exact H. Qed.

Lemma joinable_set_locked l w : I w -> I (set_locked l w).
Proof. intros H. exact H. Qed.

Lemma preserves_update_registry (f : world -> gmap string client_info) :
  preserves I (update (fun w => set_CLIENTS (f w) w)).
Proof. apply preserves_update. intros w. apply joinable_set_CLIENTS. Qed.

(** Taking a session out of both directories. *)
Lemma joinable_removed k c G w :
  I w -> (forall j, j <> k -> G !! j = GAMES w !! j) ->
  I (set_AVAILABLE_GAMES (delete k (AVAILABLE_GAMES w))
       (set_GAMES G (set_CLIENTS c w))).
Proof.
  intros H HG j e Hj. cbn in Hj.
  apply lookup_delete_Some in Hj as [Hne Hj].
  destruct (H j e Hj) as (g & Hg & Hrest). exists g. split; [|exact Hrest].
  cbn. rewrite HG by done. exact Hg.
Qed.

(** Storing a session that is no longer advertised, or as it was. *)
Lemma joinable_stored k g' w :
  I w ->
  AVAILABLE_GAMES w !! k = None \/ GAMES w !! k = Some g' ->
  I (set_GAMES (<[k := g']> (GAMES w)) w).
Proof.
  intros H Hk j e Hj. cbn in Hj. destruct (H j e Hj) as (g & Hg & Hrest).
  exists g. split; [|exact Hrest]. cbn.
  destruct (decide (j = k)) as [->|Hne]; [|by rewrite lookup_insert_ne].
  destruct Hk as [Hk|Hk]; [congruence|].
  rewrite lookup_insert_eq. congruence.
Qed.

Hint Resolve preserves_update_registry joinable_set_CLIENTS : pres.

Lemma joinable_handle_register ws cu name :
  preserves I (handle_register ws cu name).
Proof. unfold handle_register. pres. Qed.

Lemma joinable_cleanup_game k : preserves I (cleanup_game k).
Proof.
  intros w H. destruct (locked w) eqn:Hl.
  { unfold cleanup_game. by rewrite (waits_bind _ _ (waits_with_lock _) w Hl). }
  rewrite cleanup_game_run by done.
  destruct (GAMES w !! k) as [g|] eqn:E; [|exact H].
  cbv zeta. cbn [world_of]. apply joinable_log. unfold game_removed.
  apply (joinable_removed k _ _ w H). intros j Hj. by apply lookup_delete_ne.
Qed.

Lemma joinable_cleanup_client u : preserves I (cleanup_client u).
Proof.
  intros w H. destruct (locked w) eqn:Hl.
  { by rewrite (waits_cleanup_client u w Hl). }
  destruct (CLIENTS w !! u) as [info|] eqn:E;
    [|by rewrite cleanup_client_unknown].
  destruct (cleanup_client_run u info w Hl E) as (evs & -> & _).
  cbn [world_of]. apply joinable_log.
  destruct (live_game (current_game info) w) as [[gid g]|] eqn:Elive;
    [|exact H].
  unfold game_removed, marked_finished.
  apply (joinable_removed gid _ _ w H). intros j Hj. cbn.
  by rewrite lookup_delete_ne, lookup_insert_ne.
Qed.

Lemma joinable_handle_create_game u : preserves I (handle_create_game u).
Proof.
  unfold handle_create_game.
  apply preserves_bind; [|intros [[k g]|]; pres].
  apply preserves_with_lock; [auto with pres|].
  apply preserves_bind; [pres|]. intros [info|]; [|pres].
  destruct (in_a_game (current_game info)); [pres|].
  intros w H. unfold bind, draw, update, ret. cbn.
  intros j e Hj. cbn in Hj |- *.
  destruct (decide (j = Uuid.new_game_id (urandom w (draws w)))) as [->|Hne].
  - rewrite lookup_insert_eq in Hj. injection Hj as <-.
    rewrite lookup_insert_eq. eexists. split; [reflexivity|]. done.
  - rewrite lookup_insert_ne in Hj by done.
    rewrite lookup_insert_ne by done. by apply H.
Qed.

Lemma joinable_join_updates {A} gid g' u (a : A) :
  preserves I
    (update (fun w => set_GAMES (<[gid := g']> (GAMES w)) w);;
     update (fun w =>
       set_CLIENTS (set_current_game u (Some gid) (CLIENTS w)) w);;
     update (fun w => set_AVAILABLE_GAMES (delete gid (AVAILABLE_GAMES w)) w);;
     ret a).
Proof.
  intros w H. unfold bind, update, ret. cbn [world_of].
  apply (joinable_removed gid _ _ w H). intros j Hj. cbn.
  by apply lookup_insert_ne.
Qed.

Hint Resolve joinable_handle_register joinable_cleanup_game
  joinable_cleanup_client joinable_handle_create_game
  joinable_join_updates : pres.

Lemma joinable_handle_join_game u k : preserves I (handle_join_game u k).
Proof. unfold handle_join_game. pres. Qed.

Hint Resolve joinable_handle_join_game : pres.

Variable int_of_str : string -> option Z.

Lemma handle_make_move_unknown u gid y x w :
  locked w = false -> GAMES w !! gid = None ->
  handle_make_move int_of_str u gid y x w
  = Blocked (set_locked true (log [Acquire] w)).
Proof.
  intros Hl E. unfold handle_make_move, bind at 1, with_lock. rewrite Hl.
  unfold bind at 1, read. cbn [GAMES set_locked log]. rewrite E.
  unfold bind at 1. by rewrite send_message_to_client_blocked.
Qed.

Lemma joinable_handle_make_move u k y x :
  preserves I (handle_make_move int_of_str u k y x).
Proof.
  intros w H. destruct (locked w) eqn:Hl.
  { by rewrite (waits_handle_make_move int_of_str u k y x w Hl). }
  destruct (GAMES w !! k) as [g|] eqn:E;
    [|by rewrite handle_make_move_unknown].
  destruct (int_both int_of_str y x) as [e|[yi xi]] eqn:Hyx.
  { rewrite (handle_make_move_refused _ u k y x g e w Hl E Hyx).
    by destruct e. }
  rewrite (handle_make_move_run _ u k y x g yi xi w Hl E Hyx). cbv zeta.
  assert (H1 : I (set_GAMES (<[k := (make_move g u yi xi).2]> (GAMES w)) w)).
  { apply joinable_stored; [exact H|].
    destruct (AVAILABLE_GAMES w !! k) as [e|] eqn:Ea; [right|by left].
    destruct (H k e Ea) as (g0 & Hg0 & _ & Hst & _).
    assert (g0 = g) as -> by congruence.
    rewrite make_move_not_active by (rewrite Hst; discriminate). done. }
  destruct (make_move g u yi xi).1 as [reason|b next [|] wn tie];
    cbn [world_of]; apply joinable_log; try exact H1.
  unfold game_removed.
  apply (joinable_removed k _ _ _ H1). intros j Hj. by apply lookup_delete_ne.
Qed.

Hint Resolve joinable_handle_make_move : pres.

Lemma joinable_process_message ws frame cuid :
  preserves I (process_message int_of_str ws frame cuid).
Proof. unfold process_message. pres. Qed.

Lemma joinable_finally_clause cuid : preserves I (finally_clause cuid).
Proof. unfold finally_clause. pres. Qed.

Hint Resolve joinable_process_message joinable_finally_clause : pres.

Lemma joinable_first_message ws frame : preserves I (first_message ws frame).
Proof. unfold first_message. pres. Qed.

Lemma joinable_next_message ws u frame :
  preserves I (next_message int_of_str ws u frame).
Proof. unfold next_message. pres. Qed.

Hint Resolve joinable_first_message joinable_next_message : pres.

Lemma joinable_run_op o : preserves I (run_op int_of_str o).
Proof. destruct o; unfold run_op, disconnect; pres. Qed.

Lemma joinable_run_ops os w : I w -> I (run_ops int_of_str os w).
Proof.
  revert w. induction os as [|o os IH]; intros w H; [exact H|].
  rewrite run_ops_cons. apply IH. by apply joinable_run_op.
Qed.

End Joinable.

(** However the server got where it is, every advertised session can
    be joined: it is stored under the identifier it is advertised under,
    waiting, with its second seat free and on its first seat the creator
    the entry names.  So a client in the lobby who joins an advertised
    session is always seated: [add_player2] succeeds, and the branch
    for a session that is advertised but full is never taken. *)
Theorem advertised_sessions_can_be_joined int rnd os :
  let w := run_ops int os (start rnd) in
  advertised_joinable w /\
  (forall u info gid e,
     locked w = false -> CLIENTS w !! u = Some info ->
     in_a_game (current_game info) = false ->
     AVAILABLE_GAMES w !! gid = Some e ->
     exists g w',
       GAMES w !! gid = Some g /\
       handle_join_game u (PStr gid) w = Done tt w' /\
       GAMES w' !! gid = Some (add_player2 g u (client_name info)).2 /\
       (add_player2 g u (client_name info)).1 = true).
Proof.
  cbv zeta.
  assert (HI : advertised_joinable (run_ops int os (start rnd))).
  { apply joinable_run_ops. intros gid e He. cbn in He.
    by rewrite lookup_empty in He. }
  split; [exact HI|].
  intros u info gid e Hl E Hin He.
  destruct (HI gid e He) as (g & Hg & HO & _).
  pose proof (handle_join_game_run u info gid g e _ Hl E Hin Hg He HO) as Hrun.
  cbv zeta in Hrun. eexists g, _. split; [exact Hg|]. split; [exact Hrun|].
  split; [apply lookup_insert_eq|]. unfold add_player2. by rewrite HO.
Qed.

(** ["b"] joins the session ["a"] has just opened. *)
Lemma advertised_sessions_can_be_joined_witness :
  exists g w',
    GAMES (run_ops Scenarios.no_int
             (Scenarios.lobby_ops
                ++ [Frame 1%nat "a" (Scenarios.action_frame "create_game" "a")])
             (start Scenarios.fresh_prefix)) !! "00000000" = Some g /\
    handle_join_game "b" (PStr "00000000")
      (run_ops Scenarios.no_int
         (Scenarios.lobby_ops
            ++ [Frame 1%nat "a" (Scenarios.action_frame "create_game" "a")])
         (start Scenarios.fresh_prefix)) = Done tt w'.
Proof.
  destruct (proj2 (advertised_sessions_can_be_joined Scenarios.no_int
                     Scenarios.fresh_prefix
                     (Scenarios.lobby_ops
                        ++ [Frame 1%nat "a"
                              (Scenarios.action_frame "create_game" "a")]))
              "b"
              {| client_name := PStr "B"; websocket := 2%nat;
                 current_game := None; client_status := "connected" |}
              "00000000"
              {| open_game_id := "00000000"; player1_name := PStr "A";
                 player1_uuid := "a" |})
    as (g & w' & H1 & H2 & _); [vm_compute; reflexivity..|].
  exists g, w'. split; [exact H1|exact H2].
Defined.

(** ** Cleaning up what is not there *)

(** Cleaning up twice is harmless: [cleanup_game] for a session that is
    not stored and [cleanup_client] for a client that is not registered
    take and release the lock and do nothing else, not even the lobby
    broadcast, so the departure of a client who has already been cleaned
    up, as when an old and a new connection of the same client both
    end, changes nothing. *)
Theorem cleaning_up_twice_is_harmless u w :
  locked w = false ->
  u <> "" ->
  (forall gid, GAMES w !! gid = None ->
               cleanup_game gid w = Done tt (log [Acquire; Release] w)) /\
  (CLIENTS w !! u = None ->
   cleanup_client u w = Done tt (log [Acquire; Release] w)) /\
  exists w1,
    disconnect u w = Done tt w1 /\
    disconnect u w1 = Done tt (log [Acquire; Release] w1).
Proof.
  intros Hl Hu. split.
  { intros gid E. rewrite cleanup_game_run by done. by rewrite E. }
  split; [by apply cleanup_client_unknown|].
  rewrite disconnect_cleanup by done.
  destruct (cleanup_client_gone u w Hl) as (evs & w1 & Hrun & Hl1 & _ & Hc & _).
  eexists. split; [exact Hrun|].
  rewrite disconnect_cleanup by done.
  by apply cleanup_client_unknown.
Qed.

(** ["a"] leaves in the middle of a session, twice. *)
Lemma cleaning_up_twice_is_harmless_witness :
  exists w1,
    disconnect "a" Scenarios.two_playing = Done tt w1 /\
    disconnect "a" w1 = Done tt (log [Acquire; Release] w1).
Proof.
  refine (proj2 (proj2 (cleaning_up_twice_is_harmless "a"
                          Scenarios.two_playing _ _))).
  - vm_compute. reflexivity.
  - discriminate.
Defined.

(** ** Who is told about the advertised sessions *)

Lemma lobby_clients_spec c u :
  u ∈ lobby_clients c <-> exists info, c !! u = Some info /\ current_game info = None.
Proof.
  unfold lobby_clients. rewrite list_elem_of_omap. split.
  - intros ([k info] & Hin & Hk). apply elem_of_map_to_list in Hin.
    destruct (current_game info) eqn:Ec; [done|]. injection Hk as ->. eauto.
  - intros (info & E & Ec). exists (u, info).
    split; [by apply elem_of_map_to_list|]. by rewrite Ec.
Qed.

Lemma open_games_spec a e :
  e ∈ open_games a <->
  exists info,
    a !! open_game_id e = Some info /\
    player1_name e = player1_name info /\ player1_uuid e = player1_uuid info.
Proof.
  unfold open_games. rewrite list_elem_of_fmap. split.
  - intros ([k info] & -> & Hin). apply elem_of_map_to_list in Hin. cbn. eauto.
  - intros (info & E & Hn & Hu). exists (open_game_id e, info).
    split; [|by apply elem_of_map_to_list]. destruct e. cbn in *. congruence.
Qed.

(** The lobby broadcast goes to the lobby and to nobody else: every
    registered client whose record names no session is sent the list,
    every frame sent is that list on the connection of such a client,
    the list holds exactly the advertised sessions with the names and
    identifiers of their creators, and nothing in the shared state
    changes. *)
Theorem lobby_broadcast_reaches_the_lobby w :
  locked w = false ->
  exists evs,
    broadcast_available_games w = Done tt (log evs w) /\
    (forall u info,
       CLIENTS w !! u = Some info -> current_game info = None ->
       Send (websocket info)
         (available_games_update (open_games (AVAILABLE_GAMES w))) ∈ evs) /\
    (forall ws m,
       Send ws m ∈ evs ->
       m = available_games_update (open_games (AVAILABLE_GAMES w)) /\
       exists u info,
         CLIENTS w !! u = Some info /\ current_game info = None /\
         ws = websocket info) /\
    (forall e,
       e ∈ open_games (AVAILABLE_GAMES w) <->
       exists info,
         AVAILABLE_GAMES w !! open_game_id e = Some info /\
         player1_name e = player1_name info /\
         player1_uuid e = player1_uuid info).
Proof.
  intros Hl. eexists. split; [by apply broadcast_available_games_run|].
  split.
  { intros u info E Ec. unfold ev_broadcast_available.
    do 4 apply list_elem_of_further.
    apply (ev_send_all_elem _ _ u); [|done]. apply lobby_clients_spec. eauto. }
  split; [|apply open_games_spec].
  intros ws m Hin. unfold ev_broadcast_available in Hin.
  do 4 (apply elem_of_cons in Hin as [Hin|Hin]; [discriminate|]).
  apply ev_send_all_inv in Hin as [Hin|[Hin|(u & info & Hu & E & Hin)]];
    try discriminate.
  injection Hin as -> ->. split; [done|].
  apply lobby_clients_spec in Hu as (info' & E' & Ec).
  exists u, info. rewrite E in E'. injection E' as <-. done.
Qed.

(** The broadcast while ["a"] and ["b"] are in the lobby. *)
Lemma lobby_broadcast_reaches_the_lobby_witness :
  exists evs,
    broadcast_available_games Scenarios.two_in_lobby
    = Done tt (log evs Scenarios.two_in_lobby) /\
    Send 1%nat (available_games_update
                  (open_games (AVAILABLE_GAMES Scenarios.two_in_lobby))) ∈ evs.
Proof.
  destruct (lobby_broadcast_reaches_the_lobby Scenarios.two_in_lobby)
    as (evs & H1 & H2 & _); [vm_compute; reflexivity|].
  exists evs. split; [exact H1|].
  apply (H2 "a" {| client_name := PStr "A"; websocket := 1%nat;
                   current_game := None; client_status := "connected" |});
    [vm_compute; reflexivity|reflexivity].
Defined.

(** ** Only a join can hang *)

Lemma handle_make_move_ends int u gid y x g w :
  locked w = false -> GAMES w !! gid = Some g ->
  finished_run (handle_make_move int u gid y x w) = true.
Proof.
  intros Hl E.
  destruct (int_both int y x) as [e|[yi xi]] eqn:Hyx.
  { rewrite (handle_make_move_refused _ u gid y x g e w Hl E Hyx).
    by destruct e. }
  rewrite (handle_make_move_run _ u gid y x g yi xi w Hl E Hyx). cbv zeta.
  by destruct (make_move g u yi xi).1 as [reason|b next [|] wn tie].
Qed.

Lemma process_message_ends int ws frame cuid w :
  locked w = false ->
  (forall message,
     frame = Some (PDict message) ->
     is_action (get "action" PNone message) "join_game" = false) ->
  finished_run (process_message int ws frame cuid w) = true.
Proof.
  intros Hl Hjoin.
  destruct frame as [[| | | | |message|]|]; try reflexivity.
  specialize (Hjoin message eq_refl). unfold process_message.
  set (action := get "action" PNone message) in *.
  set (received := get "uuid" PNone message).
  set (eff := if truthy received then received else _).
  destruct (negb (is_action action "register") && _); [reflexivity|].
  destruct (negb (truthy eff)); [reflexivity|].
  unfold bind at 1.
  pose proof (keeps_lock_with_lock _ (keeps_lock_lookup_key CLIENTS eff) w) as Hk.
  pose proof (ends_with_lock _ (plain_lookup_key CLIENTS eff) w Hl) as He.
  destruct (with_lock (lookup_key CLIENTS eff) w) as [ci w'|e w'|w'] eqn:Elk;
    [|reflexivity|discriminate].
  assert (Hl' : locked w' = false) by congruence. clear Hk He.
  destruct (is_action action "register").
  { refine ((_ : ends _) w' Hl'). ending. }
  destruct ci as [info|]; [|reflexivity].
  destruct eff as [| | |v| | |] eqn:Eeff; try reflexivity.
  rewrite with_lock_lookup_CLIENTS in Elk by done.
  injection Elk as Ei <-.
  destruct (negb (websocket info =? ws)%nat); [reflexivity|].
  destruct (current_game info) as [gid|] eqn:Ec.
  - unfold bind at 1, read.
    destruct (GAMES (log [Acquire; Release] w) !! gid) as [g|] eqn:Eg.
    + destruct (is_action action "make_move").
      * by apply (handle_make_move_ends _ _ _ _ _ g).
      * refine ((_ : ends _) _ Hl'). ending.
    + refine ((_ : ends _) _ Hl'). ending.
  - destruct (is_action action "create_game").
    { rewrite (handle_create_game_run v info) by (done || by rewrite Ec).
      reflexivity. }
    rewrite Hjoin.
    destruct (is_action action "list_games"); refine ((_ : ends _) _ Hl'); ending.
Qed.

(** Only a request to join can hang: started with the lock free, a
    frame of the message loop that is not a ["join_game"] request,
    whatever else it holds, is dealt with to the end, by a reply or by
    the end of the connection, and the lock is free afterwards. *)
Theorem only_joining_can_hang int ws u frame w :
  locked w = false ->
  (forall message,
     frame = Some (PDict message) ->
     is_action (get "action" PNone message) "join_game" = false) ->
  finished_run (run_op int (Frame ws u frame) w) = true /\
  locked (world_of (run_op int (Frame ws u frame) w)) = false.
Proof.
  intros Hl Hjoin.
  assert (Hf : finished_run (run_op int (Frame ws u frame) w) = true).
  { assert (Hn : finished_run (next_message int ws u frame w) = true).
    { unfold next_message, bind at 1, catch.
      pose proof (process_message_ends int ws frame (Some u) w Hl Hjoin) as Hp.
      pose proof (keeps_lock_process_message int ws frame (Some u) w) as Hk.
      destruct (process_message int ws frame (Some u) w) as [a w'|e w'|w'];
        [reflexivity| |discriminate].
      refine ((_ : ends _) w' _); [ending|congruence]. }
    unfold run_op, bind.
    by destruct (next_message int ws u frame w). }
  split; [exact Hf|].
  pose proof (keeps_lock_run_op int (Frame ws u frame) w) as Hk.
  destruct (run_op int (Frame ws u frame) w); cbn in *; congruence.
Qed.

(** ["a"], in the lobby, asks for something the server does not know. *)
Lemma only_joining_can_hang_witness :
  finished_run
    (run_op Scenarios.no_int
       (Frame 1%nat "a" (Scenarios.action_frame "leave_game" "a"))
       Scenarios.two_in_lobby) = true.
Proof.
  refine (proj1 (only_joining_can_hang Scenarios.no_int 1%nat "a"
                   (Scenarios.action_frame "leave_game" "a")
                   Scenarios.two_in_lobby _ _)).
  - vm_compute. reflexivity.
  - intros message [= <-]. reflexivity.
Defined.

(** ** What a registration is answered with *)

(** A valid registration is answered with [registered] and then with
    exactly one more frame: a client whose record, kept from an earlier
    registration, names a stored session is sent [rejoin_game] with the
    state of that session and its own mark in it, and no list; every
    other client is sent the list of the advertised sessions.  All of it
    goes to the connection the registration came on. *)
Theorem registration_replies ws u name w :
  locked w = false ->
  u <> "" ->
  truthy name = true ->
  let w1 := set_CLIENTS (<[u := registered_info w ws u name]> (CLIENTS w)) w in
  match current_game (registered_info w ws u name) with
  | Some gid =>
      exists g,
        GAMES w !! gid = Some g /\
        handle_register ws (PStr u) name w
        = Done true
            (log [Acquire; Release; Send ws (registered u name);
                  Acquire; Release;
                  Send ws (rejoin_game gid g (get_player_piece g u))] w1)
  | None =>
      handle_register ws (PStr u) name w
      = Done true
          (log [Acquire; Release; Send ws (registered u name);
                Acquire; Release; Acquire; Release; Acquire; Release;
                Send ws (available_games_update
                           (open_games (AVAILABLE_GAMES w)))] w1)
  end.
Proof.
  intros Hl Hu Hn. apply truthy_str in Hu.
  destruct w as [C G A l t rnd d]. cbn in Hl. subst l. cbv zeta.
  unfold handle_register, registered_info. rewrite Hu, Hn. cbn [negb orb].
  unmonad.
  destruct (C !! u) as [info|] eqn:E; cbn.
  - rewrite lookup_insert_eq. cbn.
    destruct (current_game info) as [gid|] eqn:Eg; cbn.
    + destruct (negb (gid =? "")%string) eqn:Et; cbn.
      * destruct (G !! gid) as [g|] eqn:EG; cbn.
        -- exists g. split; [done|]. rewrite <- ?app_assoc. reflexivity.
        -- unfold set_current_game. rewrite lookup_insert_eq. cbn.
           rewrite insert_insert_eq.
           unfold get_available_games_list. unmonad.
           rewrite <- ?app_assoc. reflexivity.
      * unfold set_current_game. rewrite lookup_insert_eq. cbn.
        rewrite insert_insert_eq.
        unfold get_available_games_list. unmonad.
        rewrite <- ?app_assoc. reflexivity.
    + unfold set_current_game. rewrite lookup_insert_eq. cbn.
      rewrite insert_insert_eq.
      unfold get_available_games_list. unmonad.
      rewrite <- ?app_assoc. reflexivity.
  - rewrite lookup_insert_eq. cbn.
    unfold set_current_game. rewrite lookup_insert_eq. cbn.
    rewrite insert_insert_eq.
    unfold get_available_games_list. unmonad.
    rewrite <- ?app_assoc. reflexivity.
Qed.

(** ["a"], in the middle of a session, registers again on a new
    connection. *)
Lemma registration_replies_witness :
  exists g,
    GAMES Scenarios.two_playing !! "00000000" = Some g /\
    handle_register 3%nat (PStr "a") (PStr "A") Scenarios.two_playing
    = Done true
        (log [Acquire; Release; Send 3%nat (registered "a" (PStr "A"));
              Acquire; Release;
              Send 3%nat (rejoin_game "00000000" g (get_player_piece g "a"))]
           (set_CLIENTS
              (<["a" := registered_info Scenarios.two_playing 3%nat "a" (PStr "A")]>
                 (CLIENTS Scenarios.two_playing)) Scenarios.two_playing)).
Proof.
  assert (H1 : locked Scenarios.two_playing = false) by (vm_compute; reflexivity).
  assert (H2 : "a" <> "") by discriminate.
  pose proof (registration_replies 3%nat "a" (PStr "A") Scenarios.two_playing
                H1 H2 eq_refl) as H.
  cbv zeta in H.
  assert (E : current_game (registered_info Scenarios.two_playing 3%nat "a" (PStr "A"))
              = Some "00000000") by (vm_compute; reflexivity).
  rewrite E in H. exact H.
Defined.

(** ** The [finally] clause *)

(** One frame of the loop either lets it go on, or has ended it with
    the record of the client removed, or hangs. *)
Lemma next_message_cases int ws u frame w :
  u <> "" ->
  match next_message int ws u frame w with
  | Done true _ => True
  | Done false w' => CLIENTS w' !! u = None
  | Raised _ _ => False
  | Blocked _ => True
  end.
Proof.
  intros Hu. unfold next_message, bind at 1, catch.
  destruct (process_message int ws frame (Some u) w) as [a w1|e w1|w1];
    [done| |done].
  unfold finally_clause. rewrite (proj2 (truthy_str u) Hu).
  unfold bind, ret. destruct (locked w1) eqn:Hl.
  - by rewrite (waits_cleanup_client u w1 Hl).
  - destruct (cleanup_client_gone u w1 Hl) as (evs & w2 & -> & _ & _ & Hc & _).
    exact Hc.
Qed.

Lemma message_loop_cleans_up int ws u frames w :
  u <> "" ->
  finished_run (message_loop int ws u frames w) = true ->
  exists w',
    message_loop int ws u frames w = Done tt w' /\ CLIENTS w' !! u = None.
Proof.
  intros Hu. revert w. induction frames as [|f frames IH]; intros w Hf.
  - cbn [message_loop] in *. rewrite disconnect_cleanup in * by done.
    destruct (locked w) eqn:Hl.
    + by rewrite (waits_cleanup_client u w Hl) in Hf.
    + destruct (cleanup_client_gone u w Hl) as (evs & w1 & -> & _ & _ & Hc & _).
      eauto.
  - cbn [message_loop] in *. unfold bind in *.
    pose proof (next_message_cases int ws u f w Hu) as Hn.
    destruct (next_message int ws u f w) as [[|] w1|e w1|w1]; try done.
    + by apply IH.
    + unfold ret. eauto.
Qed.

Lemma first_message_named ws frame u w w1 :
  first_message ws frame w = Done (Some u) w1 -> u <> "".
Proof.
  unfold first_message. intros H.
  assert (Hnone : forall (m : M unit) w0 r,
            (m;; ret None) w0 = Done (Some u) r -> False).
  { intros m w0 r. unfold bind, ret. by destruct (m w0). }
  destruct frame as [[| | | | |message|]|]; try (by apply Hnone in H).
  destruct (get "uuid" PNone message) as [| | |v| | |]; try (by apply Hnone in H).
  destruct (is_action (get "action" PNone message) "register"); cbn [andb] in H;
    [|by apply Hnone in H].
  destruct (truthy (PStr v)) eqn:Ht; [|by apply Hnone in H].
  unfold bind at 1 in H.
  destruct (catch _ w) as [[[|]|] w0|e w0|w0]; try done.
  - unfold ret in H. injection H as <- _. by apply truthy_str.
  - by apply Hnone in H.
  - by apply Hnone in H.
Qed.

(** A handler that comes to an end has cleaned up: however the frames
    of a connection run, through replies, refusals, exceptions or the
    loss of the connection, if [handle_client] ends for a connection
    whose opening frame was accepted for a client, the registry holds no
    record of that client afterwards. *)
Theorem handler_that_ends_has_cleaned_up int ws first rest u w w1 :
  first_message ws first w = Done (Some u) w1 ->
  finished_run (handle_client int ws (first :: rest) w) = true ->
  exists w',
    handle_client int ws (first :: rest) w = Done tt w' /\
    message_loop int ws u rest w1 = Done tt w' /\
    CLIENTS w' !! u = None.
Proof.
  intros Hfirst Hf. pose proof (first_message_named _ _ _ _ _ Hfirst) as Hu.
  cbn [handle_client] in *. unfold bind in *. rewrite Hfirst in *.
  destruct (message_loop_cleans_up int ws u rest w1 Hu Hf) as (w' & E & Hc).
  eauto.
Qed.

(** ["a"] registers, opens a session, sends a frame that is no object
    and would have sent more. *)
Lemma handler_that_ends_has_cleaned_up_witness :
  exists w',
    handle_client Scenarios.no_int 1%nat
      [Scenarios.register_frame "a" "A";
       Scenarios.action_frame "create_game" "a"; Some (PList []);
       Scenarios.action_frame "list_games" "a"]
      (start Scenarios.fresh_prefix) = Done tt w' /\
    CLIENTS w' !! "a" = None.
Proof.
  destruct (handler_that_ends_has_cleaned_up Scenarios.no_int 1%nat
              (Scenarios.register_frame "a" "A")
              [Scenarios.action_frame "create_game" "a"; Some (PList []);
               Scenarios.action_frame "list_games" "a"]
              "a" (start Scenarios.fresh_prefix)
              (world_of (first_message 1%nat (Scenarios.register_frame "a" "A")
                           (start Scenarios.fresh_prefix))))
    as (w' & H1 & _ & H2); [vm_compute; reflexivity..|].
  exists w'. split; [exact H1|exact H2].
Defined.

(** ** Replies sent while the lock is held *)

Lemma silent_ret {A} (a : A) : silent (ret a).
Proof. by intros w. Qed.

Lemma silent_read {A} (f : world -> A) : silent (read f).
Proof. by intros w. Qed.

Lemma silent_raise {A} e : silent (@raise A e).
Proof. by intros w. Qed.

Lemma silent_lookup_key {V} (m : world -> gmap string V) k :
  silent (lookup_key m k).
Proof. intros w. unfold lookup_key. by destruct (dict_get (m w) k). Qed.

Lemma silent_draw : silent draw.
Proof. by intros w. Qed.

Lemma silent_update f : (forall w, trace (f w) = trace w) -> silent (update f).
Proof. intros H w Hw. unfold never_sent, update. cbn. by rewrite H. Qed.

Lemma silent_emit e : quiet_event e -> silent (emit e).
Proof.
  intros He w Hw. unfold never_sent, emit, update. cbn.
  apply Forall_app. split; [exact Hw|]. by constructor.
Qed.

Lemma silent_send_message ws m :
  sent_under_lock m = false -> silent (send_message ws m).
Proof. intros Hm. by apply silent_emit. Qed.

Lemma silent_bind {A B} (m : M A) (k : A -> M B) :
  silent m -> (forall a, silent (k a)) -> silent (bind m k).
Proof.
  intros Hm Hk w Hw. unfold bind. specialize (Hm w Hw).
  destruct (m w) as [a w'|e w'|w']; [|done..]. by apply Hk.
Qed.

Lemma silent_catch {A} (body : M A) : silent body -> silent (catch body).
Proof.
  intros Hb w Hw. unfold catch. specialize (Hb w Hw). by destruct (body w).
Qed.

Lemma silent_for_each {A} (xs : list A) (body : A -> M unit) :
  (forall x, silent (body x)) -> silent (for_each xs body).
Proof.
  intros Hb. induction xs as [|x xs IH]; [apply silent_ret|].
  apply silent_bind; [apply Hb|intros _; apply IH].
Qed.

Lemma never_sent_log evs w :
  never_sent w -> Forall quiet_event evs -> never_sent (log evs w).
Proof. intros Hw He. unfold never_sent. cbn. by apply Forall_app. Qed.

Lemma silent_with_lock {A} (body : M A) : muted body -> silent (with_lock body).
Proof.
  intros Hb w Hw. unfold with_lock. destruct (locked w); [done|].
  assert (H0 : never_sent (set_locked true (log [Acquire] w))).
  { apply (never_sent_log [Acquire] w Hw). by repeat constructor. }
  specialize (Hb (set_locked true (log [Acquire] w)) eq_refl H0).
  destruct (body _) as [a w'|e w'|w']; cbn in *; [| |done];
    apply (never_sent_log [Release] w' Hb); by repeat constructor.
Qed.

Lemma muted_silent {A} (m : M A) : silent m -> muted m.
Proof. intros Hm w _. apply Hm. Qed.

Lemma muted_waits {A} (m : M A) : waits m -> muted m.
Proof. intros Hm w Hl Hw. by rewrite (Hm w Hl). Qed.

Lemma muted_bind {A B} (m : M A) (k : A -> M B) :
  keeps_lock m -> muted m -> (forall a, muted (k a)) -> muted (bind m k).
Proof.
  intros Hl Hm Hk w Hlw Hw. unfold bind. specialize (Hm w Hlw Hw).
  specialize (Hl w). destruct (m w) as [a w'|e w'|w']; [|done..].
  apply Hk; [congruence|done].
Qed.

Create HintDb hush.
#[local] Hint Resolve silent_ret silent_read silent_raise silent_lookup_key
  silent_draw : hush.

Ltac hush_step :=
  first
    [ solve [auto with hush]
    | apply silent_send_message; reflexivity
    | apply silent_emit; exact I
    | apply silent_catch
    | apply silent_for_each; intros ?
    | apply silent_update; intros ?; cbn; repeat case_match; reflexivity
    | apply silent_with_lock
    | apply muted_waits; solve [waits_now]
    | apply muted_silent;
      solve [repeat first
               [ solve [auto with hush]
               | apply silent_for_each; intros ?
               | apply silent_update; intros ?; cbn; repeat case_match; reflexivity
               | apply silent_bind; [|intros ?] ]]
    | apply silent_bind; [|intros ?]
    | apply muted_bind; [solve [locks]| |intros ?]
    | match goal with
      | |- silent (match ?x with _ => _ end) => destruct x
      | |- muted (match ?x with _ => _ end) => destruct x
      | |- silent (let '(_, _) := ?x in _) => destruct x
      end
    | intros ? ?; cbn; repeat case_match; simplify_eq; assumption
    | intros ? ? ?; cbn; repeat case_match; simplify_eq; assumption ].

Ltac hush := repeat hush_step.

Lemma silent_send_message_to_client u m :
  sent_under_lock m = false -> silent (send_message_to_client u m).
Proof. intros Hm. unfold send_message_to_client. hush. by apply silent_send_message. Qed.

Lemma silent_get_available_games_list : silent get_available_games_list.
Proof. unfold get_available_games_list. hush. Qed.
#[local] Hint Resolve silent_get_available_games_list : hush.
#[local] Hint Extern 1 (silent (send_message_to_client _ _)) =>
  apply silent_send_message_to_client; reflexivity : hush.

Lemma silent_broadcast_available_games : silent broadcast_available_games.
Proof. unfold broadcast_available_games. hush. Qed.

Lemma silent_broadcast_game_message gid m :
  sent_under_lock m = false -> silent (broadcast_game_message gid m).
Proof.
  intros Hm. unfold broadcast_game_message. hush.
  by apply silent_send_message.
Qed.
#[local] Hint Resolve silent_broadcast_available_games : hush.
#[local] Hint Extern 1 (silent (broadcast_game_message _ _)) =>
  apply silent_broadcast_game_message; reflexivity : hush.

Lemma silent_handle_register ws cu name : silent (handle_register ws cu name).
Proof. unfold handle_register. hush. Qed.

Lemma silent_cleanup_game k : silent (cleanup_game k).
Proof. unfold cleanup_game. hush. Qed.
#[local] Hint Resolve silent_handle_register silent_cleanup_game : hush.

Lemma silent_cleanup_client u : silent (cleanup_client u).
Proof. unfold cleanup_client, cleanup_client_locked. hush. Qed.

Lemma silent_handle_create_game u : silent (handle_create_game u).
Proof. unfold handle_create_game. hush. Qed.

Lemma silent_handle_join_game u k : silent (handle_join_game u k).
Proof. unfold handle_join_game. hush. Qed.
#[local] Hint Resolve silent_cleanup_client silent_handle_create_game
  silent_handle_join_game : hush.

Lemma silent_handle_make_move int u k y x :
  silent (handle_make_move int u k y x).
Proof. unfold handle_make_move. hush. Qed.
#[local] Hint Resolve silent_handle_make_move : hush.

Lemma silent_process_message int ws frame cuid :
  silent (process_message int ws frame cuid).
Proof. unfold process_message. hush. Qed.

Lemma silent_finally_clause cuid : silent (finally_clause cuid).
Proof. unfold finally_clause. hush. Qed.
#[local] Hint Resolve silent_process_message silent_finally_clause : hush.

Lemma silent_first_message ws frame : silent (first_message ws frame).
Proof. unfold first_message. hush. Qed.

Lemma silent_next_message int ws u frame :
  silent (next_message int ws u frame).
Proof. unfold next_message. hush. Qed.
#[local] Hint Resolve silent_first_message silent_next_message : hush.

Lemma silent_run_op int o : silent (run_op int o).
Proof. destruct o; unfold run_op, disconnect; hush. Qed.

Lemma silent_run_ops int os w : never_sent w -> never_sent (run_ops int os w).
Proof.
  revert w. induction os as [|o os IH]; intros w H; [exact H|].
  rewrite run_ops_cons. apply IH. by apply silent_run_op.
Qed.

(** The replies that are sent from inside an [async with STATE_LOCK]
    block reach nobody: [send_message_to_client] takes the lock itself,
    so whatever steps the server runs, no connection is ever sent ["You
    are already in a game."], ["Failed to join game. Game might be
    full."] or any [game_error]. *)
Theorem replies_under_the_lock_are_never_sent int rnd os :
  never_sent (run_ops int os (start rnd)) /\
  (forall ws m,
     Send ws m ∈ trace (run_ops int os (start rnd)) ->
     m <> error (Lit "You are already in a game.") /\
     m <> error (Lit "Failed to join game. Game might be full.") /\
     forall game_id msg, m <> game_error game_id msg).
Proof.
  assert (H : never_sent (run_ops int os (start rnd))).
  { apply silent_run_ops. constructor. }
  split; [exact H|]. intros ws m Hin.
  unfold never_sent in H. rewrite Forall_forall in H.
  specialize (H _ Hin). cbn in H.
  repeat split; intros; intros ->; discriminate.
Qed.

End ServerExtra.

(** * Further properties of the session identifiers *)
Module IdExtra.
Import Uuid IdSpace IdShape IdProps.
Local Open Scope N_scope.

Lemma hex_digit_hex d : hex_digit d ∈ hex_digits.
Proof.
  unfold hex_digit, hex_digits. repeat case_match;
    repeat first [apply list_elem_of_here | apply list_elem_of_further].
Qed.

Lemma all_hex_append s t : all_hex s -> all_hex t -> all_hex (s +:+ t).
Proof.
  unfold all_hex. induction s as [|c s IH]; intros Hs Ht.
  - by rewrite append_nil.
  - rewrite append_cons. cbn in *. inversion Hs; subst.
    constructor; [done|]. by apply IH.
Qed.

Lemma all_hex_hex n x : all_hex (hex n x).
Proof.
  revert x. induction n as [|n IH]; intros x; cbn [hex].
  - constructor.
  - apply all_hex_append; [apply IH|].
    constructor; [apply hex_digit_hex|constructor].
Qed.

(** A session identifier is eight lower-case hexadecimal digits,
    whatever the random bytes are; in particular it is never empty, so
    the record of a client who has opened a session counts as naming a
    session wherever the handlers test it. *)
Theorem game_id_is_eight_hex_digits r :
  String.length (new_game_id r) = 8%nat /\
  all_hex (new_game_id r) /\
  new_game_id r <> "" /\
  Server.in_a_game (Some (new_game_id r)) = true.
Proof.
  rewrite new_game_id_top.
  assert (Hlen : String.length (hex 8 (top32 r)) = 8%nat) by apply length_hex.
  assert (Hne : hex 8 (top32 r) <> "").
  { intros E. rewrite E in Hlen. discriminate. }
  split; [exact Hlen|]. split; [apply all_hex_hex|]. split; [exact Hne|].
  cbn [Server.in_a_game Py.truthy].
  by destruct (String.eqb_spec (hex 8 (top32 r)) "").
Qed.

End IdExtra.
